(** * Clisp: a shallow embedding of the interpreter and its specification

    The interpreter is the single translation unit that holds the lexer
    ([Cell_stream::get]), the parser ([expr]), the evaluator ([eval],
    [evlist], [apply], [Parser::bind]), the primitives ([apply_prim]) and the
    printer ([print]); the embedded entry point [expr_str] lives in a second
    file.  Each C++ function is a Rocq function of the same name over an
    explicit interpreter state.  Exceptions are results of a sum type; the
    places where the C++ text leaves the behaviour undefined (reading past the
    end of a vector, using an object whose lifetime has ended) are results of
    their own, so that no theorem asserts a value there.

    Two conventions.  Operands are evaluated in the order C++17 fixes: the
    right side of an assignment before the left, the operands of [<<] from
    left to right.  A list of cells is a value: where the C++ text reads an
    expression in place, through a reference, the embedding reads the cells
    the reference stood for when the evaluation started. *)

From Stdlib Require Import String Ascii List ZArith Lia.
From Corelib Require Import PrimInt63 Uint63Axioms PrimFloat.
From stdpp Require Import base option list gmap strings pretty.

Local Open Scope string_scope.
Local Open Scope list_scope.

(** ** Data structures *)

(** [enum class Kind : char]: the first eight enumerators take the values
    0..7, the others the character written next to them. *)
Module Kind.
Inductive t : Set :=
| Include
| Begin | Cat | Cons | Car | Cdr | List | Let
| Define | Lambda | Number | Name | Expr | Proc | False | True | Cond | Else | End | Empty
| Quote | Lp | Rp | And | Not | Or
| Mul | Add | Sub | Div | Less | Equal | Greater
| Comment.

#[global] Instance eq_dec : EqDecision t.
Proof. solve_decision. Defined.

Definition eqb (a b : t) : bool := bool_decide (a = b).

(** [static_cast<char>(kind)] *)
Definition to_char (k : t) : ascii :=
  match k with
  | Include => "000" | Begin => "001" | Cat => "002" | Cons => "003"
  | Car => "004" | Cdr => "005" | List => "006" | Let => "007"
  | Define => "d" | Lambda => "l" | Number => "#" | Name => "n" | Expr => "e"
  | Proc => "p" | Kind.False => "f" | Kind.True => "t" | Cond => "c" | Else => ","
  | End => "." | Empty => " "
  | Quote => "'" | Lp => "(" | Rp => ")" | And => "&" | Not => "!" | Or => "|"
  | Mul => "*" | Add => "+" | Sub => "-" | Div => "/" | Less => "<"
  | Equal => "=" | Greater => ">"
  | Comment => ";"
  end%char.

(** The characters the lexer turns into a kind with
    [static_cast<Kind>(c)]: the first group of [case] labels of
    [Cell_stream::get]. *)
Definition of_operator_char (c : ascii) : option t :=
  match c with
  | "!" => Some Not | "&" => Some And | "'" => Some Quote
  | "(" => Some Lp | ")" => Some Rp | "*" => Some Mul | "+" => Some Add
  | "-" => Some Sub | ";" => Some Comment | "/" => Some Div
  | "<" => Some Less | "=" => Some Equal | ">" => Some Greater
  | "|" => Some Or
  | _ => None
  end%char.
End Kind.
Abbreviation Kind := Kind.t.

(** [using Data = variant<string, double, Proc*, List>].  A [Proc*] always
    points into the vector [procs]; it is the index of the element. *)
Inductive Data (C : Type) : Type :=
| DStr (s : string)
| DNum (d : float)
| DProc (p : nat)
| DList (l : list C).
Arguments DStr {C} s.
Arguments DNum {C} d.
Arguments DProc {C} p.
Arguments DList {C} l.

(** [struct Cell { Kind kind; Data data; }] *)
#[local] Set Warnings "-register-all".
Inductive Cell : Type := mkCell { kind : Kind; data : Data Cell }.

Abbreviation List := (list Cell).

(** The constructors of [Cell].  A constructor that names no payload leaves
    [data] default-constructed: the first alternative of the variant, an empty
    string. *)
Definition Cell_default : Cell := mkCell Kind.End (DStr "").
Definition Cell_kind (k : Kind) : Cell := mkCell k (DStr "").
Definition Cell_double (n : float) : Cell := mkCell Kind.Number (DNum n).
Definition Cell_string (s : string) : Cell := mkCell Kind.Name (DStr s).
Definition Cell_proc (p : nat) : Cell := mkCell Kind.Proc (DProc p).
Definition Cell_list (l : List) : Cell := mkCell Kind.Expr (DList l).
Definition Cell_bool (b : bool) : Cell :=
  mkCell (if b then Kind.True else Kind.False) (DStr "").

(** [operator bool()] *)
Definition truthy (c : Cell) : bool := negb (Kind.eqb (kind c) Kind.False).

(** [map<string, Kind> keywords], entry for entry. *)
Definition keywords : gmap string Kind :=
  list_to_map
    [ ("define", Kind.Define); ("lambda", Kind.Lambda); ("cond", Kind.Cond);
      ("cons", Kind.Cons); ("car", Kind.Car); ("cdr", Kind.Cdr);
      ("list", Kind.List); ("else", Kind.Else);
      ("empty?", Kind.Empty); ("and", Kind.And); ("or", Kind.Or);
      ("not", Kind.Or); ("cat", Kind.Cat);
      ("include", Kind.Include); ("begin", Kind.Begin); ("let", Kind.Let) ].

(** An [Env*] is the address of the global [e0], of an element of the vector
    [envs], or of an [Env localenv] that a [let] holds in automatic storage. *)
Inductive EnvPtr : Set :=
| e0_ptr
| envs_ptr (i : nat)
| local_ptr (i : nat).

#[global] Instance EnvPtr_eq_dec : EqDecision EnvPtr.
Proof. solve_decision. Defined.

(** [struct Proc { List params; List body; Env* env; }] *)
Record Proc : Type := mkProc { params : List; body : List; proc_env : EnvPtr }.

(** [class Env { map<string, Cell> env; Env* outer; }] *)
Record Env : Type := mkEnv { env_map : gmap string Cell; outer : option EnvPtr }.

(** [class Cell_stream]: the active input, the inputs it was switched away
    from, and the most recent token.  An input stream is the characters still
    to be read; a stream that failed to open reads as an empty one.  The
    [owns] list only serves [reset], which the evaluator never calls. *)
Record Cell_stream : Type :=
  mkStream { ip : list ascii; old : list (list ascii); ct : Cell }.

(** What the vectors [envs] and [procs] are besides their elements: the
    [capacity()] of each, and for each the number of elements it held when it
    last moved them to a new block of storage.  An [Env*] or [Proc*] is the
    index of the element it was taken from, by [&envs.back()] or
    [&procs.back()] right after the element was pushed; the addresses taken
    before the last move, those of the elements below the mark, point into
    the block that was given back. *)
Record Storage : Set := mkStorage {
  envs_capacity : N;
  envs_moved : nat;
  procs_capacity : N;
  procs_moved : nat
}.

(** The interpreter's globals, the text written so far, the files [include]
    can open, the [let] frames with a flag telling whether the frame is still
    in scope, and the storage of the two vectors. *)
Record State : Type := mkState {
  e0 : Env;
  envs : list Env;
  procs : list Proc;
  locals : list (Env * bool);
  cs : Cell_stream;
  cout : string;
  files : gmap string (list ascii);
  inited : bool;
  storage : Storage
}.

(** ** Results *)

(** What a call can end with besides a value.  [runtime_error] and [bad_get]
    are the two exceptions the code throws ([boost::get] on the wrong
    alternative throws the latter); [undefined] marks an execution the C++
    standard gives no meaning to; [out_of_fuel] is the embedding's own. *)
Inductive exn : Type :=
| runtime_error (what : string)
| bad_get
| undefined (why : string)
| out_of_fuel.

Inductive Res (A : Type) : Type :=
| Ok (a : A)
| Err (e : exn).
Arguments Ok {A} a.
Arguments Err {A} e.

Definition M (A : Type) : Type := State -> Res A * State.

Definition ret {A} (a : A) : M A := fun st => (Ok a, st).
Definition throw {A} (e : exn) : M A := fun st => (Err e, st).
Definition bindM {A B} (m : M A) (k : A -> M B) : M B :=
  fun st => match m st with
            | (Ok a, st') => k a st'
            | (Err e, st') => (Err e, st')
            end.

Declare Scope M_scope.
Delimit Scope M_scope with M.
Bind Scope M_scope with M.
Notation "x ← y ; z" := (bindM y (fun x => z))
  (at level 20, y at level 100, z at level 200, only parsing) : M_scope.
Notation "x ;; z" := (bindM x (fun _ => z))
  (at level 100, z at level 200, only parsing, right associativity) : M_scope.
Local Open Scope M_scope.

Definition get_state : M State := fun st => (Ok st, st).
Definition modify (f : State -> State) : M unit := fun st => (Ok tt, f st).

(** A value of an optional where the C++ text indexes or dereferences without
    a check. *)
Definition or_undefined {A} (why : string) (o : option A) : M A :=
  match o with Some a => ret a | None => throw (undefined why) end.

(** [boost::get<T>(data)] *)
Definition get_string (d : Data Cell) : M string :=
  match d with DStr s => ret s | _ => throw bad_get end.
Definition get_double (d : Data Cell) : M float :=
  match d with DNum n => ret n | _ => throw bad_get end.
Definition get_Proc (d : Data Cell) : M nat :=
  match d with DProc p => ret p | _ => throw bad_get end.
Definition get_List (d : Data Cell) : M List :=
  match d with DList l => ret l | _ => throw bad_get end.

(** Assignments to the globals. *)
Definition set_e0 (e : Env) (st : State) : State :=
  mkState e (envs st) (procs st) (locals st) (cs st) (cout st) (files st) (inited st)
          (storage st).
Definition set_envs (l : list Env) (st : State) : State :=
  mkState (e0 st) l (procs st) (locals st) (cs st) (cout st) (files st) (inited st)
          (storage st).
Definition set_procs (l : list Proc) (st : State) : State :=
  mkState (e0 st) (envs st) l (locals st) (cs st) (cout st) (files st) (inited st)
          (storage st).
Definition set_locals (l : list (Env * bool)) (st : State) : State :=
  mkState (e0 st) (envs st) (procs st) l (cs st) (cout st) (files st) (inited st)
          (storage st).
Definition set_cs (c : Cell_stream) (st : State) : State :=
  mkState (e0 st) (envs st) (procs st) (locals st) c (cout st) (files st) (inited st)
          (storage st).
Definition set_cout (o : string) (st : State) : State :=
  mkState (e0 st) (envs st) (procs st) (locals st) (cs st) o (files st) (inited st)
          (storage st).
Definition set_inited (b : bool) (st : State) : State :=
  mkState (e0 st) (envs st) (procs st) (locals st) (cs st) (cout st) (files st) b
          (storage st).
Definition set_storage (s : Storage) (st : State) : State :=
  mkState (e0 st) (envs st) (procs st) (locals st) (cs st) (cout st) (files st)
          (inited st) s.

(** [cout << s] *)
Definition put (s : string) : M unit := modify (fun st => set_cout (cout st +:+ s) st).

Definition endl : string := String "010" "".
Definition char_string (c : ascii) : string := String c "".

(** ** The two vectors

    [push_back] on a vector that holds [size] elements in storage for
    [capacity]: while there is room nothing moves; a full vector takes a
    larger block, twice the size as libstdc++ and libc++ choose it, and moves
    its elements there, so that [size] becomes the mark.  The result is the
    capacity and the mark afterwards. *)
Definition grown (size : nat) (capacity : N) (moved : nat) : N * nat :=
  if (N.of_nat size <? capacity)%N then (capacity, moved)
  else (N.max (2 * capacity) (N.of_nat (S size)), size).

(** [reserve(n)]: a vector with less capacity than [n] takes a block for [n]
    elements and moves what it holds. *)
Definition reserved (n : N) (size : nat) (capacity : N) (moved : nat) : N * nat :=
  if (capacity <? n)%N then (n, size) else (capacity, moved).

(** [envs.push_back(e)] and [envs.reserve(n)] *)
Definition envs_push_back (e : Env) : M unit :=
  modify (fun st =>
    let s := storage st in
    let (c, m) := grown (length (envs st)) (envs_capacity s) (envs_moved s) in
    set_storage (mkStorage c m (procs_capacity s) (procs_moved s))
      (set_envs (envs st ++ [e]) st)).

Definition envs_reserve (n : N) : M unit :=
  modify (fun st =>
    let s := storage st in
    let (c, m) := reserved n (length (envs st)) (envs_capacity s) (envs_moved s) in
    set_storage (mkStorage c m (procs_capacity s) (procs_moved s)) st).

(** [procs.push_back(pr)] and [procs.reserve(n)] *)
Definition procs_push_back (pr : Proc) : M unit :=
  modify (fun st =>
    let s := storage st in
    let (c, m) := grown (length (procs st)) (procs_capacity s) (procs_moved s) in
    set_storage (mkStorage (envs_capacity s) (envs_moved s) c m)
      (set_procs (procs st ++ [pr]) st)).

Definition procs_reserve (n : N) : M unit :=
  modify (fun st =>
    let s := storage st in
    let (c, m) := reserved n (length (procs st)) (procs_capacity s) (procs_moved s) in
    set_storage (mkStorage (envs_capacity s) (envs_moved s) c m) st).

(** [constexpr int max_capacity = 10000;] *)
Definition max_capacity : N := 10000.

(** ** The interpreter

    Two operations belong to the host's stream library and not to the
    program: how [ostream << double] writes a number and how
    [istream >> double] reads one.  They are parameters of the development.
    [read_double] is given the characters still to be read, first digit
    included, and returns the number stored and the characters that remain
    readable afterwards. *)
Section Interpreter.

Variable show_double : float -> string.
Variable read_double : list ascii -> float * list ascii.

(** *** Printer *)

(** The character [print] and [print_visitor] write in front of a cell that is
    neither a number, a name nor an expression. *)
Definition kind_prefix (c : Cell) : string :=
  match kind c with
  | Kind.Number | Kind.Name | Kind.Expr => ""
  | k => char_string (Kind.to_char k)
  end.

(** [boost::apply_visitor(print_visitor(end), c.data)] *)
Fixpoint print_visitor (e : string) (c : Cell) {struct c} : string :=
  match c with
  | mkCell _ d =>
      match d with
      | DStr str => str +:+ e
      | DNum num => show_double num +:+ e
      | DProc _ => "proc" +:+ e
      | DList lst =>
          "(" +:+
          match lst with
          | [] => ""
          | p :: _ =>
              kind_prefix p +:+
              (fix elements (l : list Cell) : string :=
                 match l with
                 | [] => ""
                 | [x] => print_visitor "" x
                 | x :: r => print_visitor " " x +:+ elements r
                 end) lst
          end +:+ ")" +:+ e
      end
  end.

(** The loop of [print_visitor]'s case for a list, named for the statements
    about what is printed: every element but the last with a space after
    it. *)
Fixpoint print_elements (l : List) : string :=
  match l with
  | [] => ""
  | [x] => print_visitor "" x
  | x :: r => print_visitor " " x +:+ print_elements r
  end.

(** The text [print(cell)] writes. *)
Definition print_string (c : Cell) : string :=
  kind_prefix c +:+ print_visitor " " c.

Definition print (c : Cell) : M unit := put (print_string c).

(** [for (auto& cell : l) print(cell);] *)
Definition print_all (l : List) : M unit :=
  put (fold_right (fun c s => print_string c +:+ s) "" l).

(** *** Lexer *)

Definition isspace (c : ascii) : bool :=
  match c with
  | " " | "009" | "010" | "011" | "012" | "013" => true
  | _ => false
  end%char.

Definition isdigit (c : ascii) : bool :=
  match c with
  | "0" | "1" | "2" | "3" | "4" | "5" | "6" | "7" | "8" | "9" => true
  | _ => false
  end%char.

(** The letters a keyword can start with: the third group of [case] labels. *)
Definition keyword_start (c : ascii) : bool :=
  match c with
  | "a" | "c" | "d" | "e" | "i" | "l" | "n" | "o" => true
  | _ => false
  end%char.

(** [do { if (!ip->get(c)) return ...; } while (isspace(c));] *)
Fixpoint skip_space (s : list ascii) : option (ascii * list ascii) :=
  match s with
  | [] => None
  | c :: r => if isspace c then skip_space r else Some (c, r)
  end.

(** [*ip >> temp] for a [string]: the characters up to the next white space. *)
Fixpoint read_word (s : list ascii) : string * list ascii :=
  match s with
  | [] => ("", [])
  | c :: r =>
      if isspace c then ("", s)
      else let (w, rest) := read_word r in (String c w, rest)
  end.

(** [while (temp.back() == ')') { temp.pop_back(); ip->putback(')'); }]: the
    word without its closing parentheses, and how many were put back. *)
Fixpoint strip_rp (temp : string) : string * nat :=
  match temp with
  | "" => ("", 0)
  | String c r =>
      let (r', n) := strip_rp r in
      match r' with
      | "" => if Ascii.eqb c ")" then ("", S n) else (String c "", n)
      | _ => (String c r', n)
      end
  end.

Definition set_ip (s : list ascii) (c : Cell_stream) : Cell_stream :=
  mkStream s (old c) (ct c).
Definition set_ct (t : Cell) (c : Cell_stream) : Cell_stream :=
  mkStream (ip c) (old c) t.

(** [return ct = t], the stream having moved to [s] *)
Definition token (s : list ascii) (t : Cell) : M Cell :=
  modify (fun st => set_cs (set_ct t (set_ip s (cs st))) st);; ret t.

(** [Cell Cell_stream::get()] *)
Definition get : M Cell :=
  st ← get_state;
  match skip_space (ip (cs st)) with
  | None => token [] (Cell_kind Kind.End)
  | Some (c, rest) =>
      match Kind.of_operator_char c with
      | Some k => token rest (Cell_kind k)
      | None =>
          if isdigit c then
            let (temp, rest') := read_double (c :: rest) in
            token rest' (Cell_double temp)
          else
            let (word, rest') := read_word (c :: rest) in
            let (temp, n) := strip_rp word in
            match temp with
            | "" => throw (undefined "back() of an empty string")
            | _ =>
                let rest'' := (replicate n ")"%char ++ rest')%list in
                if keyword_start c then
                  match keywords !! temp with
                  | Some k => token rest'' (mkCell k (data (ct (cs st))))
                  | None => token rest'' (mkCell Kind.Name (DStr temp))
                  end
                else token rest'' (mkCell Kind.Name (DStr temp))
            end
      end
  end.

(** [cs.current()] *)
Definition current : M Cell := st ← get_state; ret (ct (cs st)).

(** [ip->ignore(n, '\n')] *)
Fixpoint ignore (n : nat) (s : list ascii) : list ascii :=
  match n, s with
  | 0, _ => s
  | _, [] => []
  | S n, c :: r => if Ascii.eqb c "010" then r else ignore n r
  end.

(** [void Cell_stream::ignoreln()] *)
#[local] Set Warnings "-abstract-large-number".
Definition ignoreln : M unit :=
  put ("Ignoring line" +:+ endl);;
  modify (fun st => set_cs (set_ip (ignore 9001 (ip (cs st))) (cs st)) st).

(** [void Cell_stream::set_input]: the active input is put aside and the new
    one read from. *)
Definition set_input (s : list ascii) : M unit :=
  modify (fun st =>
    set_cs (mkStream s (old (cs st) ++ [ip (cs st)]) (ct (cs st))) st).

(** [new ifstream{path}] *)
Definition open_file (path : string) : M (list ascii) :=
  st ← get_state; ret (default [] (files st !! path)).

(** *** Parser *)

(** [while (getfirst && cs.get().kind == Kind::Comment) { ... }] *)
Fixpoint eat_first (fuel : nat) : M unit :=
  match fuel with
  | 0 => throw out_of_fuel
  | S fuel =>
      t ← get;
      match kind t with
      | Kind.Comment =>
          put ("Comment at start of line" +:+ endl);; ignoreln;; eat_first fuel
      | _ => ret tt
      end
  end.

(** The [while (true)] loop of [expr], [res] being what it has collected. *)
Fixpoint expr_loop (fuel : nat) (res : List) : M List :=
  match fuel with
  | 0 => throw out_of_fuel
  | S fuel =>
      t ← get;
      match kind t with
      | Kind.Lp =>
          sub ← expr_loop fuel [];
          c ← current;
          match kind c with
          | Kind.Rp => expr_loop fuel (res ++ [Cell_list sub])
          | _ => throw (runtime_error "')' expected")
          end
      | Kind.End | Kind.Rp => ret res
      | Kind.Comment =>
          put ("Comment encountered" +:+ endl);; ignoreln;; expr_loop fuel res
      | _ => expr_loop fuel (res ++ [t])
      end
  end.

(** [List expr(bool getfirst)] *)
Definition expr (fuel : nat) (getfirst : bool) : M List :=
  (if getfirst then eat_first fuel else ret tt);; expr_loop fuel [].

(** *** Environments *)

(** [*p] for an [Env* p].  An element of [envs] can only be used through an
    address taken since the vector last moved, a [let] frame only while the
    [let] that declared it is running. *)
Definition deref (p : EnvPtr) : M Env :=
  st ← get_state;
  match p with
  | e0_ptr => ret (e0 st)
  | envs_ptr i =>
      if (i <? envs_moved (storage st))%nat
      then throw (undefined "use of an element of envs after the vector moved")
      else or_undefined "no such element of envs" (envs st !! i)
  | local_ptr i =>
      match locals st !! i with
      | Some (e, true) => ret e
      | _ => throw (undefined "use of a let frame after its lifetime")
      end
  end.

(** [*p = e] *)
Definition store (p : EnvPtr) (e : Env) : M unit :=
  match p with
  | e0_ptr => modify (set_e0 e)
  | envs_ptr i => modify (fun st => set_envs (<[i := e]> (envs st)) st)
  | local_ptr i => modify (fun st => set_locals (<[i := (e, true)]> (locals st)) st)
  end.

(** [Env_map& Env::findframe(string n)], called on [*p]; the result is the
    frame that holds [n].  [depth] bounds the length of the chain of [outer]
    links. *)
Fixpoint findframe (depth : nat) (p : EnvPtr) (n : string) : M EnvPtr :=
  match depth with
  | 0 => throw out_of_fuel
  | S depth =>
      e ← deref p;
      match env_map e !! n with
      | Some _ => ret p
      | None =>
          match outer e with
          | Some o => findframe depth o n
          | None => throw (runtime_error "Unbound variable")
          end
      end
  end.

(** [Cell& Env::lookup(string n)], called on [*p].  A chain of [outer] links
    visits no frame twice, so it is no longer than the number of frames. *)
Definition lookup (p : EnvPtr) (n : string) : M Cell :=
  st ← get_state;
  f ← findframe (S (length (envs st) + length (locals st))) p n;
  e ← deref f;
  or_undefined "no such key" (env_map e !! n).

(** [p->operator[](n) = v]: the entry of the frame itself, made if missing,
    is assigned to. *)
Definition assign (p : EnvPtr) (n : string) (v : Cell) : M unit :=
  e ← deref p;
  store p (mkEnv (<[n := v]> (env_map e)) (outer e)).

(** [Env localenv {o};] and the block it is declared in: the frame lives
    until the block is left, by a return or by an exception. *)
Definition scoped_local {A} (o : EnvPtr) (block : EnvPtr -> M A) : M A :=
  fun st =>
    let i := length (locals st) in
    let st1 := set_locals (locals st ++ [(mkEnv ∅ (Some o), true)]) st in
    let (r, st2) := block (local_ptr i) st1 in
    (r, set_locals (alter (fun f => (fst f, false)) i (locals st2)) st2).

(** [procs.push_back({params, body, env}); ... &procs.back()] *)
Definition new_proc (pr : Proc) : M Cell :=
  st ← get_state;
  procs_push_back pr;;
  ret (Cell_proc (length (procs st))).

(** [*p] for a [Proc* p] *)
Definition deref_Proc (i : nat) : M Proc :=
  st ← get_state;
  if (i <? procs_moved (storage st))%nat
  then throw (undefined "use of an element of procs after the vector moved")
  else or_undefined "no such element of procs" (procs st !! i).

(** The loop of [Parser::bind]. *)
Fixpoint bind_loop (ps args : List) (newenv : Env) : M Env :=
  match ps, args with
  | p :: ps, q :: args =>
      put "Binding ";;
      name ← get_string (data p);
      put (name +:+ " to ");; print q;; put endl;;
      bind_loop ps args (mkEnv (<[name := q]> (env_map newenv)) (outer newenv))
  | _, _ => ret newenv
  end.

(** [Env* Parser::bind(const List& params, const List& args, Env* env)] *)
Definition bind (ps args : List) (env : EnvPtr) : M EnvPtr :=
  if negb (length ps =? length args)%nat then
    throw (runtime_error "# of args provided and expected mismatch")
  else
    newenv ← bind_loop ps args (mkEnv ∅ (Some env));
    st ← get_state;
    envs_push_back newenv;;
    ret (envs_ptr (length (envs st))).

(** [Env(const List& params, const List& args, Env* o)], the constructor
    that no caller uses.  Its loop moves [a] twice in each turn: once in
    [*a++], once in the increment [++p, ++a] of the [for] statement. *)
Fixpoint Env_bindings (ps args : List) (m : gmap string Cell)
  : M (gmap string Cell) :=
  match ps with
  | [] => ret m
  | p :: ps =>
      match args with
      | [] => throw (undefined "dereference of end()")
      | v :: args =>
          name ← get_string (data p);
          match args with
          | [] => throw (undefined "increment of end()")
          | _ :: args => Env_bindings ps args (<[name := v]> m)
          end
      end
  end.

Definition Env_of (ps args : List) (o : EnvPtr) : M Env :=
  m ← Env_bindings ps args ∅; ret (mkEnv m (Some o)).

(** *** Primitives *)

(** [less_visitor] and [equal_visitor] each hold a string, a double, a list
    and a procedure pointer, of which the constructor sets one.  The program
    only ever constructs them from a string or from a double; the list is then
    empty, the string empty unless it is the one given, and the double and the
    pointer hold no value unless given. *)
Inductive visitor : Type :=
| visitor_string (s : string)
| visitor_double (d : float).

(** [List{} < l] and [List{} == l] *)
Definition empty_less (l : List) : bool := match l with [] => false | _ => true end.
Definition empty_equal (l : List) : bool := match l with [] => true | _ => false end.

(** [boost::apply_visitor(less_visitor(v), d)] *)
Definition less_visitor (v : visitor) (d : Data Cell) : M bool :=
  match d with
  | DStr s =>
      match v with
      | visitor_string str => ret (String.ltb str s)
      | visitor_double _ => ret (String.ltb "" s)
      end
  | DNum n =>
      match v with
      | visitor_double num => ret (PrimFloat.ltb num n)
      | visitor_string _ => throw (undefined "num has no value")
      end
  | DProc _ => throw (undefined "proc has no value")
  | DList l => ret (empty_less l)
  end.

(** [boost::apply_visitor(equal_visitor(v), d)] *)
Definition equal_visitor (v : visitor) (d : Data Cell) : M bool :=
  match d with
  | DStr s =>
      match v with
      | visitor_string str => ret (String.eqb str s)
      | visitor_double _ => ret (String.eqb "" s)
      end
  | DNum n =>
      match v with
      | visitor_double num => ret (PrimFloat.eqb num n)
      | visitor_string _ => throw (undefined "num has no value")
      end
  | DProc _ => throw (undefined "proc has no value")
  | DList l => ret (empty_equal l)
  end.

(** [args[i]] *)
Definition at_index (args : List) (i : nat) : M Cell :=
  or_undefined "index past the end of a vector" (args !! i).

(** The loops of the arithmetic primitives and of [cat]. *)
Fixpoint fold_double (op : float -> float -> float) (res : float) (l : List)
  : M float :=
  match l with
  | [] => ret res
  | p :: l => n ← get_double (data p); fold_double op (op res n) l
  end.

Fixpoint fold_string (res : string) (l : List) : M string :=
  match l with
  | [] => ret res
  | p :: l => s ← get_string (data p); fold_string (res +:+ s) l
  end.

Definition arith (op : float -> float -> float) (args : List) : M Cell :=
  first ← at_index args 0;
  res ← get_double (data first);
  res ← fold_double op res (tail args);
  ret (Cell_double res).

(** [Cell apply_prim(const Cell& prim, const List& args)] *)
Definition apply_prim (prim : Cell) (args : List) : M Cell :=
  put ("inside apply prim: " +:+ char_string (Kind.to_char (kind prim)) +:+ endl);;
  put ("------------ args (apply_prim) -------------" +:+ endl);;
  print_all args;;
  put endl;;
  put ("----------- endargs (apply_prim) -----------" +:+ endl);;
  match kind prim with
  | Kind.Add => arith PrimFloat.add args
  | Kind.Cat =>
      first ← at_index args 0;
      res ← get_string (data first);
      res ← fold_string res (tail args);
      ret (Cell_string res)
  | Kind.Sub => arith PrimFloat.sub args
  | Kind.Mul => arith PrimFloat.mul args
  | Kind.Div => arith PrimFloat.div args
  | Kind.Less =>
      a0 ← at_index args 0;
      a1 ← at_index args 1;
      if Kind.eqb (kind a0) Kind.Number then
        d ← get_double (data a0);
        b ← less_visitor (visitor_double d) (data a1);
        ret (Cell_bool b)
      else
        s ← get_string (data a0);
        b ← less_visitor (visitor_string s) (data a1);
        ret (Cell_bool b)
  | Kind.Equal =>
      a0 ← at_index args 0;
      a1 ← at_index args 1;
      if Kind.eqb (kind a0) Kind.Number then
        d ← get_double (data a0);
        b ← equal_visitor (visitor_double d) (data a1);
        ret (Cell_bool b)
      else
        s ← get_string (data a0);
        b ← equal_visitor (visitor_string s) (data a1);
        ret (Cell_bool b)
  | Kind.Empty =>
      a0 ← at_index args 0;
      if Kind.eqb (kind a0) Kind.Expr then
        put "List size in checking if empty: ";;
        l ← get_List (data a0);
        put (pretty (length l) +:+ endl);;
        ret (Cell_bool (length l =? 0)%nat)
      else ret (Cell_kind Kind.False)
  | Kind.Greater =>
      a0 ← at_index args 0;
      a1 ← at_index args 1;
      if Kind.eqb (kind a1) Kind.Number then
        d ← get_double (data a1);
        b ← less_visitor (visitor_double d) (data a0);
        ret (Cell_bool b)
      else
        s ← get_string (data a1);
        b ← less_visitor (visitor_string s) (data a0);
        ret (Cell_bool b)
  | Kind.And =>
      ret (default (Cell_kind Kind.True)
             (find (fun clause => Kind.eqb (kind clause) Kind.False) args))
  | Kind.Or =>
      ret (default (Cell_kind Kind.False)
             (find (fun clause => Kind.eqb (kind clause) Kind.True) args))
  | Kind.Not =>
      a0 ← at_index args 0;
      ret (Cell_kind (if Kind.eqb (kind a0) Kind.False then Kind.True else Kind.False))
  | Kind.List | Kind.Cons => ret (Cell_list args)
  | Kind.Car =>
      a0 ← at_index args 0;
      if negb (Kind.eqb (kind a0) Kind.Expr) then ret a0
      else
        l ← get_List (data a0);
        at_index l 0
  | Kind.Cdr =>
      a0 ← at_index args 0;
      if negb (Kind.eqb (kind a0) Kind.Expr) then ret (Cell_list [])
      else
        lst ← get_List (data a0);
        if (length lst =? 1)%nat then ret (Cell_list [])
        else if (length lst =? 2)%nat then at_index lst 1
        else
          match lst with
          | [] => throw (undefined "range from begin() + 1 to end() of an empty vector")
          | _ :: t => ret (Cell_list t)
          end
  | _ => throw (runtime_error "Mismatoh in apply_prim")
  end.

(** *** Evaluator

    [eval], [evlist] and [apply] call one another, and [apply] runs a body
    taken from the table of procedures, so the three recurse on a bound
    [fuel] on the depth of calls and on the number of turns of the loop of
    [evlist].  The loops that walk one expression are functions of their own,
    given the evaluator to call. *)

(** How the loop over the clauses of a [cond] ends: in an [else] clause, in
    a clause whose predicate held ([rest] are the clauses after it), or at the
    end of the expression. *)
Inductive cond_exit : Type :=
| cond_else (v : Cell)
| cond_taken (v : Cell) (rest : List)
| cond_end.

(** [while (++p != expr.end()) { ... }] of the [Kind::Cond] case, [p] being
    the clauses not yet visited. *)
Fixpoint cond_loop (ev : List -> M Cell) (p : List) : M cond_exit :=
  match p with
  | [] => ret cond_end
  | c :: rest =>
      clause ← get_List (data c);
      c0 ← at_index clause 0;
      if Kind.eqb (kind c0) Kind.Else then
        match rest with
        | [] => c1 ← at_index clause 1; v ← ev [c1]; ret (cond_else v)
        | _ => throw (runtime_error "Else clause not at end of condition")
        end
      else
        t ← ev [c0];
        if truthy t then c1 ← at_index clause 1; v ← ev [c1]; ret (cond_taken v rest)
        else cond_loop ev rest
  end.

(** [for (auto& pair : localvars) { ... }] of the [Kind::Let] case: each
    value is computed by [ev] (in the enclosing environment) and assigned in
    the new frame. *)
Fixpoint let_loop (ev : List -> M Cell) (localenv : EnvPtr) (localvars : List)
  : M unit :=
  match localvars with
  | [] => ret tt
  | binding :: localvars =>
      l ← get_List (data binding);
      c0 ← at_index l 0;
      name ← get_string (data c0);
      put ("Name: " +:+ name);;
      c1 ← at_index l 1;
      val ← ev [c1];
      put "  Value: ";; print val;; put endl;;
      assign localenv name val;;
      let_loop ev localenv localvars
  end.

(** [while (++p != expr.end()) { ... }] of the [Kind::Name] case: the
    arguments that are numbers, quoted cells or names are taken as they come,
    and [evlist] gets what follows the first cell of another kind. *)
Fixpoint collect_args (evl : List -> M List) (env : EnvPtr) (p args : List)
  : M List :=
  match p with
  | [] => ret args
  | c :: rest =>
      match kind c with
      | Kind.Number => collect_args evl env rest (args ++ [c])
      | Kind.Quote =>
          match rest with
          | [] => throw (undefined "dereference of end()")
          | q :: rest' => collect_args evl env rest' (args ++ [q])
          end
      | Kind.Name =>
          n ← get_string (data c);
          v ← lookup env n;
          collect_args evl env rest (args ++ [v])
      | _ => addargs ← evl p; ret (args ++ addargs)
      end
  end.

(** [get<string>(++p)] of the [Kind::Include] case, and
    [cs.set_input(new ifstream{path})]. *)
Definition include_path (rest : List) : M string :=
  c ← or_undefined "dereference of end()" (rest !! 0);
  get_string (data c).

Definition include (path : string) : M unit :=
  s ← open_file path;
  set_input s.

(** The part of the [Kind::Define] case the two evaluators share: the value
    is computed, then the entry of the current frame assigned. *)
Definition define (ev : List -> M Cell) (env : EnvPtr) (rest : List) : M Cell :=
  match rest with
  | np :: ((body_cell :: _) as operand) =>
      match kind np with
      | Kind.Name =>
          v ← ev operand;
          name ← get_string (data np);
          assign env name v;;
          ret v
      | Kind.Expr =>
          declaration ← get_List (data np);
          first ← or_undefined "dereference of begin() of an empty vector"
                    (declaration !! 0);
          name ← get_string (data first);
          body ← get_List (data body_cell);
          f ← new_proc (mkProc (tail declaration) body env);
          assign env name f;;
          ret f
      | _ => throw (runtime_error "Unfamiliar form to define")
      end
  | _ => throw (runtime_error "Malformed define expression")
  end.

(** The [Kind::Lambda] case. *)
Definition lambda (env : EnvPtr) (rest : List) : M Cell :=
  match rest with
  | params_cell :: body_cell :: _ =>
      ps ← get_List (data params_cell);
      body ← get_List (data body_cell);
      new_proc (mkProc ps body env)
  | _ => throw (runtime_error "Malformed lambda expression")
  end.

(** The [Kind::Let] case, [which] being the evaluator named in the trace. *)
Definition let_form (ev : List -> EnvPtr -> M Cell) (which : string)
  (env : EnvPtr) (rest : List) : M Cell :=
  match rest with
  | vars_cell :: body_cell :: _ =>
      localvars ← get_List (data vars_cell);
      put ("Creating temp env for local vars of let (" +:+ which +:+ ")" +:+ endl);;
      scoped_local env (fun localenv =>
        let_loop (fun e => ev e env) localenv localvars;;
        if Kind.eqb (kind body_cell) Kind.Expr then
          body ← get_List (data body_cell);
          ev body localenv
        else ev [body_cell] localenv)
  | _ => throw (runtime_error "Let expects a list of definitions and a body")
  end.

(** The [Kind::Begin] case: all operands but the last go to [evlist], the last
    one to [eval]. *)
Definition begin (ev : List -> M Cell) (evl : List -> M List) (rest : List)
  : M Cell :=
  match rest with
  | [] => throw (undefined "range from end() to end() - 1")
  | _ => evl (removelast rest);; ev [List.last rest Cell_default]
  end.

Definition is_primitive (k : Kind) : bool :=
  match k with
  | Kind.Add | Kind.Sub | Kind.Mul | Kind.Div | Kind.Less | Kind.Greater
  | Kind.Equal | Kind.Cat | Kind.Cons | Kind.Car | Kind.Cdr | Kind.List
  | Kind.And | Kind.Or | Kind.Not | Kind.Empty => true
  | _ => false
  end.

(** The trace around the arguments of a primitive; [tag] is empty in [eval]
    and [" (evlist)"] in [evlist]. *)
Definition trace_unevaled (tag : string) (rest : List) : M unit :=
  put ("primitive access successful" +:+ endl);;
  put ("argument length: " +:+ pretty (length rest) +:+ endl);;
  put ("------------ unevaledargs" +:+ tag +:+ " -------------" +:+ endl);;
  print_all rest;;
  put endl;;
  put ("----------- endunevaledargs" +:+ tag +:+ " -----------" +:+ endl).

Definition trace_args (tag : string) (args : List) : M unit :=
  put ("------------ args" +:+ tag +:+ " -------------" +:+ endl);;
  print_all args;;
  put endl;;
  put ("----------- endargs" +:+ tag +:+ " -----------" +:+ endl).

(** [Cell eval(const List& expr, Env* env)]: every case of the [switch]
    returns or throws in the first turn of the [for] loop, so [p] is
    [expr.begin()] when a case is entered and the message for a name that is
    not at the start of the expression is never printed. *)
Fixpoint eval (fuel : nat) (expr : List) (env : EnvPtr) {struct fuel} : M Cell :=
  match fuel with
  | 0 => throw out_of_fuel
  | S fuel =>
      print_all expr;;
      put endl;;
      match expr with
      | [] => ret Cell_default
      | p :: rest =>
          match kind p with
          | Kind.Include =>
              put "Including file: ";;
              path ← include_path rest;
              put (path +:+ endl);;
              include path;;
              ret (Cell_kind Kind.Include)
          | Kind.Number =>
              put "number encountered: ";;
              n ← get_double (data p);
              put (show_double n +:+ endl);;
              ret p
          | Kind.Quote =>
              match rest with
              | [] => throw (runtime_error "Quote expects 1 arg")
              | q :: _ => ret q
              end
          | Kind.Begin =>
              put ("Beginning sequence" +:+ endl);;
              begin (fun e => eval fuel e env) (fun e => evlist fuel e env) rest
          | Kind.Lambda => lambda env rest
          | Kind.Define => define (fun e => eval fuel e env) env rest
          | Kind.Expr =>
              l ← get_List (data p);
              res ← evlist fuel l env;
              match res with
              | [r] => ret r
              | _ => ret (Cell_list res)
              end
          | Kind.Let => let_form (eval fuel) "eval" env rest
          | Kind.Cond =>
              r ← cond_loop (fun e => eval fuel e env) rest;
              match r with
              | cond_else v | cond_taken v _ => ret v
              | cond_end =>
                  (* no [break]: control runs on into the primitives, [p]
                     being [expr.end()] *)
                  put "calling apply prim, proc: ";;
                  throw (undefined "dereference of end()")
              end
          | Kind.Name =>
              name ← get_string (data p);
              x ← lookup env name;
              if negb (Kind.eqb (kind x) Kind.Proc) then ret x
              else
                put ("User defined proc (eval): " +:+ name +:+ endl);;
                args ← collect_args (fun e => evlist fuel e env) env rest [];
                apply fuel x args
          | k =>
              if is_primitive k then
                put ("calling apply prim, proc: " +:+ char_string (Kind.to_char k));;
                match rest with
                | [] => throw (runtime_error "Primitives take at least one argument")
                | _ =>
                    put endl;;
                    trace_unevaled "" rest;;
                    args ← evlist fuel rest env;
                    trace_args "" args;;
                    put ("evlist successful" +:+ endl);;
                    apply_prim p args
                end
              else throw (runtime_error "Unmatched cell in eval")
          end
      end
  end

with evlist (fuel : nat) (expr : List) (env : EnvPtr) {struct fuel} : M List :=
  match fuel with
  | 0 => throw out_of_fuel
  | S fuel =>
      put ("In evlist with expr size: " +:+ pretty (length expr) +:+ endl);;
      print_all expr;;
      put endl;;
      evlist_loop fuel expr [] env
  end

(** The [for] loop of [evlist]: [p] is the part of the expression from the
    iterator on, [res] the results pushed so far. *)
with evlist_loop (fuel : nat) (p res : List) (env : EnvPtr) {struct fuel} : M List :=
  match fuel with
  | 0 => throw out_of_fuel
  | S fuel =>
      match p with
      | [] => ret res
      | c :: rest =>
          match kind c with
          | Kind.Include =>
              put ("Including file" +:+ endl);;
              path ← include_path rest;
              include path;;
              ret []
          | Kind.Number => evlist_loop fuel rest (res ++ [c]) env
          | Kind.Quote =>
              match rest with
              | [] => throw (runtime_error "Quote expects 1 arg")
              | q :: rest' => evlist_loop fuel rest' (res ++ [q]) env
              end
          | Kind.Begin =>
              put ("Beginning sequence (evlist)" +:+ endl);;
              v ← begin (fun e => eval fuel e env) (fun e => evlist fuel e env) rest;
              ret (res ++ [v])
          | Kind.Lambda =>
              f ← lambda env rest;
              evlist_loop fuel (drop 2 rest) (res ++ [f]) env
          | Kind.Define =>
              v ← define (fun e => eval fuel e env) env rest;
              ret (res ++ [v])
          | Kind.Expr =>
              l ← get_List (data c);
              r ← evlist fuel l env;
              match r with
              | [r0] => evlist_loop fuel rest (res ++ [r0]) env
              | _ => evlist_loop fuel rest (res ++ [Cell_list r]) env
              end
          | Kind.Let =>
              v ← let_form (eval fuel) "evlist" env rest;
              ret (res ++ [v])
          | Kind.Cond =>
              r ← cond_loop (fun e => eval fuel e env) rest;
              match r with
              | cond_else v => ret (res ++ [v])
              | cond_taken v rest' => evlist_loop fuel rest' (res ++ [v]) env
              | cond_end =>
                  (* [break] leaves the [switch] with [p] at [expr.end()], and
                     the [for] statement increments it *)
                  throw (undefined "increment of end()")
              end
          | Kind.Name =>
              name ← get_string (data c);
              x ← lookup env name;
              if negb (Kind.eqb (kind x) Kind.Proc) then
                evlist_loop fuel rest (res ++ [x]) env
              else
                put ("User defined proc (evlist): " +:+ name +:+ endl);;
                args ← collect_args (fun e => evlist fuel e env) env rest [];
                v ← apply fuel x args;
                ret (res ++ [v])
          | k =>
              if is_primitive k then
                match rest with
                | [] => throw (runtime_error "Primitives take at least one argument")
                | _ =>
                    trace_unevaled " (evlist)" rest;;
                    args ← evlist fuel rest env;
                    trace_args " (evlist)" args;;
                    v ← apply_prim c args;
                    ret (res ++ [v])
                end
              else throw (runtime_error "Unmatched in evlist")
          end
      end
  end

(** [Cell apply(const Cell& c, const List& args)] *)
with apply (fuel : nat) (c : Cell) (args : List) {struct fuel} : M Cell :=
  match fuel with
  | 0 => throw out_of_fuel
  | S fuel =>
      put ("Inside apply with arg length: " +:+ pretty (length args) +:+ endl);;
      put ("------------ args (apply) -------------" +:+ endl);;
      print_all args;;
      put endl;;
      put ("----------- endargs (apply) -----------" +:+ endl);;
      i ← get_Proc (data c);
      proc ← deref_Proc i;
      newenv ← bind (params proc) args (proc_env proc);
      put ("Arguments bound to new environment" +:+ endl);;
      (fix bound (ps : List) : M unit :=
         match ps with
         | [] => ret tt
         | cell :: ps =>
             name ← get_string (data cell);
             put (name +:+ ": ");;
             v ← lookup newenv name;
             print v;; put endl;;
             bound ps
         end) (params proc);;
      eval fuel (body proc) newenv
  end.

(** *** The embedded entry point *)

(** [static void init_env()], and [void alloc_env()] of the interpreter's own
    file, which reads the same. *)
Definition init_env : M unit :=
  envs_reserve (max_capacity * 4);;
  procs_reserve max_capacity;;
  st ← get_state;
  envs_push_back (e0 st).

(** One top-level expression, as [start] and [expr_str] evaluate it:
    [eval(expr(true), &e0)]. *)
Definition toplevel (fuel : nat) : M Cell :=
  e ← expr fuel true;
  eval fuel e e0_ptr.

(** [ostream& operator<<(ostream& os, const Cell& c)]: the cell is printed by
    [print], which writes to [cout]; [os], here the text it holds, is returned
    as it came. *)
Definition operator_shl (os : string) (c : Cell) : M string :=
  print c;; ret os.

(** [string expr_str(string input)].  [out] is the text of the local
    [ostringstream].  The global [outstream] is declared in a header that is
    not among the sources; the function points it at [out] and uses it once,
    in [*outstream << res], which is the operator above. *)
Definition expr_str (fuel : nat) (input : string) : M string :=
  st ← get_state;
  (if inited st then ret tt else init_env;; modify (set_inited true));;
  let out := "" in
  set_input (list_ascii_of_string input);;
  res ← toplevel fuel;
  out ← operator_shl out res;
  ret out.

End Interpreter.

(** ** A host for the examples

    It reads and writes whole numbers below 2^53 only, which a double holds
    exactly; any other number is written as [?]. *)

Fixpoint read_digits (acc : Z) (s : list ascii) : Z * list ascii :=
  match s with
  | [] => (acc, [])
  | c :: r =>
      let n := nat_of_ascii c in
      if (48 <=? n)%nat && (n <=? 57)%nat
      then read_digits (10 * acc + Z.of_nat (n - 48)) r
      else (acc, s)
  end.

Definition digits_read_double (s : list ascii) : float * list ascii :=
  let (z, rest) := read_digits 0 s in (PrimFloat.of_uint63 (Uint63Axioms.of_Z z), rest).

Definition digits_show_double (d : float) : string :=
  let z := Uint63Axioms.to_Z (PrimFloat.normfr_mantissa (fst (PrimFloat.frshiftexp d))) in
  let e := (Uint63Axioms.to_Z (snd (PrimFloat.frshiftexp d)) - 2101 - 53)%Z in
  if PrimFloat.eqb d 0 then "0"
  else if PrimFloat.ltb 0 d && (-52 <=? e)%Z && (e <=? 0)%Z
          && (Z.shiftl (Z.shiftr z (- e)) (- e) =? z)%Z
  then pretty (Z.shiftr z (- e))
  else "?".

(** The globals as their initialisers leave them, [cin] being empty. *)
Definition fresh : State :=
  mkState (mkEnv ∅ None) [] [] [] (mkStream [] [] (Cell_kind Kind.End)) "" ∅ false
          (mkStorage 0 0 0 0).

(** The interpreter as [main] leaves it for [start] when the program is run
    without arguments and [cin] holds [input]: [alloc_env] has run. *)
Definition initial (input : string) : State :=
  mkState (mkEnv ∅ None) [mkEnv ∅ None] [] []
          (mkStream (list_ascii_of_string input) [] (Cell_kind Kind.End))
          "" ∅ false
          (mkStorage (max_capacity * 4) 0 max_capacity 0).

(** The interpreter once [envs] holds as many frames as [alloc_env] reserved
    room for, the copy of [e0] and the frames of calls of a procedure without
    parameters that was made at top level: the next [push_back] moves the
    vector. *)
Definition crowded : State :=
  set_envs (mkEnv ∅ None
            :: replicate (N.to_nat (max_capacity * 4 - 1)) (mkEnv ∅ (Some e0_ptr)))
           (initial "").

(** ** Notions the statements use *)

Section Running.

Variable show_double : float -> string.
Variable read_double : list ascii -> float * list ascii.

(** Running the interpreter on a text: its first top-level expression, then
    the second, then the third.  What [start] does between two expressions
    is left out: it prints the prompt and the result, and resets the stream
    only when the result is of kind [End] or the input is at its end. *)
Definition run (fuel : nat) (input : string) : Res Cell * State :=
  toplevel show_double read_double fuel (initial input).

Definition run_second (fuel : nat) (input : string) : Res Cell * State :=
  (_ ← toplevel show_double read_double fuel;
   toplevel show_double read_double fuel) (initial input).

Definition run_third (fuel : nat) (input : string) : Res Cell * State :=
  (_ ← toplevel show_double read_double fuel;
   _ ← toplevel show_double read_double fuel;
   toplevel show_double read_double fuel) (initial input).

End Running.

(** The value of a global variable. *)
Definition global (st : State) (n : string) : option Cell := env_map (e0 st) !! n.

(** No cell of the expression, at any depth, is the keyword [define]. *)
Fixpoint no_define (c : Cell) : bool :=
  match c with
  | mkCell k d =>
      negb (Kind.eqb k Kind.Define)
      && match d with
         | DList l => forallb no_define l
         | _ => true
         end
  end.

(** The parse of [(cons (car n) (cdr n))]. *)
Definition cons_car_cdr (n : string) : List :=
  [Cell_kind Kind.Cons;
   Cell_list [Cell_kind Kind.Car; Cell_string n];
   Cell_list [Cell_kind Kind.Cdr; Cell_string n]].

(** An evaluation of [expr] in the environment [env] that makes no assignment
    to the global frame, unless such assignments are allowed: the environment
    is another frame, or the expression holds no [define]. *)
Definition quiet (allow : Prop) (expr : List) (env : EnvPtr) : Prop :=
  allow \/ env <> e0_ptr \/ forallb no_define expr = true.

(** The state in which [expr_str] starts to read [input]: [init_env] has run
    if it had not before, and the text is the active input. *)
Definition entry_state (input : string) (st : State) : State :=
  snd (((if inited st then ret tt else init_env;; modify (set_inited true));;
        set_input (list_ascii_of_string input)) st).

(** [m], started in [st] whatever the output written so far, returns [a] and
    changes nothing but the output. *)
Definition returns {A} (m : M A) (st : State) (a : A) : Prop :=
  forall o, exists o', m (set_cout o st) = (Ok a, set_cout o' st).

(** Every value [m] returns satisfies [P]. *)
Definition post {A} (m : M A) (P : A -> Prop) : Prop :=
  forall st a st', m st = (Ok a, st') -> P a.

(** [m] never changes the component [f] of the state. *)
Definition keeps {A X} (f : State -> X) (m : M A) : Prop :=
  forall st, f (snd (m st)) = f st.

(** With [n] units of fuel, the four functions of the evaluator keep [f] on
    the evaluations that [quiet] describes. *)
Definition keeps_at {X} (show_double : float -> string) (f : State -> X)
  (allow : Prop) (n : nat) : Prop :=
  (forall expr env,
      quiet allow expr env -> keeps f (eval show_double n expr env))
  /\ (forall expr env,
      quiet allow expr env -> keeps f (evlist show_double n expr env))
  /\ (forall p res env,
      quiet allow p env -> keeps f (evlist_loop show_double n p res env))
  /\ (forall c args, keeps f (apply show_double n c args)).

(** The outcome of [m] does not depend on the state, and all [m] does to the
    state is to append a text to the output. *)
Definition writes_only {A} (m : M A) : Prop :=
  exists r s, forall st, m st = (r, set_cout (cout st +:+ s) st).

(** [m] never ends with a [runtime_error]. *)
Definition no_runtime_error {A} (m : M A) : Prop :=
  forall st w, fst (m st) <> Err (runtime_error w).

(** The marks of the two vectors are within them: no address is taken to
    have moved of an element that was never pushed. *)
Definition marks_within (st : State) : Prop :=
  envs_moved (storage st) <= length (envs st)
  /\ procs_moved (storage st) <= length (procs st).

(** [st'] has what [st] has and maybe more: the procedures of [st] as they
    were, no fewer call frames, and the output of [st] at the start of its
    own; and its marks are within the vectors if those of [st] are. *)
Definition extends (st st' : State) : Prop :=
  procs st `prefix_of` procs st'
  /\ length (envs st) <= length (envs st')
  /\ (exists s, cout st' = cout st +:+ s)
  /\ (marks_within st -> marks_within st').

(** Whatever [m] does, the state it leaves extends the one it started in. *)
Definition only_adds {A} (m : M A) : Prop := forall st, extends st (snd (m st)).

(** With [n] units of fuel, the four functions of the evaluator only add. *)
Definition only_adds_at (show_double : float -> string) (n : nat) : Prop :=
  (forall expr env, only_adds (eval show_double n expr env))
  /\ (forall expr env, only_adds (evlist show_double n expr env))
  /\ (forall p res env, only_adds (evlist_loop show_double n p res env))
  /\ (forall c args, only_adds (apply show_double n c args)).

(** The map a frame holds once the names have been assigned the values one
    after the other, starting from [m]. *)
Definition bindings (names : list string) (args : List) (m : gmap string Cell)
  : gmap string Cell :=
  fold_left (fun m b => <[b.1 := b.2]> m) (zip names args) m.

(** The last character of a string. *)
Fixpoint last_char (s : string) : option ascii :=
  match s with
  | "" => None
  | String c "" => Some c
  | String _ r => last_char r
  end.

(** A word the lexer reads as a name and the printer writes as it is: it is
    not empty, holds no white space, starts with no operator character and
    no digit, does not end with a closing parenthesis and is no keyword. *)
Definition plain_name (s : string) : bool :=
  match s with
  | "" => false
  | String c _ =>
      forallb (fun a => negb (isspace a)) (list_ascii_of_string s)
      && bool_decide (Kind.of_operator_char c = None)
      && negb (isdigit c)
      && bool_decide (last_char s <> Some ")"%char)
      && bool_decide (keywords !! s = None)
  end.

(** What can follow a word: the end of the input, or white space. *)
Definition word_end (rest : list ascii) : bool :=
  match rest with
  | [] => true
  | c :: _ => isspace c
  end.

(** [k] closing parentheses. *)
Definition rps (k : nat) : string := string_of_list_ascii (replicate k ")"%char).

(** A cell that is a plain name, or a list of such cells. *)
Fixpoint plain (c : Cell) : bool :=
  match c with
  | mkCell Kind.Name (DStr s) => plain_name s
  | mkCell Kind.Expr (DList l) => forallb plain l
  | _ => false
  end.

(** The number of cells of an expression, the nested ones included. *)
Fixpoint cells (c : Cell) : nat :=
  match c with
  | mkCell _ (DList l) => S (fold_right (fun x n => cells x + n) 0 l)
  | _ => 1
  end.

Definition cells_of (l : List) : nat := fold_right (fun x n => cells x + n) 0 l.

(** What [print_visitor] writes between an element of a list and the next
    one: a space, or nothing after the last element. *)
Definition gap (r : List) : string := match r with [] => "" | _ => " " end.

(** * Properties of the interpreter *)

(** ** What an evaluation leaves unchanged

    [f] is a component of the state that the output, the input, the frames
    stored in [envs], the [let] frames, the procedures and the storage of the
    two vectors do not enter;
    [allow] tells whether an assignment to the global frame leaves it
    unchanged too. *)
Section Keeps.

Context {X : Type} (f : State -> X) (allow : Prop).
Hypothesis f_envs : forall l st, f (set_envs l st) = f st.
Hypothesis f_procs : forall l st, f (set_procs l st) = f st.
Hypothesis f_locals : forall l st, f (set_locals l st) = f st.
Hypothesis f_cs : forall c st, f (set_cs c st) = f st.
Hypothesis f_cout : forall o st, f (set_cout o st) = f st.
Hypothesis f_storage : forall s st, f (set_storage s st) = f st.
Hypothesis f_e0 : allow -> forall e st, f (set_e0 e st) = f st.

Lemma keeps_ret {A} (a : A) : keeps f (ret a).
Proof. intros st. reflexivity. Qed.

Lemma keeps_throw {A} (e : exn) : keeps f (@throw A e).
Proof. intros st. reflexivity. Qed.

Lemma keeps_get_state : keeps f get_state.
Proof. intros st. reflexivity. Qed.

(** The continuation may rely on a property of the value it is given. *)
Lemma keeps_bind_post {A B} (P : A -> Prop) (m : M A) (k : A -> M B) :
  post m P ->
  keeps f m -> (forall a, P a -> keeps f (k a)) -> keeps f (bindM m k).
Proof.
  intros HP Hm Hk st. unfold bindM.
  specialize (Hm st). specialize (HP st).
  destruct (m st) as [[a | e] st']; cbn in *.
  - rewrite Hk; eauto.
  - exact Hm.
Qed.

Lemma keeps_bind {A B} (m : M A) (k : A -> M B) :
  keeps f m -> (forall a, keeps f (k a)) -> keeps f (bindM m k).
Proof.
  intros Hm Hk. apply (keeps_bind_post (fun _ => True)); auto.
  intros st a st' _. exact I.
Qed.

Lemma keeps_put s : keeps f (put s).
Proof. intros st. apply f_cout. Qed.

Lemma keeps_print sd c : keeps f (print sd c).
Proof. apply keeps_put. Qed.

Lemma keeps_print_all sd l : keeps f (print_all sd l).
Proof. apply keeps_put. Qed.

Lemma keeps_or_undefined {A} why (o : option A) : keeps f (or_undefined why o).
Proof. destruct o; [apply keeps_ret | apply keeps_throw]. Qed.

Lemma keeps_at_index args i : keeps f (at_index args i).
Proof. apply keeps_or_undefined. Qed.

Lemma keeps_get_string d : keeps f (get_string d).
Proof. destruct d; first [apply keeps_ret | apply keeps_throw]. Qed.

Lemma keeps_get_double d : keeps f (get_double d).
Proof. destruct d; first [apply keeps_ret | apply keeps_throw]. Qed.

Lemma keeps_get_Proc d : keeps f (get_Proc d).
Proof. destruct d; first [apply keeps_ret | apply keeps_throw]. Qed.

Lemma keeps_get_List d : keeps f (get_List d).
Proof. destruct d; first [apply keeps_ret | apply keeps_throw]. Qed.

Lemma keeps_modify g : (forall st, f (g st) = f st) -> keeps f (modify g).
Proof. intros H st. apply H. Qed.

Lemma keeps_deref p : keeps f (deref p).
Proof.
  intros st. unfold deref, bindM, get_state.
  destruct p as [ | i | i]; cbn -[Nat.ltb].
  - reflexivity.
  - destruct (i <? _)%nat; [reflexivity | ]. destruct (envs st !! i); reflexivity.
  - destruct (locals st !! i) as [[e [ | ]] | ]; reflexivity.
Qed.

Lemma keeps_deref_Proc i : keeps f (deref_Proc i).
Proof.
  intros st. unfold deref_Proc, bindM, get_state.
  destruct (i <? _)%nat; [reflexivity | ]. destruct (procs st !! i); reflexivity.
Qed.

Lemma keeps_envs_push_back e : keeps f (envs_push_back e).
Proof.
  apply keeps_modify. intros st. cbv beta zeta. destruct (grown _ _ _) as [c m].
  rewrite f_storage. apply f_envs.
Qed.

Lemma keeps_procs_push_back pr : keeps f (procs_push_back pr).
Proof.
  apply keeps_modify. intros st. cbv beta zeta. destruct (grown _ _ _) as [c m].
  rewrite f_storage. apply f_procs.
Qed.

Lemma keeps_store p e : allow \/ p <> e0_ptr -> keeps f (store p e).
Proof.
  intros H st. destruct p as [ | i | i]; cbn.
  - destruct H as [H | H]; [ | congruence]. apply f_e0, H.
  - apply f_envs.
  - apply f_locals.
Qed.

Lemma keeps_findframe depth p n : keeps f (findframe depth p n).
Proof.
  revert p. induction depth as [ | depth IH]; intros p; cbn [findframe].
  - apply keeps_throw.
  - apply keeps_bind; [apply keeps_deref | intros e].
    destruct (env_map e !! n); [apply keeps_ret | ].
    destruct (outer e); [apply IH | apply keeps_throw].
Qed.

Lemma keeps_lookup p n : keeps f (lookup p n).
Proof.
  unfold lookup.
  apply keeps_bind; [apply keeps_get_state | intros st].
  apply keeps_bind; [apply keeps_findframe | intros fr].
  apply keeps_bind; [apply keeps_deref | intros e].
  apply keeps_or_undefined.
Qed.

Lemma keeps_assign p n v : allow \/ p <> e0_ptr -> keeps f (assign p n v).
Proof.
  intros H. unfold assign.
  apply keeps_bind; [apply keeps_deref | intros e].
  apply keeps_store, H.
Qed.

Lemma keeps_scoped_local {A} o (block : EnvPtr -> M A) :
  (forall p, p <> e0_ptr -> keeps f (block p)) -> keeps f (scoped_local o block).
Proof.
  intros H st. unfold scoped_local.
  specialize (H (local_ptr (length (locals st))) ltac:(discriminate)).
  specialize (H (set_locals (locals st ++ [(mkEnv ∅ (Some o), true)]) st)).
  destruct (block _ _) as [r st2]. cbn in *.
  rewrite f_locals, H. apply f_locals.
Qed.

Lemma keeps_new_proc pr : keeps f (new_proc pr).
Proof.
  unfold new_proc.
  apply keeps_bind; [apply keeps_get_state | intros st].
  apply keeps_bind; [ | intros _; apply keeps_ret].
  apply keeps_procs_push_back.
Qed.

Lemma keeps_bind_loop sd ps args newenv : keeps f (bind_loop sd ps args newenv).
Proof.
  revert args newenv. induction ps as [ | p ps IH]; intros [ | q args] newenv;
    cbn [bind_loop]; try apply keeps_ret.
  apply keeps_bind; [apply keeps_put | intros _].
  apply keeps_bind; [apply keeps_get_string | intros name].
  apply keeps_bind; [apply keeps_put | intros _].
  apply keeps_bind; [apply keeps_print | intros _].
  apply keeps_bind; [apply keeps_put | intros _].
  apply IH.
Qed.

Lemma bind_result sd ps args env st p st' :
  bind sd ps args env st = (Ok p, st') -> p <> e0_ptr.
Proof.
  unfold bind. destruct (negb _); [discriminate | ].
  unfold bindM. destruct (bind_loop _ _ _ _ _) as [[newenv | e] st1]; [ | discriminate].
  cbn. intros [= <- _]. discriminate.
Qed.

Lemma post_Parser_bind sd ps args env :
  post (bind sd ps args env) (fun p => p <> e0_ptr).
Proof. intros st p st'. apply bind_result. Qed.

Lemma keeps_Parser_bind sd ps args env : keeps f (bind sd ps args env).
Proof.
  unfold bind. destruct (negb _); [apply keeps_throw | ].
  apply keeps_bind; [apply keeps_bind_loop | intros newenv].
  apply keeps_bind; [apply keeps_get_state | intros st].
  apply keeps_bind; [ | intros _; apply keeps_ret].
  apply keeps_envs_push_back.
Qed.

Lemma keeps_less_visitor v d : keeps f (less_visitor v d).
Proof. destruct d, v; first [apply keeps_ret | apply keeps_throw]. Qed.

Lemma keeps_equal_visitor v d : keeps f (equal_visitor v d).
Proof. destruct d, v; first [apply keeps_ret | apply keeps_throw]. Qed.

Lemma keeps_fold_double op res l : keeps f (fold_double op res l).
Proof.
  revert res. induction l as [ | p l IH]; intros res; cbn [fold_double].
  - apply keeps_ret.
  - apply keeps_bind; [apply keeps_get_double | intros n]. apply IH.
Qed.

Lemma keeps_fold_string res l : keeps f (fold_string res l).
Proof.
  revert res. induction l as [ | p l IH]; intros res; cbn [fold_string].
  - apply keeps_ret.
  - apply keeps_bind; [apply keeps_get_string | intros n]. apply IH.
Qed.

(** One step of a proof that a sequence of statements keeps [f]. *)
Ltac keeps_step :=
  first
    [ apply keeps_ret | apply keeps_throw | apply keeps_get_state
    | apply keeps_put | apply keeps_print | apply keeps_print_all
    | apply keeps_at_index | apply keeps_or_undefined
    | apply keeps_get_string | apply keeps_get_double
    | apply keeps_get_Proc | apply keeps_get_List
    | apply keeps_lookup | apply keeps_deref | apply keeps_new_proc
    | apply keeps_less_visitor | apply keeps_equal_visitor
    | apply keeps_fold_double | apply keeps_fold_string
    | apply keeps_Parser_bind
    | apply keeps_bind; [ | intros ?]
    | match goal with
      | |- keeps _ (match ?x with _ => _ end) => destruct x
      | |- keeps _ (if ?b then _ else _) => destruct b
      end ].

(** A goal about a [throw], recognised by its form. *)
Ltac keeps_thrown :=
  lazymatch goal with |- keeps _ (throw _) => apply keeps_throw end.

Lemma keeps_trace_unevaled sd tag rest : keeps f (trace_unevaled sd tag rest).
Proof.
  unfold trace_unevaled.
  do 5 (apply keeps_bind;
        [first [apply keeps_put | apply keeps_print_all] | intros _]).
  apply keeps_put.
Qed.

Lemma keeps_trace_args sd tag args : keeps f (trace_args sd tag args).
Proof.
  unfold trace_args.
  do 3 (apply keeps_bind;
        [first [apply keeps_put | apply keeps_print_all] | intros _]).
  apply keeps_put.
Qed.

Lemma keeps_arith op args : keeps f (arith op args).
Proof. unfold arith. repeat keeps_step. Qed.

Lemma keeps_apply_prim sd prim args : keeps f (apply_prim sd prim args).
Proof.
  unfold apply_prim.
  do 5 (apply keeps_bind; [keeps_step | intros _]).
  destruct (kind prim); try apply keeps_arith; repeat keeps_step.
Qed.

(** *** Expressions without [define] *)

Lemma no_define_kind c : no_define c = true -> kind c <> Kind.Define.
Proof.
  destruct c as [k d]. cbn. intros H ->. discriminate.
Qed.

Lemma no_define_nested c l :
  no_define c = true -> data c = DList l -> forallb no_define l = true.
Proof.
  destruct c as [k d]. cbn. intros H ->.
  apply andb_true_iff in H. apply H.
Qed.

Lemma forallb_index {A} (P : A -> bool) l i c :
  forallb P l = true -> l !! i = Some c -> P c = true.
Proof.
  revert i. induction l as [ | a l IH]; intros [ | i]; cbn; try discriminate.
  - intros H [= <-]. apply andb_true_iff in H. apply H.
  - intros H. apply IH. apply andb_true_iff in H. apply H.
Qed.

Lemma forallb_removelast {A} (P : A -> bool) l :
  forallb P l = true -> forallb P (removelast l) = true.
Proof.
  induction l as [ | a [ | b l] IH]; cbn in *; try reflexivity.
  intros H. apply andb_true_iff in H as [Ha Hb]. rewrite Ha. cbn. apply IH, Hb.
Qed.

Lemma forallb_last {A} (P : A -> bool) l d :
  forallb P l = true -> P d = true -> P (List.last l d) = true.
Proof.
  induction l as [ | a [ | b l] IH]; cbn in *; intros H Hd; try assumption.
  - apply andb_true_iff in H. apply H.
  - apply andb_true_iff in H as [Ha Hb]. apply IH; assumption.
Qed.

Lemma forallb_drop {A} (P : A -> bool) n l :
  forallb P l = true -> forallb P (drop n l) = true.
Proof.
  revert l. induction n as [ | n IH]; intros [ | a l]; cbn; try reflexivity.
  - intros H. exact H.
  - intros H. apply IH. apply andb_true_iff in H. apply H.
Qed.

Local Abbreviation quiet := (quiet allow).

Lemma quiet_any e env : allow \/ env <> e0_ptr -> quiet e env.
Proof. unfold quiet. tauto. Qed.

Lemma quiet_other e env : env <> e0_ptr -> quiet e env.
Proof. unfold quiet. tauto. Qed.

Lemma quiet_sub e e' env :
  (forallb no_define e = true -> forallb no_define e' = true) ->
  quiet e env -> quiet e' env.
Proof. unfold quiet. tauto. Qed.

Lemma quiet_tail c rest env : quiet (c :: rest) env -> quiet rest env.
Proof.
  apply quiet_sub. cbn. intros H. apply andb_true_iff in H. apply H.
Qed.

Lemma quiet_define c rest env :
  quiet (c :: rest) env -> kind c = Kind.Define -> allow \/ env <> e0_ptr.
Proof.
  intros [H | [H | H]] K; [tauto | tauto | ].
  cbn in H. apply andb_true_iff in H as [H _].
  apply no_define_kind in H. contradiction.
Qed.

Lemma quiet_nested c rest env l :
  quiet (c :: rest) env -> data c = DList l -> quiet l env.
Proof.
  intros H D. revert H. apply quiet_sub. cbn. intros H.
  apply andb_true_iff in H as [H _]. eapply no_define_nested; eassumption.
Qed.

Lemma quiet_index l env i c : quiet l env -> l !! i = Some c -> quiet [c] env.
Proof.
  intros H E. revert H. apply quiet_sub. intros H. cbn.
  rewrite (forallb_index _ _ _ _ H E). reflexivity.
Qed.

Lemma quiet_removelast l env : quiet l env -> quiet (removelast l) env.
Proof. apply quiet_sub, forallb_removelast. Qed.

Lemma quiet_last l env : quiet l env -> quiet [List.last l Cell_default] env.
Proof.
  apply quiet_sub. intros H. cbn. rewrite forallb_last; auto.
Qed.

Lemma quiet_drop n l env : quiet l env -> quiet (drop n l) env.
Proof. apply quiet_sub, forallb_drop. Qed.

(** *** Values the loops hand on *)

Lemma post_ret {A} (P : A -> Prop) a : P a -> post (ret a) P.
Proof. intros H st a' st' [= <- _]. exact H. Qed.

Lemma post_throw {A} (P : A -> Prop) e : post (throw e) P.
Proof. intros st a st'. discriminate. Qed.

Lemma post_bind {A B} (P : B -> Prop) (m : M A) (k : A -> M B) :
  (forall a, post (k a) P) -> post (bindM m k) P.
Proof.
  intros H st b st'. unfold bindM.
  destruct (m st) as [[a | e] st1]; [apply H | discriminate].
Qed.

Lemma post_get_List d : post (get_List d) (fun l => d = DList l).
Proof.
  destruct d; first [apply post_throw | apply post_ret; reflexivity].
Qed.

Lemma post_at_index l i : post (at_index l i) (fun c => l !! i = Some c).
Proof.
  unfold at_index, or_undefined.
  destruct (l !! i); [apply post_ret; reflexivity | apply post_throw].
Qed.

Lemma keeps_bind_get_List {B} d (k : List -> M B) :
  (forall l, d = DList l -> keeps f (k l)) -> keeps f (bindM (get_List d) k).
Proof.
  intros H. eapply keeps_bind_post;
    [apply post_get_List | apply keeps_get_List | exact H].
Qed.

Lemma keeps_bind_at_index {B} l i (k : Cell -> M B) :
  (forall c, l !! i = Some c -> keeps f (k c)) -> keeps f (bindM (at_index l i) k).
Proof.
  intros H. eapply keeps_bind_post;
    [apply post_at_index | apply keeps_at_index | exact H].
Qed.

(** The clauses a [cond] hands back to the loop of [evlist] are clauses of the
    expression. *)
Lemma post_cond_loop ev p env :
  quiet p env ->
  post (cond_loop ev p)
       (fun r => match r with cond_taken _ rest => quiet rest env | _ => True end).
Proof.
  induction p as [ | c rest IH]; intros Hq; cbn [cond_loop].
  - apply post_ret. exact I.
  - apply post_bind; intros clause.
    apply post_bind; intros c0.
    destruct (Kind.eqb (kind c0) Kind.Else).
    + destruct rest; [ | apply post_throw].
      apply post_bind; intros c1. apply post_bind; intros v.
      apply post_ret. exact I.
    + apply post_bind; intros t.
      destruct (truthy t).
      * apply post_bind; intros c1. apply post_bind; intros v.
        apply post_ret. eapply quiet_tail, Hq.
      * apply IH. eapply quiet_tail, Hq.
Qed.

(** *** The loops that walk one expression *)

Section Loops.

Variable env : EnvPtr.

Lemma keeps_cond_loop ev p :
  quiet p env -> (forall e, quiet e env -> keeps f (ev e)) ->
  keeps f (cond_loop ev p).
Proof.
  intros Hq Hev. induction p as [ | c rest IH]; cbn [cond_loop].
  - apply keeps_ret.
  - apply keeps_bind_get_List; intros clause D.
    pose proof (quiet_nested _ _ _ _ Hq D) as Hc.
    apply keeps_bind_at_index; intros c0 E0.
    destruct (Kind.eqb (kind c0) Kind.Else).
    + destruct rest; [ | apply keeps_throw].
      apply keeps_bind_at_index; intros c1 E1.
      apply keeps_bind; [ | intros v; apply keeps_ret].
      eapply Hev, quiet_index; eassumption.
    + apply keeps_bind; [eapply Hev, quiet_index; eassumption | intros t].
      destruct (truthy t).
      * apply keeps_bind_at_index; intros c1 E1.
        apply keeps_bind; [ | intros v; apply keeps_ret].
        eapply Hev, quiet_index; eassumption.
      * apply IH. eapply quiet_tail, Hq.
Qed.

Lemma keeps_let_loop sd ev localenv localvars :
  localenv <> e0_ptr -> quiet localvars env ->
  (forall e, quiet e env -> keeps f (ev e)) ->
  keeps f (let_loop sd ev localenv localvars).
Proof.
  intros Hl Hq Hev. induction localvars as [ | binding rest IH]; cbn [let_loop].
  - apply keeps_ret.
  - apply keeps_bind_get_List; intros l D.
    pose proof (quiet_nested _ _ _ _ Hq D) as Hc.
    apply keeps_bind_at_index; intros c0 E0.
    apply keeps_bind; [apply keeps_get_string | intros name].
    apply keeps_bind; [apply keeps_put | intros _].
    apply keeps_bind_at_index; intros c1 E1.
    apply keeps_bind; [eapply Hev, quiet_index; eassumption | intros val].
    apply keeps_bind; [apply keeps_put | intros _].
    apply keeps_bind; [apply keeps_print | intros _].
    apply keeps_bind; [apply keeps_put | intros _].
    apply keeps_bind; [apply keeps_assign; tauto | intros _].
    apply IH. eapply quiet_tail, Hq.
Qed.

Lemma keeps_collect_args evl p args :
  quiet p env -> (forall e, quiet e env -> keeps f (evl e)) ->
  keeps f (collect_args evl env p args).
Proof.
  intros Hq Hev. revert args Hq.
  induction p as [p IH] using (induction_ltof1 _ (@length Cell)).
  unfold ltof in IH. intros args Hq.
  destruct p as [ | c rest]; cbn [collect_args]; [apply keeps_ret | ].
  pose proof (quiet_tail _ _ _ Hq) as Hr.
  destruct (kind c);
    try (apply keeps_bind; [apply Hev, Hq | intros addargs; apply keeps_ret]).
  - apply IH; [cbn; lia | exact Hr].
  - apply keeps_bind; [apply keeps_get_string | intros n].
    apply keeps_bind; [apply keeps_lookup | intros v].
    apply IH; [cbn; lia | exact Hr].
  - destruct rest as [ | q rest']; [apply keeps_throw | ].
    apply IH; [cbn; lia | eapply quiet_tail, Hr].
Qed.

Lemma keeps_define ev rest :
  allow \/ env <> e0_ptr -> (forall e, keeps f (ev e)) ->
  keeps f (define ev env rest).
Proof.
  intros Ha Hev. unfold define.
  destruct rest as [ | np [ | body_cell rest]]; try apply keeps_throw.
  destruct (kind np); try apply keeps_throw.
  - apply keeps_bind; [apply Hev | intros v].
    apply keeps_bind; [apply keeps_get_string | intros name].
    apply keeps_bind; [apply keeps_assign, Ha | intros _; apply keeps_ret].
  - apply keeps_bind; [apply keeps_get_List | intros declaration].
    apply keeps_bind; [apply keeps_or_undefined | intros first].
    apply keeps_bind; [apply keeps_get_string | intros name].
    apply keeps_bind; [apply keeps_get_List | intros body].
    apply keeps_bind; [apply keeps_new_proc | intros p].
    apply keeps_bind; [apply keeps_assign, Ha | intros _; apply keeps_ret].
Qed.

Lemma keeps_lambda rest : keeps f (lambda env rest).
Proof.
  unfold lambda. destruct rest as [ | params_cell [ | body_cell rest]];
    try apply keeps_throw.
  apply keeps_bind; [apply keeps_get_List | intros ps].
  apply keeps_bind; [apply keeps_get_List | intros body].
  apply keeps_new_proc.
Qed.

Lemma keeps_let_form sd (ev : List -> EnvPtr -> M Cell) which rest :
  quiet rest env ->
  (forall e env', quiet e env' -> keeps f (ev e env')) ->
  keeps f (let_form sd ev which env rest).
Proof.
  intros Hq Hev. unfold let_form.
  destruct rest as [ | vars_cell [ | body_cell rest]]; try apply keeps_throw.
  apply keeps_bind_get_List; intros localvars D.
  apply keeps_bind; [apply keeps_put | intros _].
  apply keeps_scoped_local; intros localenv Hl.
  apply keeps_bind.
  - apply keeps_let_loop; [exact Hl | eapply quiet_nested; eassumption | ].
    intros e He. apply Hev, He.
  - intros _. destruct (Kind.eqb (kind body_cell) Kind.Expr).
    + apply keeps_bind; [apply keeps_get_List | intros body].
      apply Hev, quiet_other, Hl.
    + apply Hev, quiet_other, Hl.
Qed.

Lemma keeps_begin (ev : List -> M Cell) (evl : List -> M List) rest :
  quiet rest env ->
  (forall e, quiet e env -> keeps f (ev e)) ->
  (forall e, quiet e env -> keeps f (evl e)) ->
  keeps f (begin ev evl rest).
Proof.
  intros Hq Hev Hevl. unfold begin.
  destruct rest as [ | c rest]; [apply keeps_throw | ].
  apply keeps_bind; [apply Hevl, quiet_removelast, Hq | intros _].
  apply Hev, quiet_last, Hq.
Qed.

End Loops.

Lemma keeps_include_path rest : keeps f (include_path rest).
Proof.
  unfold include_path.
  apply keeps_bind; [apply keeps_or_undefined | intros c].
  apply keeps_get_string.
Qed.

Lemma keeps_set_input s : keeps f (set_input s).
Proof. apply keeps_modify. intros st. apply f_cs. Qed.

Lemma keeps_include path : keeps f (include path).
Proof.
  unfold include, open_file.
  apply keeps_bind; [ | intros s; apply keeps_set_input].
  apply keeps_bind; [apply keeps_get_state | intros st; apply keeps_ret].
Qed.

(** *** The evaluator *)

Section Evaluator.

Variable show_double : float -> string.

Local Abbreviation keeps_at := (keeps_at show_double f allow).

Lemma keeps_eval_step n : keeps_at n -> forall expr env,
  quiet expr env -> keeps f (eval show_double (S n) expr env).
Proof.
  intros (IHeval & IHevlist & IHloop & IHapply) expr env Hq.
  cbn [eval].
  apply keeps_bind; [apply keeps_print_all | intros _].
  apply keeps_bind; [apply keeps_put | intros _].
  destruct expr as [ | p rest]; [apply keeps_ret | ].
  pose proof (quiet_tail _ _ _ Hq) as Hr.
  destruct (kind p) eqn:K; cbn [is_primitive];
    lazymatch type of K with
    | _ = ?k =>
        let b := eval cbv in (is_primitive k) in
        lazymatch b with
        | true =>
            apply keeps_bind; [apply keeps_put | intros _];
            destruct rest as [ | a rest]; [apply keeps_throw | ];
            apply keeps_bind; [apply keeps_put | intros _];
            apply keeps_bind; [apply keeps_trace_unevaled | intros _];
            apply keeps_bind; [apply IHevlist, Hr | intros args];
            apply keeps_bind; [apply keeps_trace_args | intros _];
            apply keeps_bind; [apply keeps_put | intros _];
            apply keeps_apply_prim
        | false => idtac
        end
    end;
    try keeps_thrown.
  - (* Include *)
    apply keeps_bind; [apply keeps_put | intros _].
    apply keeps_bind; [apply keeps_include_path | intros path].
    apply keeps_bind; [apply keeps_put | intros _].
    apply keeps_bind; [apply keeps_include | intros _; apply keeps_ret].
  - (* Begin *)
    apply keeps_bind; [apply keeps_put | intros _].
    apply keeps_begin with (env := env); auto.
  - (* Let *)
    apply keeps_let_form; auto.
  - (* Define *)
    apply keeps_define; [eapply quiet_define; eassumption | ].
    intros e. apply IHeval, quiet_any. eapply quiet_define; eassumption.
  - (* Lambda *)
    apply keeps_lambda.
  - (* Number *)
    repeat keeps_step.
  - (* Name *)
    apply keeps_bind; [apply keeps_get_string | intros name].
    apply keeps_bind; [apply keeps_lookup | intros x].
    destruct (negb _); [apply keeps_ret | ].
    apply keeps_bind; [apply keeps_put | intros _].
    apply keeps_bind; [ | intros args; apply IHapply].
    apply keeps_collect_args; auto.
  - (* Expr *)
    apply keeps_bind_get_List; intros l D.
    apply keeps_bind; [eapply IHevlist, quiet_nested; eassumption | intros res].
    repeat keeps_step.
  - (* Cond *)
    apply keeps_bind; [apply keeps_cond_loop with (env := env); auto | intros r].
    repeat keeps_step.
  - (* Quote *)
    repeat keeps_step.
Qed.

Lemma keeps_evlist_loop_step n : keeps_at n -> forall p res env,
  quiet p env -> keeps f (evlist_loop show_double (S n) p res env).
Proof.
  intros (IHeval & IHevlist & IHloop & IHapply) p res env Hq.
  cbn [evlist_loop].
  destruct p as [ | c rest]; [apply keeps_ret | ].
  pose proof (quiet_tail _ _ _ Hq) as Hr.
  destruct (kind c) eqn:K; cbn [is_primitive];
    lazymatch type of K with
    | _ = ?k =>
        let b := eval cbv in (is_primitive k) in
        lazymatch b with
        | true =>
            destruct rest as [ | a rest]; [apply keeps_throw | ];
            apply keeps_bind; [apply keeps_trace_unevaled | intros _];
            apply keeps_bind; [apply IHevlist, Hr | intros args];
            apply keeps_bind; [apply keeps_trace_args | intros _];
            apply keeps_bind; [apply keeps_apply_prim | intros v; apply keeps_ret]
        | false => idtac
        end
    end;
    try keeps_thrown.
  - (* Include *)
    apply keeps_bind; [apply keeps_put | intros _].
    apply keeps_bind; [apply keeps_include_path | intros path].
    apply keeps_bind; [apply keeps_include | intros _; apply keeps_ret].
  - (* Begin *)
    apply keeps_bind; [apply keeps_put | intros _].
    apply keeps_bind; [ | intros v; apply keeps_ret].
    apply keeps_begin with (env := env); auto.
  - (* Let *)
    apply keeps_bind; [ | intros v; apply keeps_ret].
    apply keeps_let_form; auto.
  - (* Define *)
    apply keeps_bind; [ | intros v; apply keeps_ret].
    apply keeps_define; [eapply quiet_define; eassumption | ].
    intros e. apply IHeval, quiet_any. eapply quiet_define; eassumption.
  - (* Lambda *)
    apply keeps_bind; [apply keeps_lambda | intros fn].
    apply IHloop, quiet_drop, Hr.
  - (* Number *)
    apply IHloop, Hr.
  - (* Name *)
    apply keeps_bind; [apply keeps_get_string | intros name].
    apply keeps_bind; [apply keeps_lookup | intros x].
    destruct (negb _); [apply IHloop, Hr | ].
    apply keeps_bind; [apply keeps_put | intros _].
    apply keeps_bind; [apply keeps_collect_args; auto | intros args].
    apply keeps_bind; [apply IHapply | intros v; apply keeps_ret].
  - (* Expr *)
    apply keeps_bind_get_List; intros l D.
    apply keeps_bind; [eapply IHevlist, quiet_nested; eassumption | intros r].
    destruct r as [ | r0 [ | r1 r]]; apply IHloop, Hr.
  - (* Cond *)
    eapply keeps_bind_post;
      [apply post_cond_loop, Hr
      | apply keeps_cond_loop with (env := env); auto | ].
    intros [v | v rest' | ] H; [apply keeps_ret | apply IHloop, H | apply keeps_throw].
  - (* Quote *)
    destruct rest as [ | q rest']; [apply keeps_throw | ].
    eapply IHloop, quiet_tail, Hr.
Qed.

Lemma keeps_apply_step n : keeps_at n -> forall c args,
  keeps f (apply show_double (S n) c args).
Proof.
  intros (IHeval & IHevlist & IHloop & IHapply) c args.
  cbn [apply].
  do 5 (apply keeps_bind; [repeat keeps_step | intros _]).
  apply keeps_bind; [apply keeps_get_Proc | intros i].
  apply keeps_bind; [apply keeps_deref_Proc | intros proc].
  eapply keeps_bind_post; [apply post_Parser_bind | apply keeps_Parser_bind | ].
  intros newenv Hnew.
  apply keeps_bind; [apply keeps_put | intros _].
  apply keeps_bind; [ | intros _; apply IHeval, quiet_other, Hnew].
  induction (params proc) as [ | cell ps IH]; [apply keeps_ret | ].
  apply keeps_bind; [apply keeps_get_string | intros name].
  apply keeps_bind; [apply keeps_put | intros _].
  apply keeps_bind; [apply keeps_lookup | intros v].
  apply keeps_bind; [apply keeps_print | intros _].
  apply keeps_bind; [apply keeps_put | intros _].
  exact IH.
Qed.

Lemma keeps_all n : keeps_at n.
Proof.
  induction n as [ | n IH].
  - repeat split; intros; apply keeps_throw.
  - pose proof (keeps_evlist_loop_step n IH) as Hloop.
    repeat split.
    + apply keeps_eval_step, IH.
    + intros expr env Hq. cbn [evlist].
      apply keeps_bind; [apply keeps_put | intros _].
      apply keeps_bind; [apply keeps_print_all | intros _].
      apply keeps_bind; [apply keeps_put | intros _].
      apply IH, Hq.
    + exact Hloop.
    + apply keeps_apply_step, IH.
Qed.

(** An evaluation that [quiet] describes leaves [f] as it was, whatever the
    outcome. *)
Lemma keeps_eval n expr env : quiet expr env -> keeps f (eval show_double n expr env).
Proof. apply keeps_all. Qed.

End Evaluator.

(** *** Lexer and parser *)

Section Reader.

Variable read_double : list ascii -> float * list ascii.

Lemma keeps_token s t : keeps f (token s t).
Proof.
  unfold token. apply keeps_bind; [ | intros _; apply keeps_ret].
  apply keeps_modify. intros st. apply f_cs.
Qed.

Lemma keeps_get : keeps f (get read_double).
Proof.
  unfold get. apply keeps_bind; [apply keeps_get_state | intros st].
  destruct (skip_space _) as [[c rest] | ]; [ | apply keeps_token].
  destruct (Kind.of_operator_char c); [apply keeps_token | ].
  destruct (isdigit c).
  - destruct (read_double _). apply keeps_token.
  - destruct (read_word _) as [word rest']. destruct (strip_rp word) as [temp n].
    destruct temp; [apply keeps_throw | ].
    destruct (keyword_start c); [ | apply keeps_token].
    destruct (keywords !! _); apply keeps_token.
Qed.

Lemma keeps_ignoreln : keeps f ignoreln.
Proof.
  unfold ignoreln. apply keeps_bind; [apply keeps_put | intros _].
  apply keeps_modify. intros st. apply f_cs.
Qed.

Lemma keeps_eat_first fuel : keeps f (eat_first read_double fuel).
Proof.
  induction fuel as [ | fuel IH]; cbn [eat_first]; [apply keeps_throw | ].
  apply keeps_bind; [apply keeps_get | intros t].
  destruct (kind t); try apply keeps_ret.
  apply keeps_bind; [apply keeps_put | intros _].
  apply keeps_bind; [apply keeps_ignoreln | intros _]. exact IH.
Qed.

Lemma keeps_expr_loop fuel res : keeps f (expr_loop read_double fuel res).
Proof.
  revert res. induction fuel as [ | fuel IH]; intros res; cbn [expr_loop];
    [apply keeps_throw | ].
  apply keeps_bind; [apply keeps_get | intros t].
  destruct (kind t); try apply IH; try apply keeps_ret.
  - apply keeps_bind; [apply IH | intros sub].
    apply keeps_bind; [unfold current; repeat keeps_step | intros c].
    destruct (kind c); first [apply IH | apply keeps_throw].
  - apply keeps_bind; [apply keeps_put | intros _].
    apply keeps_bind; [apply keeps_ignoreln | intros _]. apply IH.
Qed.

Lemma keeps_expr fuel getfirst : keeps f (expr read_double fuel getfirst).
Proof.
  unfold expr. apply keeps_bind; [ | intros _; apply keeps_expr_loop].
  destruct getfirst; [apply keeps_eat_first | apply keeps_ret].
Qed.

End Reader.

End Keeps.


(** The evaluator and the parser never touch the flag of [expr_str]. *)
Lemma eval_keeps_inited sd n expr env st :
  inited (snd (eval sd n expr env st)) = inited st.
Proof.
  apply (keeps_eval inited Logic.True); try reflexivity.
  left. exact I.
Qed.

Lemma expr_keeps_inited rd fuel getfirst st :
  inited (snd (expr rd fuel getfirst st)) = inited st.
Proof. apply (keeps_expr inited); reflexivity. Qed.


(** ** Calls that return *)

Lemma set_cout_cout st : set_cout (cout st) st = st.
Proof. destruct st. reflexivity. Qed.

Lemma returns_fst {A} (m : M A) st a : returns m st a -> fst (m st) = Ok a.
Proof.
  intros H. destruct (H (cout st)) as [o' E].
  rewrite set_cout_cout in E. rewrite E. reflexivity.
Qed.

Lemma returns_ret {A} (a : A) st : returns (ret a) st a.
Proof. intros o. exists o. reflexivity. Qed.

Lemma returns_bind {A B} (m : M A) (k : A -> M B) st a b :
  returns m st a -> returns (k a) st b -> returns (bindM m k) st b.
Proof.
  intros Hm Hk o. destruct (Hm o) as [o1 E1]. destruct (Hk o1) as [o2 E2].
  exists o2. unfold bindM. rewrite E1. exact E2.
Qed.

Lemma returns_put s st : returns (put s) st tt.
Proof. intros o. exists (o +:+ s). reflexivity. Qed.

Lemma returns_print sd c st : returns (print sd c) st tt.
Proof. apply returns_put. Qed.

Lemma returns_print_all sd l st : returns (print_all sd l) st tt.
Proof. apply returns_put. Qed.

(** Looking a name up reads the frames and nothing else. *)
Lemma deref_set_cout p o st :
  deref p (set_cout o st) = (fst (deref p st), set_cout o st).
Proof.
  destruct p as [ | i | i]; cbn -[Nat.ltb].
  - reflexivity.
  - destruct (i <? _)%nat; [reflexivity | ]. destruct (envs st !! i); reflexivity.
  - destruct (locals st !! i) as [[e [ | ]] | ]; reflexivity.
Qed.

Lemma deref_state p st : snd (deref p st) = st.
Proof.
  destruct p as [ | i | i]; cbn -[Nat.ltb].
  - reflexivity.
  - destruct (i <? _)%nat; [reflexivity | ]. destruct (envs st !! i); reflexivity.
  - destruct (locals st !! i) as [[e [ | ]] | ]; reflexivity.
Qed.

Lemma findframe_set_cout depth p n o st :
  findframe depth p n (set_cout o st)
  = (fst (findframe depth p n st), set_cout o st).
Proof.
  revert p. induction depth as [ | depth IH]; intros p; cbn [findframe].
  - reflexivity.
  - unfold bindM. rewrite deref_set_cout.
    pose proof (deref_state p st) as Hs.
    destruct (deref p st) as [[e | err] st1]; cbn [fst snd] in *; subst st1; [ | reflexivity].
    destruct (env_map e !! n); [reflexivity | ].
    destruct (outer e); [apply IH | reflexivity].
Qed.

Lemma findframe_state depth p n st : snd (findframe depth p n st) = st.
Proof.
  revert p. induction depth as [ | depth IH]; intros p; cbn [findframe].
  - reflexivity.
  - unfold bindM. pose proof (deref_state p st) as Hs.
    destruct (deref p st) as [[e | err] st1]; cbn [fst snd] in *; subst st1; [ | reflexivity].
    destruct (env_map e !! n); [reflexivity | ].
    destruct (outer e); [apply IH | reflexivity].
Qed.

Lemma lookup_set_cout p n o st :
  lookup p n (set_cout o st) = (fst (lookup p n st), set_cout o st).
Proof.
  unfold lookup, bindM, get_state. cbn [envs locals set_cout].
  rewrite findframe_set_cout.
  pose proof (findframe_state (S (length (envs st) + length (locals st))) p n st) as Hs.
  destruct (findframe _ p n st) as [[fr | err] st1]; cbn [fst snd] in *; subst st1;
    [ | reflexivity].
  rewrite deref_set_cout.
  pose proof (deref_state fr st) as Hs.
  destruct (deref fr st) as [[e | err] st1]; cbn [fst snd] in *; subst st1; [ | reflexivity].
  destruct (env_map e !! n); reflexivity.
Qed.

Lemma returns_lookup p n st x :
  fst (lookup p n st) = Ok x -> returns (lookup p n) st x.
Proof.
  intros H o. exists o. rewrite lookup_set_cout, H. reflexivity.
Qed.

(** *** Rules for the calls that evaluate a primitive *)

Section Rules.

Variable show_double : float -> string.

Lemma returns_trace_unevaled tag rest st :
  returns (trace_unevaled show_double tag rest) st tt.
Proof.
  unfold trace_unevaled.
  do 5 (eapply returns_bind; [first [apply returns_put | apply returns_print_all] | ]).
  apply returns_put.
Qed.

Lemma returns_trace_args tag args st :
  returns (trace_args show_double tag args) st tt.
Proof.
  unfold trace_args.
  do 3 (eapply returns_bind; [first [apply returns_put | apply returns_print_all] | ]).
  apply returns_put.
Qed.

Lemma returns_evlist m expr env st r :
  returns (evlist_loop show_double m expr [] env) st r ->
  returns (evlist show_double (S m) expr env) st r.
Proof.
  intros H. cbn [evlist].
  eapply returns_bind; [apply returns_put | ].
  eapply returns_bind; [apply returns_print_all | ].
  eapply returns_bind; [apply returns_put | ].
  exact H.
Qed.

Lemma returns_loop_end m res env st :
  returns (evlist_loop show_double (S m) [] res env) st res.
Proof. cbn [evlist_loop]. apply returns_ret. Qed.

(** A name whose value is not a procedure evaluates to the value. *)
Lemma returns_loop_name m name rest res env st x r :
  returns (lookup env name) st x ->
  Kind.eqb (kind x) Kind.Proc = false ->
  returns (evlist_loop show_double m rest (res ++ [x]) env) st r ->
  returns (evlist_loop show_double (S m) (Cell_string name :: rest) res env) st r.
Proof.
  intros Hl Hk Hr. cbn [evlist_loop kind data Cell_string get_string].
  eapply returns_bind; [apply returns_ret | ].
  eapply returns_bind; [exact Hl | ].
  rewrite Hk. cbn [negb]. exact Hr.
Qed.

(** A parenthesised expression whose evaluation gives one value stands for
    that value. *)
Lemma returns_loop_expr m l rest res env st r0 r :
  returns (evlist show_double m l env) st [r0] ->
  returns (evlist_loop show_double m rest (res ++ [r0]) env) st r ->
  returns (evlist_loop show_double (S m) (Cell_list l :: rest) res env) st r.
Proof.
  intros Hl Hr. cbn [evlist_loop kind data Cell_list get_List].
  eapply returns_bind; [apply returns_ret | ].
  eapply returns_bind; [exact Hl | ]. exact Hr.
Qed.

(** A primitive is applied to the values of all the cells after it. *)
Lemma returns_loop_primitive m c a rest res env st args v :
  is_primitive (kind c) = true ->
  returns (evlist show_double m (a :: rest) env) st args ->
  returns (apply_prim show_double c args) st v ->
  returns (evlist_loop show_double (S m) (c :: a :: rest) res env) st (res ++ [v]).
Proof.
  intros Hk Hargs Hv. cbn [evlist_loop].
  destruct (kind c); try discriminate Hk.
  all: cbn [is_primitive].
  all: eapply returns_bind; [apply returns_trace_unevaled | ].
  all: eapply returns_bind; [exact Hargs | ].
  all: eapply returns_bind; [apply returns_trace_args | ].
  all: eapply returns_bind; [exact Hv | ].
  all: apply returns_ret.
Qed.

Lemma returns_eval_primitive m c a rest env st args v :
  is_primitive (kind c) = true ->
  returns (evlist show_double m (a :: rest) env) st args ->
  returns (apply_prim show_double c args) st v ->
  returns (eval show_double (S m) (c :: a :: rest) env) st v.
Proof.
  intros Hk Hargs Hv. cbn [eval].
  eapply returns_bind; [apply returns_print_all | ].
  eapply returns_bind; [apply returns_put | ].
  destruct (kind c); try discriminate Hk.
  all: cbn [is_primitive].
  all: eapply returns_bind; [apply returns_put | ].
  all: eapply returns_bind; [apply returns_put | ].
  all: eapply returns_bind; [apply returns_trace_unevaled | ].
  all: eapply returns_bind; [exact Hargs | ].
  all: eapply returns_bind; [apply returns_trace_args | ].
  all: eapply returns_bind; [apply returns_put | ].
  all: exact Hv.
Qed.

Lemma returns_car_pair x y st :
  returns (apply_prim show_double (Cell_kind Kind.Car) [Cell_list [x; y]]) st x.
Proof. intros o. eexists. reflexivity. Qed.

Lemma returns_cdr_pair x y st :
  returns (apply_prim show_double (Cell_kind Kind.Cdr) [Cell_list [x; y]]) st y.
Proof. intros o. eexists. reflexivity. Qed.

Lemma returns_cons args st :
  returns (apply_prim show_double (Cell_kind Kind.Cons) args) st (Cell_list args).
Proof. intros o. eexists. reflexivity. Qed.

(** With [n] bound to a list of two cells, [(cons (car n) (cdr n))] returns
    the list of the same two cells. *)
Lemma returns_cons_car_cdr fuel env st n x y :
  fst (lookup env n st) = Ok (Cell_list [x; y]) ->
  returns (eval show_double (9 + fuel) (cons_car_cdr n) env) st (Cell_list [x; y]).
Proof.
  intros Hl. apply returns_lookup in Hl.
  assert (Harg : forall m,
             returns (evlist show_double (3 + m) [Cell_string n] env) st
                     [Cell_list [x; y]]).
  { intros m. apply returns_evlist.
    eapply returns_loop_name; [exact Hl | reflexivity | apply returns_loop_end]. }
  cbn [Nat.add] in *. unfold cons_car_cdr.
  eapply returns_eval_primitive; [reflexivity | | apply returns_cons].
  apply returns_evlist.
  eapply returns_loop_expr.
  { apply returns_evlist.
    eapply (returns_loop_primitive _ _ _ _ []);
      [reflexivity | apply (Harg (S fuel)) | apply returns_car_pair]. }
  eapply returns_loop_expr.
  { apply returns_evlist.
    eapply (returns_loop_primitive _ _ _ _ []);
      [reflexivity | apply (Harg fuel) | apply returns_cdr_pair]. }
  apply returns_loop_end.
Qed.

End Rules.

(** ** The primitives *)

Section Primitives.

Variable show_double : float -> string.
Variable read_double : list ascii -> float * list ascii.

Local Abbreviation run := (run show_double read_double).
Local Abbreviation run_second := (run_second show_double read_double).
Local Abbreviation run_third := (run_third show_double read_double).

(** The trace in front of the [switch] of [apply_prim] has no part in the
    value returned. *)
Lemma fst_bind_put {A} s (k : unit -> M A) st :
  fst (bindM (put s) k st) = fst (k tt (set_cout (cout st +:+ s) st)).
Proof. reflexivity. Qed.

Ltac skip_trace :=
  unfold apply_prim; cbn [kind data];
  repeat (rewrite fst_bind_put; cbv beta);
  unfold print_all; repeat (rewrite fst_bind_put; cbv beta).

(** *** [=] *)

(** X3: Two numbers are equal when the doubles are, two names when the strings
    are. *)
Theorem equal_of_numbers_and_names st :
  (forall a b,
      fst (apply_prim show_double (Cell_kind Kind.Equal)
             [Cell_double a; Cell_double b] st)
      = Ok (Cell_bool (PrimFloat.eqb a b)))
  /\ (forall s t,
      fst (apply_prim show_double (Cell_kind Kind.Equal)
             [Cell_string s; Cell_string t] st)
      = Ok (Cell_bool (String.eqb s t))).
Proof. split; intros; reflexivity. Qed.

(** C5 (fails on the code): [equal_visitor] has a constructor and a case
    for procedures and for lists, but [apply_prim] constructs the visitor from
    [get<double>] when the first argument is a number and from [get<string>]
    otherwise.  A first argument that is a list or a procedure makes
    [get<string>] throw, so two lists or two procedures are never compared. *)
Theorem equal_of_lists_or_procs_throws :
  fst (run 20 "(= (list 'a) (list 'a))") = Err bad_get
  /\ fst (run 20 "(= (lambda (x) (x)) (lambda (x) (x)))") = Err bad_get
  /\ (forall l b st,
        fst (apply_prim show_double (Cell_kind Kind.Equal) [Cell_list l; b] st)
        = Err bad_get)
  /\ (forall p b st,
        fst (apply_prim show_double (Cell_kind Kind.Equal) [Cell_proc p; b] st)
        = Err bad_get).
Proof.
  split; [vm_compute; reflexivity | ].
  split; [vm_compute; reflexivity | ].
  split; intros; reflexivity.
Qed.

(** *** [<] and [>] *)

(** C9: [apply_prim(Greater, [a, b])] and [apply_prim(Less, [b, a])] end the
    same way, with the same cell or with the same failure: [>] constructs the
    visitor from its second argument and applies it to the first, [<] the
    other way round. *)
Theorem greater_is_less_swapped dg dl a b st :
  fst (apply_prim show_double (mkCell Kind.Greater dg) [a; b] st)
  = fst (apply_prim show_double (mkCell Kind.Less dl) [b; a] st).
Proof.
  destruct a as [ka da], b as [kb db].
  skip_trace.
  change (at_index [mkCell ka da; mkCell kb db] 0) with (@ret Cell (mkCell ka da)).
  change (at_index [mkCell ka da; mkCell kb db] 1) with (@ret Cell (mkCell kb db)).
  change (at_index [mkCell kb db; mkCell ka da] 0) with (@ret Cell (mkCell kb db)).
  change (at_index [mkCell kb db; mkCell ka da] 1) with (@ret Cell (mkCell ka da)).
  cbn [bindM ret kind data].
  destruct (Kind.eqb kb Kind.Number); destruct da, db; reflexivity.
Qed.

(** *** [car] and [cdr] *)

(** C10: [car] returns an argument that is not an expression as it is, and
    the first cell of a non-empty expression; on an empty expression it
    indexes position 0 of an empty vector, which a program reaches with
    [(car (cdr 'a))]. *)
Theorem car_is_defined_on_non_empty_lists :
  (forall dp k d st,
      fst (apply_prim show_double (mkCell Kind.Car dp) [mkCell k d] st)
      = if Kind.eqb k Kind.Expr then
          match d with
          | DList (x :: _) => Ok x
          | DList [] => Err (undefined "index past the end of a vector")
          | _ => Err bad_get
          end
        else Ok (mkCell k d))
  /\ fst (run 20 "(cdr 'a)") = Ok (Cell_list [])
  /\ fst (run 20 "(car (cdr 'a))") = Err (undefined "index past the end of a vector").
Proof.
  split; [ | split; vm_compute; reflexivity].
  intros dp k d st. destruct k, d as [ | | | [ | x l]]; reflexivity.
Qed.

(** X2: What [cdr] returns where the code gives it a meaning: the empty list for
    an argument that is not an expression and for a list of one cell, the
    second cell of a list of two, the tail of a longer list. *)
Theorem cdr_cases dp st :
  (forall k d,
      fst (apply_prim show_double (mkCell Kind.Cdr dp) [mkCell k d] st)
      = if Kind.eqb k Kind.Expr
        then fst (apply_prim show_double (mkCell Kind.Cdr dp) [mkCell Kind.Expr d] st)
        else Ok (Cell_list []))
  /\ (forall x,
     fst (apply_prim show_double (mkCell Kind.Cdr dp) [Cell_list [x]] st)
     = Ok (Cell_list []))
  /\ (forall x y,
     fst (apply_prim show_double (mkCell Kind.Cdr dp) [Cell_list [x; y]] st) = Ok y)
  /\ (forall x y z l,
     fst (apply_prim show_double (mkCell Kind.Cdr dp) [Cell_list (x :: y :: z :: l)] st)
     = Ok (Cell_list (y :: z :: l))).
Proof.
  repeat split; intros; try reflexivity.
  destruct k; reflexivity.
Qed.

(** C7 (fails on the code): [cdr] tests the size of the list against 1 and
    against 2 only; an empty list reaches the construction of the tail from
    [list.begin() + 1], which is past the end.  [(cdr 'a)] is the empty list,
    so [(cdr (cdr 'a))] gets there. *)
Theorem cdr_of_empty_list_is_undefined :
  (forall dp st,
      fst (apply_prim show_double (mkCell Kind.Cdr dp) [Cell_list []] st)
      = Err (undefined "range from begin() + 1 to end() of an empty vector"))
  /\ fst (run 20 "(cdr (cdr 'a))")
     = Err (undefined "range from begin() + 1 to end() of an empty vector").
Proof. split; [intros; reflexivity | vm_compute; reflexivity]. Qed.

(** ** The keyword [not] *)

(** The character [!] is the spelling the lexer turns into [Kind::Not]. *)
Lemma bang_negates :
  fst (run 20 "(! (empty? 'a))") = Ok (Cell_kind Kind.True).
Proof. vm_compute. reflexivity. Qed.

(** C1 (fails on the code): the keyword table maps the spelling [not] to
    [Kind::Or], so [(not e)] applies the primitive [or].  [(empty? 'a)] is
    [False]; its negation would be [True], but [(not (empty? 'a))] evaluates
    to [False]. *)
Theorem not_is_lexed_as_or :
  keywords !! "not" = Some Kind.Or
  /\ fst (expr read_double 20 true (initial "(not (empty? 'a))"))
     = Ok [Cell_kind Kind.Or;
           Cell_list [Cell_kind Kind.Empty; Cell_kind Kind.Quote; Cell_string "a"]]
  /\ fst (run 20 "(empty? 'a)") = Ok (Cell_kind Kind.False)
  /\ fst (run 20 "(not (empty? 'a))") = Ok (Cell_kind Kind.False).
Proof. repeat split; vm_compute; reflexivity. Qed.

(** ** [cond] without a clause that holds *)

(** C2 (fails on the code): when no predicate holds and there is no [else],
    [eval] leaves the loop over the clauses and, the case having no [break],
    runs on into the code of the primitives with its iterator at the end of
    the expression; [evlist] leaves the [switch] and increments the iterator
    past the end.  Neither returns the unit cell. *)
Theorem cond_without_match_is_undefined :
  fst (run 20 "(cond ((empty? 'a) 'b))") = Err (undefined "dereference of end()")
  /\ fst (run 20 "(list (cond ((empty? 'a) 'b)))")
     = Err (undefined "increment of end()").
Proof. split; vm_compute; reflexivity. Qed.

(** ** Closures over a [let] frame *)

(** A procedure made by a call keeps the frame of the call, which [bind]
    stores in [envs]. *)
Lemma closure_over_call_frame :
  fst (run_third 20 "(define (g a) (lambda () (a))) (define h (g 'v)) (h)")
  = Ok (Cell_string "v").
Proof. vm_compute. reflexivity. Qed.

(** Inside the [let] that declares the frame, the procedure sees it. *)
Lemma closure_inside_let :
  fst (run 20 "(let ((a ('v))) (list (define f (lambda () (a))) (f)))")
  = Ok (Cell_list [Cell_proc 0; Cell_string "v"]).
Proof. vm_compute. reflexivity. Qed.

(** C3 (fails on the code): the frame of a [let] is the local object
    [Env localenv], which [eval] does not store in [envs]; it is gone when the
    [let] returns.  A procedure made in the body and applied afterwards
    follows its [env] pointer to that frame. *)
Theorem closure_outlives_let_frame :
  fst (run_second 20 "(define f (let ((a ('v))) (lambda () (a)))) (f)")
  = Err (undefined "use of a let frame after its lifetime").
Proof. vm_compute. reflexivity. Qed.

(** ** [cons], [car] and [cdr] together *)

Lemma parse_cons_car_cdr :
  fst (expr read_double 20 true (initial "(cons (car l) (cdr l))"))
  = Ok (cons_car_cdr "l").
Proof. vm_compute. reflexivity. Qed.

(** C6 (amended): for a list of exactly two cells bound to the name [n],
    [(cons (car n) (cdr n))] evaluates, given 9 units of fuel or more, to the
    list of the same two cells in the same order. *)
Theorem cons_car_cdr_of_pair fuel env st n x y :
  fst (lookup env n st) = Ok (Cell_list [x; y]) ->
  fst (eval show_double (9 + fuel) (cons_car_cdr n) env st) = Ok (Cell_list [x; y]).
Proof.
  intros H. apply returns_fst, returns_cons_car_cdr, H.
Qed.

(** ** Errors and the global environment *)

(** A [define] whose value cannot be computed assigns nothing: it ends as the
    evaluation of the value ended. *)
Lemma define_of_failed_value ev env np c rest st err st' :
  kind np = Kind.Name ->
  ev (c :: rest) st = (Err err, st') ->
  define ev env (np :: c :: rest) st = (Err err, st').
Proof.
  intros K H. unfold define. rewrite K. unfold bindM. rewrite H. reflexivity.
Qed.


(** ** The embedded entry point *)

Lemma expr_str_entry fuel input st :
  expr_str show_double read_double fuel input st
  = (res ← toplevel show_double read_double fuel;
     operator_shl show_double "" res) (entry_state input st).
Proof.
  unfold expr_str, entry_state, bindM, get_state.
  destruct (inited st); cbn; reflexivity.
Qed.

Lemma toplevel_keeps_inited fuel st :
  inited (snd (toplevel show_double read_double fuel st)) = inited st.
Proof.
  unfold toplevel, bindM.
  pose proof (expr_keeps_inited read_double fuel true st) as H.
  destruct (expr read_double fuel true st) as [[e | err] st1]; cbn [snd] in *.
  - rewrite eval_keeps_inited. exact H.
  - exact H.
Qed.

Lemma entry_state_inited input st : inited (entry_state input st) = true.
Proof. unfold entry_state. destruct (inited st) eqn:E; cbn; [exact E | reflexivity]. Qed.

(** Whatever the outcome, a call of [expr_str] leaves the flag set. *)
Lemma expr_str_sets_inited fuel input st :
  inited (snd (expr_str show_double read_double fuel input st)) = true.
Proof.
  rewrite expr_str_entry. unfold bindM.
  pose proof (toplevel_keeps_inited fuel (entry_state input st)) as H.
  rewrite entry_state_inited in H.
  destruct (toplevel _ _ _ _) as [[res | err] st1]; cbn in *; exact H.
Qed.


Lemma expr_str_error fuel input st err st' :
  toplevel show_double read_double fuel (entry_state input st) = (Err err, st') ->
  expr_str show_double read_double fuel input st = (Err err, st').
Proof.
  intros H. rewrite expr_str_entry. unfold bindM. rewrite H. reflexivity.
Qed.

(** ** The keyword [begin] *)

Lemma of_operator_char_not_begin c :
  match Kind.of_operator_char c with
  | Some k => Kind.eqb k Kind.Begin = false
  | None => Logic.True
  end.
Proof.
  destruct c as [[] [] [] [] [] [] [] []]; cbn; first [reflexivity | exact I].
Qed.

Lemma skip_space_not_space s c rest :
  skip_space s = Some (c, rest) -> isspace c = false.
Proof.
  induction s as [ | a s IH]; cbn; [discriminate | ].
  destruct (isspace a) eqn:E; [exact IH | ].
  intros [= <- _]. exact E.
Qed.

(** What is left of a word starts with the first character of the word. *)
Lemma strip_rp_head c w :
  match fst (strip_rp (String c w)) with
  | "" => Logic.True
  | String a _ => a = c
  end.
Proof.
  cbn [strip_rp]. destruct (strip_rp w) as [[ | b r'] n].
  - destruct (Ascii.eqb c ")"); cbn; [exact I | reflexivity].
  - reflexivity.
Qed.

Lemma keyword_begin temp : keywords !! temp = Some Kind.Begin -> temp = "begin".
Proof.
  intros H. apply elem_of_list_to_map_2 in H.
  repeat (apply elem_of_cons in H as [H | H]; [congruence | ]).
  apply elem_of_nil in H. contradiction.
Qed.

(** X1: The lexer returns no token of kind [Begin]: only a word that starts with
    one of the letters a, c, d, e, i, l, n, o is looked up in the keyword
    table, and [begin] starts with none of them. *)
Theorem get_never_returns_begin st :
  match fst (get read_double st) with
  | Ok t => Kind.eqb (kind t) Kind.Begin = false
  | Err _ => Logic.True
  end.
Proof.
  unfold get, bindM, get_state.
  destruct (skip_space (ip (cs st))) as [[c rest] | ] eqn:Es; [ | reflexivity].
  apply skip_space_not_space in Es.
  pose proof (of_operator_char_not_begin c) as Ho.
  destruct (Kind.of_operator_char c) as [k | ]; [exact Ho | ].
  destruct (isdigit c); [destruct (read_double _); reflexivity | ].
  cbn [read_word]. rewrite Es.
  destruct (read_word rest) as [w rest'].
  pose proof (strip_rp_head c w) as Hh.
  destruct (strip_rp (String c w)) as [[ | a temp] n]; cbn [fst] in Hh; [exact I | ].
  subst a.
  destruct (keyword_start c) eqn:Ek; [ | reflexivity].
  destruct (keywords !! String c temp) as [k | ] eqn:El; [ | reflexivity].
  cbn. destruct (decide (k = Kind.Begin)) as [-> | Hn].
  - apply keyword_begin in El. injection El as -> _. discriminate Ek.
  - unfold Kind.eqb. apply bool_decide_eq_false. exact Hn.
Qed.

(** So [(begin ...)] is the application of a variable named [begin]. *)
Lemma begin_is_a_name :
  fst (run 20 "(begin 'a)") = Err (runtime_error "Unbound variable").
Proof. vm_compute. reflexivity. Qed.

End Primitives.

(** ** Instances *)



(** C6 (counterexample): for the list [(a b c)], [(cons (car l) (cdr l))] is
    the list [(a (b c))] of two cells, and comparing it with [l] by [=]
    throws. *)
Lemma cons_car_cdr_of_three :
  fst (run_second digits_show_double digits_read_double 30
         "(define l (list 'a 'b 'c)) (cons (car l) (cdr l))")
  = Ok (Cell_list [Cell_string "a"; Cell_list [Cell_string "b"; Cell_string "c"]])
  /\ global (snd (run_second digits_show_double digits_read_double 30
                    "(define l (list 'a 'b 'c)) (cons (car l) (cdr l))")) "l"
     = Some (Cell_list [Cell_string "a"; Cell_string "b"; Cell_string "c"])
  /\ fst (run_second digits_show_double digits_read_double 30
            "(define l (list 'a 'b 'c)) (= (cons (car l) (cdr l)) l)")
     = Err bad_get.
Proof. repeat split; vm_compute; reflexivity. Qed.

Lemma cons_car_cdr_of_pair_witness :
  fst (lookup e0_ptr "l"
         (snd (run digits_show_double digits_read_double 20 "(define l (list 'a 'b))")))
  = Ok (Cell_list [Cell_string "a"; Cell_string "b"])
  /\ fst (eval digits_show_double 9 (cons_car_cdr "l") e0_ptr
            (snd (run digits_show_double digits_read_double 20
                    "(define l (list 'a 'b))")))
     = Ok (Cell_list [Cell_string "a"; Cell_string "b"]).
Proof.
  assert (H : fst (lookup e0_ptr "l"
                     (snd (run digits_show_double digits_read_double 20
                             "(define l (list 'a 'b))")))
              = Ok (Cell_list [Cell_string "a"; Cell_string "b"]))
    by (vm_compute; reflexivity).
  split; [exact H | ].
  exact (cons_car_cdr_of_pair digits_show_double 0 e0_ptr _ "l" _ _ H).
Defined.

(** ** The scenarios of the specification

    The first four evaluate as the specification says.  In the fifth the
    clause [((= 1 1) 'b)] holds three cells, of which [clause[1]] is the quote
    alone; in the sixth the parenthesised [lambda] evaluates to the procedure
    and its operands are not looked at. *)

Theorem scenarios_one_to_four :
  fst (run digits_show_double digits_read_double 20 "(+ 1 2 3)")
  = Ok (Cell_double 6)
  /\ fst (run digits_show_double digits_read_double 20 "(define x 10) (+ x 5)")
     = Ok (Cell_double 10)
  /\ fst (run_second digits_show_double digits_read_double 20 "(define x 10) (+ x 5)")
     = Ok (Cell_double 15)
  /\ fst (run digits_show_double digits_read_double 20 "(define (sq x) (* x x)) (sq 7)")
     = Ok (Cell_proc 0)
  /\ fst (run_second digits_show_double digits_read_double 20
            "(define (sq x) (* x x)) (sq 7)")
     = Ok (Cell_double 49)
  /\ fst (run digits_show_double digits_read_double 20 "(let ((a 2) (b 3)) (+ a b))")
     = Ok (Cell_double 5).
Proof. repeat split; vm_compute; reflexivity. Qed.

Lemma scenarios_five_and_six :
  fst (run digits_show_double digits_read_double 20
         "(cond ((< 2 1) 'a) ((= 1 1) 'b) (else 'c))")
  = Err (runtime_error "Quote expects 1 arg")
  /\ fst (run digits_show_double digits_read_double 20
            "((lambda (x y) (cat x y)) 'foo 'bar)")
     = Ok (Cell_proc 0).
Proof. repeat split; vm_compute; reflexivity. Qed.


(** Two calls of [expr_str] in a row: [init_env] runs in the first. *)
Lemma expr_str_twice :
  envs (snd (expr_str digits_show_double digits_read_double 20 "(cat 'a 'b)" fresh))
  = [mkEnv ∅ None]
  /\ envs (snd ((_ ← expr_str digits_show_double digits_read_double 20 "(cat 'a 'b)";
                expr_str digits_show_double digits_read_double 20 "(cat 'c 'd)") fresh))
     = [mkEnv ∅ None].
Proof. split; vm_compute; reflexivity. Qed.

(** The state [initial] is the one [alloc_env] makes of the globals, and its
    marks are within the vectors. *)
Lemma alloc_env_initial input :
  snd (init_env
         (set_cs (mkStream (list_ascii_of_string input) [] (Cell_kind Kind.End)) fresh))
  = initial input.
Proof. reflexivity. Qed.

Lemma initial_marks_within input : marks_within (initial input).
Proof. split; apply Nat.le_0_l. Qed.

(** * Further properties of the interpreter *)

(** ** Strings *)

Lemma append_assoc (a b c : string) : (a +:+ b) +:+ c = a +:+ (b +:+ c).
Proof.
  induction a as [ | x a IH]; [reflexivity | exact (f_equal (String x) IH)].
Qed.

Lemma append_empty (a : string) : a +:+ "" = a.
Proof.
  induction a as [ | x a IH]; [reflexivity | exact (f_equal (String x) IH)].
Qed.

Lemma list_ascii_app a b :
  list_ascii_of_string (a +:+ b) = list_ascii_of_string a ++ list_ascii_of_string b.
Proof.
  induction a as [ | c a IH]; [reflexivity | ].
  change (String c a +:+ b) with (String c (a +:+ b)).
  cbn [list_ascii_of_string]. rewrite IH. reflexivity.
Qed.

Lemma state_eta st : set_cs (mkStream (ip (cs st)) (old (cs st)) (ct (cs st))) st = st.
Proof. destruct st as [? ? ? ? [? ? ?] ? ? ?]. reflexivity. Qed.

(** ** The lexer *)

Section Tokens.

Variable read_double : list ascii -> float * list ascii.

Lemma skip_space_app ws s :
  forallb isspace ws = true -> skip_space (ws ++ s) = skip_space s.
Proof.
  induction ws as [ | c ws IH]; [reflexivity | ].
  cbn [forallb app skip_space]. intros H. apply andb_true_iff in H as [Hc H].
  rewrite Hc. apply IH, H.
Qed.

Lemma skip_space_all ws : forallb isspace ws = true -> skip_space ws = None.
Proof.
  intros H. rewrite <- (app_nil_r ws), skip_space_app by exact H. reflexivity.
Qed.

Lemma skip_space_head c rest :
  isspace c = false -> skip_space (c :: rest) = Some (c, rest).
Proof. intros H. cbn. rewrite H. reflexivity. Qed.

Lemma strip_rp_not_empty c w :
  Kind.of_operator_char c = None -> fst (strip_rp (String c w)) <> "".
Proof.
  intros Ho. cbn [strip_rp]. destruct (strip_rp w) as [[ | b r'] n]; [ | discriminate].
  destruct (Ascii.eqb_spec c ")") as [-> | Hc]; [discriminate Ho | discriminate].
Qed.

(** The word the lexer strips the parentheses from starts with a character
    that is no parenthesis, so something of it is left. *)
Lemma word_not_empty s c rest :
  skip_space s = Some (c, rest) -> Kind.of_operator_char c = None ->
  fst (strip_rp (fst (read_word (c :: rest)))) <> "".
Proof.
  intros Hs Ho. apply skip_space_not_space in Hs.
  cbn [read_word]. rewrite Hs. destruct (read_word rest) as [w rest'].
  apply strip_rp_not_empty, Ho.
Qed.

(** X4: [Cell_stream::get] always returns a token: [temp.back()] is never called
    on an empty string, the one place where the lexer could leave the
    defined behaviour. *)
Theorem get_always_returns_a_token st :
  exists t, fst (get read_double st) = Ok t.
Proof.
  unfold get, bindM, get_state.
  destruct (skip_space (ip (cs st))) as [[c rest] | ] eqn:Es; [ | eexists; reflexivity].
  destruct (Kind.of_operator_char c) as [k | ] eqn:Eo; [eexists; reflexivity | ].
  destruct (isdigit c); [destruct (read_double _); eexists; reflexivity | ].
  pose proof (word_not_empty _ _ _ Es Eo) as Hw.
  destruct (read_word (c :: rest)) as [word rest'].
  cbn [fst] in Hw. destruct (strip_rp word) as [temp n]. cbn [fst] in Hw.
  destruct temp; [congruence | ].
  destruct (keyword_start c); [destruct (keywords !! _) | ]; eexists; reflexivity.
Qed.

(** The lexer starts at the first character that is no white space. *)
Lemma get_after_space ws s st :
  forallb isspace ws = true -> ip (cs st) = ws ++ s ->
  get read_double st = get read_double (set_cs (set_ip s (cs st)) st).
Proof.
  intros H E. unfold get, bindM, get_state. cbn [cs set_cs ip set_ip].
  rewrite E, skip_space_app by exact H.
  destruct (skip_space s) as [[c rest] | ] eqn:Es; [ | reflexivity].
  destruct (Kind.of_operator_char c) eqn:Eo; [reflexivity | ].
  destruct (isdigit c); [destruct (read_double _); reflexivity | ].
  pose proof (word_not_empty _ _ _ Es Eo) as Hw.
  destruct (read_word _) as [word rest']. cbn [fst] in Hw.
  destruct (strip_rp word) as [temp n]. cbn [fst] in Hw.
  destruct temp; [congruence | ].
  destruct (keyword_start c); [destruct (keywords !! _) | ]; reflexivity.
Qed.

Lemma get_at_end ws st :
  forallb isspace ws = true -> ip (cs st) = ws ->
  get read_double st
  = (Ok (Cell_kind Kind.End), set_cs (mkStream [] (old (cs st)) (Cell_kind Kind.End)) st).
Proof.
  intros Hw E. unfold get, bindM, get_state.
  rewrite E, skip_space_all by exact Hw. reflexivity.
Qed.

(** X5: White space in front of a token changes nothing: the lexer returns the
    same token and leaves the same state.  On an input of white space only,
    the empty one included, it returns the token [End] and the input is
    used up. *)
Theorem get_skips_white_space ws s st :
  forallb isspace ws = true ->
  get read_double (set_cs (set_ip (ws ++ s) (cs st)) st)
  = get read_double (set_cs (set_ip s (cs st)) st)
  /\ get read_double (set_cs (set_ip ws (cs st)) st)
     = (Ok (Cell_kind Kind.End),
        set_cs (mkStream [] (old (cs st)) (Cell_kind Kind.End)) st).
Proof.
  intros H. split.
  - apply (get_after_space ws s (set_cs (set_ip (ws ++ s) (cs st)) st) H eq_refl).
  - apply (get_at_end ws (set_cs (set_ip ws (cs st)) st) H eq_refl).
Qed.

Lemma read_word_app w rest :
  forallb (fun a => negb (isspace a)) (list_ascii_of_string w) = true ->
  read_word (list_ascii_of_string w ++ rest)
  = (w +:+ fst (read_word rest), snd (read_word rest)).
Proof.
  induction w as [ | c w IH]; intros H.
  - cbn. destruct (read_word rest); reflexivity.
  - cbn [list_ascii_of_string forallb app] in *. apply andb_true_iff in H as [Hc H].
    cbn [read_word]. apply negb_true_iff in Hc. rewrite Hc, (IH H). reflexivity.
Qed.

Lemma read_word_end rest : word_end rest = true -> read_word rest = ("", rest).
Proof.
  destruct rest as [ | c r]; [reflexivity | ]. cbn. intros ->. reflexivity.
Qed.

Lemma read_word_rps k rest :
  word_end rest = true ->
  read_word (replicate k ")"%char ++ rest) = (rps k, rest).
Proof.
  intros H. induction k as [ | k IH].
  - cbn. apply read_word_end, H.
  - cbn [replicate app read_word]. change (isspace ")") with false. cbv iota.
    rewrite IH. reflexivity.
Qed.

Lemma strip_rp_rps k : strip_rp (rps k) = ("", k).
Proof.
  induction k as [ | k IH]; [reflexivity | ].
  change (rps (S k)) with (String ")" (rps k)). cbn [strip_rp]. rewrite IH.
  reflexivity.
Qed.

Lemma strip_rp_word w k :
  w <> "" -> last_char w <> Some ")"%char ->
  strip_rp (w +:+ rps k) = (w, k).
Proof.
  induction w as [ | c w IH]; [congruence | ]. intros _ Hl.
  change (String c w +:+ rps k) with (String c (w +:+ rps k)). cbn [strip_rp].
  destruct w as [ | d w].
  - change ("" +:+ rps k) with (rps k). rewrite strip_rp_rps.
    cbn in Hl. destruct (Ascii.eqb_spec c ")") as [-> | Hc]; [congruence | reflexivity].
  - rewrite IH; [reflexivity | discriminate | exact Hl].
Qed.

(** The word at the front of the input, with the closing parentheses that
    follow it. *)
Lemma get_word c w k rest st :
  forallb (fun a => negb (isspace a)) (list_ascii_of_string (String c w)) = true ->
  Kind.of_operator_char c = None -> isdigit c = false ->
  last_char (String c w) <> Some ")"%char ->
  word_end rest = true ->
  ip (cs st) = list_ascii_of_string (String c w) ++ replicate k ")"%char ++ rest ->
  get read_double st
  = token (replicate k ")"%char ++ rest)
      (if keyword_start c then
         match keywords !! String c w with
         | Some kw => mkCell kw (data (ct (cs st)))
         | None => Cell_string (String c w)
         end
       else Cell_string (String c w)) st.
Proof.
  intros Hs Ho Hd Hl He Hip. unfold get, bindM, get_state. rewrite Hip.
  pose proof Hs as Hs'. cbn [list_ascii_of_string forallb] in Hs'.
  apply andb_true_iff in Hs' as [Hc _]. apply negb_true_iff in Hc.
  change (list_ascii_of_string (String c w) ++ ?r)
    with (c :: list_ascii_of_string w ++ r).
  rewrite skip_space_head by exact Hc. rewrite Ho, Hd.
  change (c :: list_ascii_of_string w ++ ?r)
    with (list_ascii_of_string (String c w) ++ r).
  rewrite read_word_app by exact Hs. rewrite read_word_rps by exact He.
  cbn [fst snd]. rewrite strip_rp_word; [ | discriminate | exact Hl].
  destruct (keyword_start c); [ | reflexivity].
  destruct (keywords !! String c w); reflexivity.
Qed.

Lemma plain_name_parts name :
  plain_name name = true ->
  exists c w, name = String c w
    /\ forallb (fun a => negb (isspace a)) (list_ascii_of_string name) = true
    /\ Kind.of_operator_char c = None /\ isdigit c = false
    /\ last_char name <> Some ")"%char /\ keywords !! name = None.
Proof.
  destruct name as [ | c w]; [discriminate | ]. unfold plain_name. intros H.
  apply andb_true_iff in H as [H H5]. apply andb_true_iff in H as [H H4].
  apply andb_true_iff in H as [H H3]. apply andb_true_iff in H as [H H2].
  apply bool_decide_eq_true_1 in H2, H4, H5. apply negb_true_iff in H3.
  exists c, w. auto 10.
Qed.

Lemma operator_is_no_space c k : Kind.of_operator_char c = Some k -> isspace c = false.
Proof.
  destruct c as [[] [] [] [] [] [] [] []]; cbn; first [discriminate | reflexivity].
Qed.

(** An operator character is a token of its own. *)
Lemma get_operator ws c tl k st :
  forallb isspace ws = true -> Kind.of_operator_char c = Some k ->
  ip (cs st) = ws ++ c :: tl ->
  get read_double st
  = (Ok (Cell_kind k), set_cs (mkStream tl (old (cs st)) (Cell_kind k)) st).
Proof.
  intros Hw Ho E. rewrite (get_after_space ws (c :: tl) st Hw E).
  unfold get, bindM, get_state. cbn [cs set_cs ip set_ip].
  rewrite skip_space_head by (eapply operator_is_no_space; eassumption).
  rewrite Ho. reflexivity.
Qed.

Lemma get_name ws name k rest st :
  forallb isspace ws = true -> plain_name name = true -> word_end rest = true ->
  ip (cs st) = ws ++ list_ascii_of_string name ++ replicate k ")"%char ++ rest ->
  get read_double st
  = (Ok (Cell_string name),
     set_cs (mkStream (replicate k ")"%char ++ rest) (old (cs st)) (Cell_string name)) st).
Proof.
  intros Hw Hp He E. rewrite (get_after_space ws _ st Hw E).
  destruct (plain_name_parts name Hp) as (c & w & -> & Hs & Ho & Hd & Hl & Hk).
  set (st1 := set_cs _ st).
  rewrite (get_word c w k rest st1 Hs Ho Hd Hl He eq_refl), Hk.
  destruct (keyword_start c); reflexivity.
Qed.

(** X6: A word is all the characters up to the next white space, but for the
    closing parentheses at its end: the lexer returns the name without them
    and puts them back, so that they are the next tokens. *)
Theorem get_reads_a_name_and_leaves_the_parentheses name k rest st :
  plain_name name = true -> word_end rest = true ->
  ip (cs st) = list_ascii_of_string name ++ replicate k ")"%char ++ rest ->
  get read_double st
  = (Ok (Cell_string name),
     set_cs (mkStream (replicate k ")"%char ++ rest) (old (cs st)) (Cell_string name)) st).
Proof.
  intros Hp He Hip. apply (get_name [] name k rest st eq_refl Hp He Hip).
Qed.

(** X7: Every spelling of the keyword table but [begin] is read as the kind the
    table gives it.  The token keeps the [data] of the token before it: the
    lexer assigns [ct.kind] only. *)
Theorem get_reads_the_keywords w kw k rest st :
  keywords !! w = Some kw -> w <> "begin" -> word_end rest = true ->
  ip (cs st) = list_ascii_of_string w ++ replicate k ")"%char ++ rest ->
  get read_double st
  = (Ok (mkCell kw (data (ct (cs st)))),
     set_cs (mkStream (replicate k ")"%char ++ rest) (old (cs st))
               (mkCell kw (data (ct (cs st))))) st).
Proof.
  intros Hk Hb He Hip. pose proof Hk as Hin.
  apply elem_of_list_to_map_2 in Hin.
  repeat (apply elem_of_cons in Hin as [Hin | Hin];
          [injection Hin as -> ->;
           first [ congruence
                 | lazymatch type of Hip with
                   | _ = list_ascii_of_string (String ?c ?w) ++ _ =>
                       rewrite (get_word c w k rest st);
                       [ | reflexivity | reflexivity | reflexivity | discriminate
                         | exact He | exact Hip ]
                   end;
                   cbv iota beta delta [keyword_start]; rewrite Hk; reflexivity ]
          | ]).
  apply elem_of_nil in Hin. contradiction.
Qed.

End Tokens.

(** ** The printer and the parser *)

Section Texts.

Variable show_double : float -> string.
Variable read_double : list ascii -> float * list ascii.

Lemma print_visitor_list e k l :
  print_visitor show_double e (mkCell k (DList l))
  = "(" +:+ match l with
            | [] => ""
            | p :: _ => kind_prefix p +:+ print_elements show_double l
            end +:+ ")" +:+ e.
Proof. destruct l; reflexivity. Qed.

(** What is written for a cell is read off its [data]. *)
Lemma print_visitor_data e c c' :
  data c = data c' -> print_visitor show_double e c = print_visitor show_double e c'.
Proof. destruct c as [k d], c' as [k' d']. cbn. intros ->. reflexivity. Qed.

Lemma print_elements_data l l' :
  map data l = map data l' ->
  print_elements show_double l = print_elements show_double l'.
Proof.
  revert l'. induction l as [ | x l IH]; intros [ | x' l'] H; try discriminate;
    [reflexivity | ].
  cbn in H. injection H as Hx H. specialize (IH l' H).
  cbn [print_elements]. destruct l as [ | y l], l' as [ | y' l']; try discriminate.
  - apply print_visitor_data, Hx.
  - rewrite IH. f_equal. apply print_visitor_data, Hx.
Qed.

(** X8: In the text of a list the kind of an element shows for the first element
    only: two lists with the same first cell whose other cells have the same
    [data] are printed alike, whatever the kinds of those cells.  So the
    lists [(t f)] and [(t t)] of truth values both read [(t )]. *)
Theorem print_shows_the_kind_of_the_first_element_only x l l' :
  map data l = map data l' ->
  print_string show_double (Cell_list (x :: l))
  = print_string show_double (Cell_list (x :: l')).
Proof.
  intros H. unfold print_string, Cell_list. rewrite !print_visitor_list.
  rewrite (print_elements_data (x :: l) (x :: l')); [reflexivity | ].
  cbn. rewrite H. reflexivity.
Qed.

(** *** Reading back what was printed *)

Lemma plain_cases x :
  plain x = true ->
  (exists s, x = Cell_string s /\ plain_name s = true)
  \/ (exists sub, x = Cell_list sub /\ forallb plain sub = true).
Proof.
  destruct x as [k d]. cbn [plain].
  destruct k; try discriminate; destruct d; try discriminate; intros H.
  - left. eauto.
  - right. eauto.
Qed.

Lemma plain_prefix p : plain p = true -> kind_prefix p = "".
Proof.
  intros H. destruct (plain_cases p H) as [(s & -> & _) | (sub & -> & _)]; reflexivity.
Qed.

(** The text of a plain list. *)
Lemma print_plain_list e sub :
  forallb plain sub = true ->
  print_visitor show_double e (Cell_list sub)
  = "(" +:+ print_elements show_double sub +:+ ")" +:+ e.
Proof.
  intros H. unfold Cell_list. rewrite print_visitor_list.
  destruct sub as [ | p r]; [reflexivity | ].
  cbn [forallb] in H. apply andb_true_iff in H as [Hp _].
  rewrite (plain_prefix p Hp). reflexivity.
Qed.

Lemma print_elements_cons x r :
  print_elements show_double (x :: r)
  = print_visitor show_double (gap r) x +:+ print_elements show_double r.
Proof.
  destruct r as [ | y r]; [ | reflexivity].
  cbn [print_elements gap]. symmetry. apply append_empty.
Qed.

Lemma gap_space r : forallb isspace (list_ascii_of_string (gap r)) = true.
Proof. destruct r; reflexivity. Qed.

Lemma cells_of_cons x r : cells_of (x :: r) = cells x + cells_of r.
Proof. reflexivity. Qed.

Lemma cells_list sub : cells (Cell_list sub) = S (cells_of sub).
Proof. reflexivity. Qed.

Lemma cells_positive x : 0 < cells x.
Proof. destruct x as [k []]; cbn; lia. Qed.

(** After an element of a nested list come closing parentheses, none if
    another element follows, and then white space or the end of the
    input. *)
Lemma after_element r k rest :
  word_end rest = true ->
  exists k' rest',
    list_ascii_of_string (gap r) ++ list_ascii_of_string (print_elements show_double r)
      ++ replicate (S k) ")"%char ++ rest
    = replicate k' ")"%char ++ rest'
    /\ word_end rest' = true.
Proof.
  intros He. destruct r as [ | y r].
  - exists (S k), rest. split; [reflexivity | exact He].
  - exists 0. eexists. split; reflexivity.
Qed.

(** The loop of [expr] on the text of the elements of a list, white space
    before it and the closing parenthesis of the list after it: it returns
    the elements and stops behind the parenthesis. *)
Lemma expr_loop_elements fuel :
  forall l res0 k ws rest st,
    forallb plain l = true -> cells_of l < fuel ->
    forallb isspace ws = true -> word_end rest = true ->
    ip (cs st)
    = ws ++ list_ascii_of_string (print_elements show_double l)
         ++ replicate (S k) ")"%char ++ rest ->
    expr_loop read_double fuel res0 st
    = (Ok (res0 ++ l),
       set_cs (mkStream (replicate k ")"%char ++ rest) (old (cs st)) (Cell_kind Kind.Rp)) st).
Proof.
  induction fuel as [ | fuel IH]; intros l res0 k ws rest st Hl Hf Hw He E; [lia | ].
  cbn [expr_loop]. unfold bindM at 1.
  destruct l as [ | x r].
  - (* the closing parenthesis *)
    cbn [print_elements list_ascii_of_string replicate app] in E.
    rewrite (get_operator read_double ws ")" _ Kind.Rp st Hw eq_refl E).
    cbn [kind Cell_kind]. rewrite app_nil_r. reflexivity.
  - cbn [forallb] in Hl. apply andb_true_iff in Hl as [Hx Hr].
    rewrite cells_of_cons in Hf. pose proof (cells_positive x) as Hpos.
    rewrite print_elements_cons, list_ascii_app in E.
    destruct (after_element r k rest He) as (k' & rest' & Ea & He').
    destruct (plain_cases x Hx) as [(s & -> & Hs) | (sub & -> & Hsub)].
    + (* a name *)
      change (print_visitor show_double (gap r) (Cell_string s)) with (s +:+ gap r) in E.
      rewrite list_ascii_app, <- !app_assoc in E.
      pose proof E as E'. rewrite Ea in E'.
      rewrite (get_name read_double ws s k' rest' st Hw Hs He' E').
      cbn [kind Cell_string]. rewrite <- Ea.
      rewrite (IH r (res0 ++ [Cell_string s]) k (list_ascii_of_string (gap r)) rest);
        [ | exact Hr | lia | apply gap_space | exact He | reflexivity ].
      rewrite <- app_assoc. reflexivity.
    + (* a nested list *)
      rewrite (print_plain_list _ sub Hsub) in E.
      rewrite !list_ascii_app, <- !app_assoc in E.
      change (list_ascii_of_string "(" ++ ?t) with ("("%char :: t) in E.
      change (list_ascii_of_string ")" ++ ?t) with (")"%char :: t) in E.
      rewrite (get_operator read_double ws "(" _ Kind.Lp st Hw eq_refl E).
      cbn [kind Cell_kind]. rewrite cells_list in Hf.
      rewrite Ea in E.
      unfold bindM at 1.
      rewrite (IH sub [] k' [] rest');
        [ | exact Hsub | lia | reflexivity | exact He' | rewrite Ea; reflexivity ].
      unfold bindM at 1. cbn [current get_state ret bindM cs set_cs ct kind Cell_kind].
      rewrite <- Ea.
      rewrite (IH r (res0 ++ [Cell_list sub]) k (list_ascii_of_string (gap r)) rest);
        [ | exact Hr | lia | apply gap_space | exact He | reflexivity ].
      rewrite <- app_assoc. reflexivity.
Qed.

(** X9: The parser reads back what the printer writes: for a list [l] of plain
    names and of lists of such, [expr(true)] on the text [print] writes for
    [l] returns [l], given more fuel than [l] has cells, and stops behind the
    closing parenthesis, in front of the space that ends the text. *)
Theorem expr_reads_back_what_print_writes fuel l rest st :
  forallb plain l = true -> cells_of l < fuel ->
  ip (cs st) = list_ascii_of_string (print_string show_double (Cell_list l)) ++ rest ->
  expr read_double fuel true st
  = (Ok l, set_cs (mkStream (" "%char :: rest) (old (cs st)) (Cell_kind Kind.Rp)) st).
Proof.
  intros Hl Hf E. destruct fuel as [ | fuel]; [lia | ].
  unfold print_string in E. change (kind_prefix (Cell_list l)) with "" in E.
  change ("" +:+ ?t) with t in E.
  rewrite (print_plain_list _ l Hl), !list_ascii_app, <- !app_assoc in E.
  change (list_ascii_of_string "(" ++ ?t) with ("("%char :: t) in E.
  change (list_ascii_of_string ")" ++ ?t) with (")"%char :: t) in E.
  change (list_ascii_of_string " " ++ ?t) with (" "%char :: t) in E.
  unfold expr. cbn [eat_first]. unfold bindM at 1 2.
  rewrite (get_operator read_double [] "(" _ Kind.Lp st eq_refl eq_refl E).
  cbn [kind Cell_kind ret].
  rewrite (expr_loop_elements (S fuel) l [] 0 [] (" "%char :: rest));
    [reflexivity | exact Hl | exact Hf | reflexivity | reflexivity | reflexivity].
Qed.

(** *** The end of the input *)

(** After an element of the outermost list come white space or the end of
    the input. *)
Lemma after_top_element r :
  word_end (list_ascii_of_string (gap r)
            ++ list_ascii_of_string (print_elements show_double r)) = true.
Proof. destruct r; reflexivity. Qed.

(** The elements of a list whose closing parenthesis is missing, the input
    ending after the last of them: the loop returns them at the token
    [End]. *)
Lemma expr_loop_to_the_end fuel :
  forall l res0 ws st,
    forallb plain l = true -> cells_of l < fuel ->
    forallb isspace ws = true ->
    ip (cs st) = ws ++ list_ascii_of_string (print_elements show_double l) ->
    expr_loop read_double fuel res0 st
    = (Ok (res0 ++ l),
       set_cs (mkStream [] (old (cs st)) (Cell_kind Kind.End)) st).
Proof.
  induction fuel as [ | fuel IH]; intros l res0 ws st Hl Hf Hw E; [lia | ].
  cbn [expr_loop]. unfold bindM at 1.
  destruct l as [ | x r].
  - cbn [print_elements list_ascii_of_string] in E. rewrite app_nil_r in E.
    rewrite (get_at_end read_double ws st Hw E).
    cbn [kind Cell_kind]. rewrite app_nil_r. reflexivity.
  - cbn [forallb] in Hl. apply andb_true_iff in Hl as [Hx Hr].
    rewrite cells_of_cons in Hf. pose proof (cells_positive x) as Hpos.
    rewrite print_elements_cons, list_ascii_app in E.
    destruct (plain_cases x Hx) as [(s & -> & Hs) | (sub & -> & Hsub)].
    + change (print_visitor show_double (gap r) (Cell_string s)) with (s +:+ gap r) in E.
      rewrite list_ascii_app, <- !app_assoc in E.
      rewrite (get_name read_double ws s 0 _ st Hw Hs (after_top_element r) E).
      cbn [kind Cell_string replicate app].
      rewrite (IH r (res0 ++ [Cell_string s]) (list_ascii_of_string (gap r)));
        [ | exact Hr | lia | apply gap_space | reflexivity ].
      rewrite <- app_assoc. reflexivity.
    + rewrite (print_plain_list _ sub Hsub) in E.
      rewrite !list_ascii_app, <- !app_assoc in E.
      change (list_ascii_of_string "(" ++ ?t) with ("("%char :: t) in E.
      change (list_ascii_of_string ")" ++ ?t) with (")"%char :: t) in E.
      rewrite (get_operator read_double ws "(" _ Kind.Lp st Hw eq_refl E).
      cbn [kind Cell_kind]. rewrite cells_list in Hf.
      unfold bindM at 1.
      rewrite (expr_loop_elements fuel sub [] 0 []
                 (list_ascii_of_string (gap r)
                  ++ list_ascii_of_string (print_elements show_double r)));
        [ | exact Hsub | lia | reflexivity | apply after_top_element | reflexivity ].
      unfold bindM at 1. cbn [current get_state ret bindM cs set_cs ct kind Cell_kind].
      cbn [replicate app].
      rewrite (IH r (res0 ++ [Cell_list sub]) (list_ascii_of_string (gap r)));
        [ | exact Hr | lia | apply gap_space | reflexivity ].
      rewrite <- app_assoc. reflexivity.
Qed.

(** X10: A closing parenthesis that is missing at the end of the input is an
    error for a nested list only.  When the input ends inside the outermost
    list, [expr(true)] returns what it has read as if the list were closed;
    when it ends inside a list one level down, [expr] throws "')'
    expected". *)
Theorem a_missing_parenthesis_is_an_error_in_a_nested_list_only fuel l st :
  forallb plain l = true -> S (cells_of l) < fuel ->
  (ip (cs st) = "("%char :: list_ascii_of_string (print_elements show_double l) ->
   fst (expr read_double fuel true st) = Ok l)
  /\ (ip (cs st)
      = "("%char :: "("%char :: list_ascii_of_string (print_elements show_double l) ->
      fst (expr read_double fuel true st) = Err (runtime_error "')' expected")).
Proof.
  intros Hl Hf. destruct fuel as [ | fuel]; [lia | ]. split; intros E.
  - unfold expr. cbn [eat_first]. unfold bindM at 1 2.
    rewrite (get_operator read_double [] "(" _ Kind.Lp st eq_refl eq_refl E).
    cbn [kind Cell_kind ret].
    rewrite (expr_loop_to_the_end (S fuel) l [] []);
      [reflexivity | exact Hl | lia | reflexivity | reflexivity].
  - unfold expr. cbn [eat_first]. unfold bindM at 1 2.
    rewrite (get_operator read_double [] "(" _ Kind.Lp st eq_refl eq_refl E).
    cbn [kind Cell_kind ret expr_loop]. unfold bindM at 1.
    rewrite (get_operator read_double [] "("
               (list_ascii_of_string (print_elements show_double l)) Kind.Lp)
      by reflexivity.
    cbn [kind Cell_kind]. unfold bindM at 1.
    rewrite (expr_loop_to_the_end fuel l [] []);
      [reflexivity | exact Hl | lia | reflexivity | reflexivity].
Qed.

(** *** Comments *)

#[local] Set Warnings "-abstract-large-number".

Lemma ignore_line n text tl :
  Forall (fun c => c <> "010"%char) text -> length text < n ->
  ignore n (text ++ "010"%char :: tl) = tl.
Proof.
  revert text. induction n as [ | n IH]; intros text Ht Hn; [lia | ].
  destruct text as [ | c text].
  - reflexivity.
  - cbn [app ignore]. apply Forall_cons in Ht as [Hc Ht].
    destruct (Ascii.eqb_spec c "010") as [-> | _]; [congruence | ].
    apply IH; [exact Ht | cbn in Hn; lia].
Qed.

Lemma ignore_long n text tl :
  Forall (fun c => c <> "010"%char) text -> length text = n ->
  ignore n (text ++ tl) = tl.
Proof.
  revert text. induction n as [ | n IH]; intros [ | c text] Ht Hn; try discriminate.
  - reflexivity.
  - cbn [app ignore]. apply Forall_cons in Ht as [Hc Ht].
    destruct (Ascii.eqb_spec c "010") as [-> | _]; [congruence | ].
    apply IH; [exact Ht | cbn in Hn; lia].
Qed.

(** X11: A comment inside an expression runs from the semicolon to the end of its
    line: the loop of [expr] goes on behind the newline, with the two
    messages written.  That holds for a comment of at most 9000 characters;
    of a longer line only the first 9001 characters are dropped, and the loop
    goes on with the rest of the line. *)
Theorem a_comment_ends_with_its_line fuel res ws text tl st :
  forallb isspace ws = true ->
  Forall (fun c => c <> "010"%char) text ->
  (length text < 9001 ->
   ip (cs st) = ws ++ ";"%char :: text ++ "010"%char :: tl ->
   expr_loop read_double (S fuel) res st
   = expr_loop read_double fuel res
       (set_cout ((cout st +:+ "Comment encountered" +:+ endl) +:+ "Ignoring line" +:+ endl)
          (set_cs (mkStream tl (old (cs st)) (Cell_kind Kind.Comment)) st)))
  /\ (length text = 9001 ->
      ip (cs st) = ws ++ ";"%char :: text ++ tl ->
      expr_loop read_double (S fuel) res st
      = expr_loop read_double fuel res
          (set_cout ((cout st +:+ "Comment encountered" +:+ endl) +:+ "Ignoring line" +:+ endl)
             (set_cs (mkStream tl (old (cs st)) (Cell_kind Kind.Comment)) st))).
Proof.
  intros Hw Ht. split; intros Hn E.
  - cbn [expr_loop]. unfold bindM at 1.
    rewrite (get_operator read_double ws ";" _ Kind.Comment st Hw eq_refl E).
    cbn [kind Cell_kind]. unfold ignoreln, bindM, put, modify.
    cbn [cs set_cs set_cout ip set_ip old ct cout].
    rewrite (ignore_line 9001 text tl Ht Hn). reflexivity.
  - cbn [expr_loop]. unfold bindM at 1.
    rewrite (get_operator read_double ws ";" _ Kind.Comment st Hw eq_refl E).
    cbn [kind Cell_kind]. unfold ignoreln, bindM, put, modify.
    cbn [cs set_cs set_cout ip set_ip old ct cout].
    rewrite (ignore_long 9001 text tl Ht Hn). reflexivity.
Qed.

End Texts.

(** ** Environments *)

Lemma deref_eq p st e : fst (deref p st) = Ok e -> deref p st = (Ok e, st).
Proof.
  intros H. rewrite (surjective_pairing (deref p st)), H, deref_state. reflexivity.
Qed.

(** [*p] fails only where using the pointer is undefined. *)
Lemma deref_error q st x : fst (deref q st) = Err x -> exists w, x = undefined w.
Proof.
  destruct q as [ | i | i]; cbn -[Nat.ltb].
  - discriminate.
  - destruct (i <? _)%nat; [intros [= <-]; eauto | ].
    destruct (envs st !! i); [discriminate | intros [= <-]; eauto].
  - destruct (locals st !! i) as [[e [ | ]] | ]; [discriminate | | ];
      intros [= <-]; eauto.
Qed.

(** [*p] reads the frames and nothing else. *)
Lemma deref_frames q st st' :
  e0 st = e0 st' -> envs st = envs st' -> locals st = locals st' ->
  envs_moved (storage st) = envs_moved (storage st') ->
  fst (deref q st) = fst (deref q st').
Proof.
  intros H0 He Hl Hm. destruct q as [ | i | i]; cbn -[Nat.ltb];
    rewrite ?H0, ?He, ?Hl, ?Hm.
  - reflexivity.
  - destruct (i <? _)%nat; [reflexivity | ]. destruct (envs st' !! i); reflexivity.
  - destruct (locals st' !! i) as [[e [ | ]] | ]; reflexivity.
Qed.

Lemma lookup_state p n st : snd (lookup p n st) = st.
Proof.
  unfold lookup, bindM, get_state.
  rewrite (surjective_pairing (findframe _ p n st)), findframe_state.
  destruct (fst (findframe _ p n st)) as [fr | x]; [ | reflexivity].
  rewrite (surjective_pairing (deref fr st)), deref_state.
  destruct (fst (deref fr st)) as [e | x]; [ | reflexivity].
  destruct (env_map e !! n); reflexivity.
Qed.

(** A name the frame itself holds is found there, whatever the frames
    around it hold. *)
Lemma lookup_here p n v st e :
  fst (deref p st) = Ok e -> env_map e !! n = Some v ->
  fst (lookup p n st) = Ok v.
Proof.
  intros Hd Hn. apply deref_eq in Hd.
  unfold lookup, bindM, get_state. cbn [findframe]. unfold bindM.
  rewrite Hd, Hn. cbn [ret]. rewrite Hd, Hn. reflexivity.
Qed.

Lemma deref_after_assign p n v st e :
  fst (deref p st) = Ok e ->
  fst (deref p (snd (assign p n v st)))
  = Ok (mkEnv (<[n := v]> (env_map e)) (outer e)).
Proof.
  intros Hd. pose proof (deref_eq _ _ _ Hd) as Hd'.
  unfold assign, bindM. rewrite Hd'.
  destruct p as [ | i | i]; cbn -[Nat.ltb] in *.
  - reflexivity.
  - destruct (i <? _)%nat; [discriminate | ].
    destruct (envs st !! i) as [e' | ] eqn:E; [ | discriminate].
    rewrite list_lookup_insert_eq; [reflexivity | ].
    apply lookup_lt_is_Some. eauto.
  - destruct (locals st !! i) as [[e' [ | ]] | ] eqn:E; try discriminate.
    rewrite list_lookup_insert_eq; [reflexivity | ].
    apply lookup_lt_is_Some. eauto.
Qed.

Lemma assign_returns p n v st e :
  fst (deref p st) = Ok e -> fst (assign p n v st) = Ok tt.
Proof.
  intros Hd. unfold assign, bindM. rewrite (deref_eq _ _ _ Hd).
  destruct p; reflexivity.
Qed.

Lemma lookup_assigned p n v st e :
  fst (deref p st) = Ok e -> fst (lookup p n (snd (assign p n v st))) = Ok v.
Proof.
  intros Hd. eapply lookup_here.
  - apply deref_after_assign, Hd.
  - cbn. apply lookup_insert_eq.
Qed.

(** X12: What an assignment stores, [p->lookup(n)] returns: an assignment to a
    frame that can be used is followed by a lookup of the same name from that
    frame that gives the value assigned. *)
Theorem lookup_after_assign p n v st e :
  fst (deref p st) = Ok e ->
  fst (assign p n v st) = Ok tt
  /\ fst (lookup p n (snd (assign p n v st))) = Ok v.
Proof.
  intros Hd. split; [eapply assign_returns | eapply lookup_assigned]; exact Hd.
Qed.

(** Two states whose frames agree on the name [n] and on their [outer]
    links give the same result for a lookup of [n]. *)
Lemma findframe_agree n st st' :
  (forall q, match fst (deref q st), fst (deref q st') with
             | Ok a, Ok b => outer a = outer b /\ env_map a !! n = env_map b !! n
             | Err x, Err y => x = y
             | _, _ => Logic.False
             end) ->
  forall depth q, fst (findframe depth q n st) = fst (findframe depth q n st').
Proof.
  intros H depth. induction depth as [ | depth IH]; intros q; [reflexivity | ].
  cbn [findframe]. unfold bindM. specialize (H q).
  rewrite (surjective_pairing (deref q st)), (surjective_pairing (deref q st')).
  rewrite !deref_state.
  destruct (fst (deref q st)) as [a | x], (fst (deref q st')) as [b | y];
    try contradiction.
  - destruct H as [Ho Hn]. rewrite <- Hn, <- Ho.
    destruct (env_map a !! n); [reflexivity | ].
    destruct (outer a); [apply IH | reflexivity].
  - cbn. congruence.
Qed.

Lemma lookup_agree n st st' :
  length (envs st) = length (envs st') ->
  length (locals st) = length (locals st') ->
  (forall q, match fst (deref q st), fst (deref q st') with
             | Ok a, Ok b => outer a = outer b /\ env_map a !! n = env_map b !! n
             | Err x, Err y => x = y
             | _, _ => Logic.False
             end) ->
  forall q, fst (lookup q n st) = fst (lookup q n st').
Proof.
  intros He Hl H q. unfold lookup, bindM, get_state. rewrite <- He, <- Hl.
  pose proof (findframe_agree n st st' H (S (length (envs st) + length (locals st))) q) as Hf.
  rewrite (surjective_pairing (findframe _ q n st)),
          (surjective_pairing (findframe _ q n st')).
  rewrite !findframe_state, <- Hf.
  destruct (fst (findframe _ q n st)) as [fr | x]; [ | reflexivity].
  specialize (H fr).
  rewrite (surjective_pairing (deref fr st)), (surjective_pairing (deref fr st')).
  rewrite !deref_state.
  destruct (fst (deref fr st)) as [a | x], (fst (deref fr st')) as [b | y];
    try contradiction.
  - destruct H as [_ Hn]. rewrite Hn. destruct (env_map b !! n); reflexivity.
  - cbn. congruence.
Qed.

Lemma assign_state p n v st :
  snd (assign p n v st) = st
  \/ exists e, fst (deref p st) = Ok e
       /\ snd (assign p n v st)
          = snd (store p (mkEnv (<[n := v]> (env_map e)) (outer e)) st).
Proof.
  unfold assign, bindM.
  rewrite (surjective_pairing (deref p st)), deref_state.
  destruct (fst (deref p st)) as [e | x]; [right; eauto | left; reflexivity].
Qed.

(** X13: An assignment to one name changes the value of no other: a lookup of
    another name, from any frame, gives after the assignment what it gave
    before it, be it a value or a failure. *)
Theorem assign_leaves_other_names p q n n' v st :
  n <> n' ->
  fst (lookup q n' (snd (assign p n v st))) = fst (lookup q n' st).
Proof.
  intros Hn. destruct (assign_state p n v st) as [-> | (e & Hd & ->)]; [reflexivity | ].
  symmetry. apply lookup_agree.
  - destruct p; cbn; [reflexivity | rewrite length_insert; reflexivity | reflexivity].
  - destruct p; cbn; [reflexivity | reflexivity | rewrite length_insert; reflexivity].
  - intros r. destruct (decide (r = p)) as [-> | Hr].
    + rewrite Hd.
      replace (fst (deref p (snd (store p _ st))))
        with (@Ok Env (mkEnv (<[n := v]> (env_map e)) (outer e))).
      * cbn. split; [reflexivity | ]. symmetry. apply lookup_insert_ne, Hn.
      * symmetry. rewrite <- (deref_after_assign p n v st e Hd).
        unfold assign, bindM. rewrite (deref_eq _ _ _ Hd). reflexivity.
    + assert (E : fst (deref r (snd (store p (mkEnv (<[n := v]> (env_map e)) (outer e)) st)))
                  = fst (deref r st)).
      { destruct p as [ | i | i], r as [ | j | j]; cbn -[Nat.ltb];
          try reflexivity; try congruence.
        all: try (rewrite list_lookup_insert_ne by congruence).
        all: first [ destruct (j <? _)%nat; [reflexivity | ];
                     destruct (envs st !! j); reflexivity
                   | destruct (locals st !! j) as [[? [ | ]] | ]; reflexivity ]. }
      rewrite E. destruct (fst (deref r st)); auto.
Qed.

(** X14: A lookup from the global frame, which has no frame around it, gives the
    value the frame holds for the name, and throws "Unbound variable" when it
    holds none. *)
Theorem lookup_in_the_global_frame n st :
  outer (e0 st) = None ->
  fst (lookup e0_ptr n st)
  = match global st n with
    | Some v => Ok v
    | None => Err (runtime_error "Unbound variable")
    end.
Proof.
  intros Ho. unfold lookup, global, bindM, get_state. cbn [findframe]. unfold bindM. cbn.
  destruct (env_map (e0 st) !! n) eqn:E; cbn; [rewrite E; reflexivity | ].
  rewrite Ho. reflexivity.
Qed.

(** A state that has the frames of another one, and maybe more. *)
Lemma findframe_extend n st st' :
  (forall q e, fst (deref q st) = Ok e -> fst (deref q st') = Ok e) ->
  forall depth q r,
    fst (findframe depth q n st) = r ->
    match r with Ok _ | Err (runtime_error _) => Logic.True | _ => Logic.False end ->
    fst (findframe depth q n st') = r.
Proof.
  intros H depth. induction depth as [ | depth IH]; intros q r.
  - cbn. intros <- [].
  - cbn [findframe]. unfold bindM.
    rewrite (surjective_pairing (deref q st)), (surjective_pairing (deref q st')).
    rewrite !deref_state. specialize (H q).
    destruct (fst (deref q st)) as [e | x] eqn:E.
    + rewrite (H e eq_refl).
      destruct (env_map e !! n); [cbn; auto | ].
      destruct (outer e); [apply IH | cbn; auto].
    + apply deref_error in E as [w ->]. cbn. intros <- [].
Qed.

(** ** Calls and definitions *)

Section Calls.

Variable show_double : float -> string.

Lemma bindings_other names args m n :
  n ∉ names -> bindings names args m !! n = m !! n.
Proof.
  revert args m. induction names as [ | x names IH]; intros [ | a args] m Hn;
    try reflexivity.
  apply not_elem_of_cons in Hn as [Hx Hn].
  unfold bindings. cbn. fold (bindings names args (<[x := a]> m)).
  rewrite IH by exact Hn. apply lookup_insert_ne. congruence.
Qed.

Lemma bindings_at names args m i n v :
  NoDup names -> names !! i = Some n -> args !! i = Some v ->
  bindings names args m !! n = Some v.
Proof.
  revert args m i. induction names as [ | x names IH]; intros [ | a args] m [ | i] Hd;
    try discriminate.
  - intros [= ->] [= ->]. apply NoDup_cons in Hd as [Hx _].
    unfold bindings. cbn. fold (bindings names args (<[n := v]> m)).
    rewrite bindings_other by exact Hx. apply lookup_insert_eq.
  - cbn. intros Hn Hv. apply NoDup_cons in Hd as [_ Hd].
    unfold bindings. cbn. fold (bindings names args (<[x := a]> m)).
    eapply IH; eassumption.
Qed.

Lemma bind_loop_bindings names ps args newenv st :
  map data ps = map DStr names -> length names = length args ->
  exists o,
    bind_loop show_double ps args newenv st
    = (Ok (mkEnv (bindings names args (env_map newenv)) (outer newenv)),
       set_cout o st).
Proof.
  revert ps args newenv st.
  induction names as [ | x names IH]; intros [ | p ps] [ | a args] newenv st Hp Hl;
    try discriminate.
  - exists (cout st). destruct newenv, st. reflexivity.
  - cbn in Hp. injection Hp as Hx Hp. injection Hl as Hl.
    cbn [bind_loop]. unfold bindM at 1. cbn [put modify].
    unfold bindM at 1. rewrite Hx. cbn [get_string ret].
    unfold bindM at 1. cbn [put modify].
    unfold bindM at 1. cbn [print put modify].
    unfold bindM at 1. cbn [put modify].
    match goal with |- context [bind_loop _ ps args ?e ?s] =>
      destruct (IH ps args e s Hp Hl) as [o Ho]; rewrite Ho end.
    exists o. reflexivity.
Qed.

(** What [envs.push_back(e)] leaves: one more element, and a mark that went
    up to the old size if the vector was full. *)
Lemma envs_push_back_state e st :
  envs_push_back e st = (Ok tt, snd (envs_push_back e st)).
Proof. reflexivity. Qed.

Lemma envs_push_back_frames e st :
  envs (snd (envs_push_back e st)) = envs st ++ [e]
  /\ e0 (snd (envs_push_back e st)) = e0 st
  /\ locals (snd (envs_push_back e st)) = locals st.
Proof.
  unfold envs_push_back, modify. cbv beta zeta. cbn [snd].
  destruct (grown _ _ _) as [c m]. repeat split.
Qed.

Lemma envs_push_back_moved e st :
  envs_moved (storage (snd (envs_push_back e st)))
  = if (N.of_nat (length (envs st)) <? envs_capacity (storage st))%N
    then envs_moved (storage st) else length (envs st).
Proof.
  unfold envs_push_back, modify, grown. cbv beta zeta. cbn [snd].
  destruct (_ <? _)%N; reflexivity.
Qed.

Lemma deref_envs i st :
  fst (deref (envs_ptr i) st)
  = if (i <? envs_moved (storage st))%nat
    then Err (undefined "use of an element of envs after the vector moved")
    else match envs st !! i with
         | Some e => Ok e
         | None => Err (undefined "no such element of envs")
         end.
Proof.
  unfold deref, bindM, get_state.
  destruct (i <? _)%nat; [reflexivity | ]. destruct (envs st !! i); reflexivity.
Qed.

(** The frame [Parser::bind] pushes. *)
Lemma bind_frame names ps args env st :
  map data ps = map DStr names -> length names = length args ->
  exists o,
    bind show_double ps args env st
    = (Ok (envs_ptr (length (envs st))),
       snd (envs_push_back (mkEnv (bindings names args ∅) (Some env))
              (set_cout o st))).
Proof.
  intros Hp Hl. unfold bind.
  assert (E : length ps = length args).
  { rewrite <- Hl, <- (length_map data ps), Hp, length_map. reflexivity. }
  rewrite E, Nat.eqb_refl. cbn [negb]. unfold bindM at 1.
  destruct (bind_loop_bindings names ps args (mkEnv ∅ (Some env)) st Hp Hl) as [o Ho].
  rewrite Ho. exists o. reflexivity.
Qed.

(** While [envs] has room, a push leaves every frame where it was. *)
Lemma bind_extends e' o st q e :
  (N.of_nat (length (envs st)) < envs_capacity (storage st))%N ->
  fst (deref q st) = Ok e ->
  fst (deref q (snd (envs_push_back e' (set_cout o st)))) = Ok e.
Proof.
  intros Hroom. apply N.ltb_lt in Hroom.
  destruct q as [ | i | i].
  - unfold deref, bindM, get_state. cbn [fst ret].
    destruct (envs_push_back_frames e' (set_cout o st)) as (_ & -> & _). auto.
  - rewrite !deref_envs, envs_push_back_moved.
    destruct (envs_push_back_frames e' (set_cout o st)) as (-> & _ & _).
    cbn [envs storage set_cout]. rewrite Hroom.
    destruct (i <? _)%nat; [discriminate | ].
    destruct (envs st !! i) as [e1 | ] eqn:E; [ | discriminate].
    rewrite (lookup_app_l_Some _ _ _ _ E). auto.
  - unfold deref, bindM, get_state. cbn [fst ret].
    destruct (envs_push_back_frames e' (set_cout o st)) as (_ & _ & ->).
    cbn [locals set_cout]. destruct (locals st !! i) as [[e1 [ | ]] | ]; auto.
Qed.

(** X15: [Parser::bind], given as many arguments as parameters, the names of the
    parameters being distinct, in a state whose mark for [envs] is within the
    vector: it pushes one frame on [envs], leaves the contents of the frames
    that were there and the global frame as they were, and returns the
    address of the new frame.  From that frame the name of a parameter is
    looked up to the argument at its position.  While [envs] has room, any
    other name is looked up to what a lookup from [env], the frame the
    procedure was made in, gave before the call, a value or "Unbound
    variable".  When [envs] is full, the push moves the vector: if [env] is
    the address of one of its elements, the lookup of such a name from the
    new frame follows an [outer] link that dangles. *)
Theorem bind_makes_the_call_frame names ps args env st :
  map data ps = map DStr names -> length names = length args -> NoDup names ->
  envs_moved (storage st) <= length (envs st) ->
  exists st',
    bind show_double ps args env st = (Ok (envs_ptr (length (envs st))), st')
    /\ e0 st' = e0 st
    /\ length (envs st') = S (length (envs st))
    /\ (forall i e, envs st !! i = Some e -> envs st' !! i = Some e)
    /\ (forall i n v, names !! i = Some n -> args !! i = Some v ->
          fst (lookup (envs_ptr (length (envs st))) n st') = Ok v)
    /\ ((N.of_nat (length (envs st)) < envs_capacity (storage st))%N ->
        forall n r, n ∉ names -> fst (lookup env n st) = r ->
          match r with Ok _ | Err (runtime_error _) => Logic.True | _ => Logic.False end ->
          fst (lookup (envs_ptr (length (envs st))) n st') = r)
    /\ ((envs_capacity (storage st) <= N.of_nat (length (envs st)))%N ->
        forall j n, env = envs_ptr j -> j < length (envs st) -> n ∉ names ->
          fst (lookup (envs_ptr (length (envs st))) n st')
          = Err (undefined "use of an element of envs after the vector moved")).
Proof.
  intros Hp Hl Hd Hwf. destruct (bind_frame names ps args env st Hp Hl) as [o Hb].
  set (new := mkEnv (bindings names args ∅) (Some env)) in *.
  set (st' := snd (envs_push_back new (set_cout o st))) in *.
  destruct (envs_push_back_frames new (set_cout o st)) as (He & H0 & Hlo).
  fold st' in He, H0, Hlo. cbn [envs e0 locals set_cout] in He, H0, Hlo.
  pose proof (envs_push_back_moved new (set_cout o st)) as Hm.
  fold st' in Hm. cbn [envs storage set_cout] in Hm.
  exists st'. split; [exact Hb | ]. split; [exact H0 | ].
  split; [rewrite He, length_app; cbn; lia | ].
  split; [intros i e E; rewrite He; apply lookup_app_l_Some, E | ].
  assert (Hnew : fst (deref (envs_ptr (length (envs st))) st') = Ok new).
  { rewrite deref_envs, He, Hm.
    replace (length (envs st) <? _)%nat with false.
    - rewrite lookup_app_r by lia. rewrite Nat.sub_diag. reflexivity.
    - symmetry. apply Nat.ltb_ge. destruct (_ <? _)%N; lia. }
  assert (Hstep : forall n, n ∉ names ->
            fst (lookup (envs_ptr (length (envs st))) n st')
            = match fst (findframe (S (length (envs st) + length (locals st))) env n st') with
              | Ok fr => fst ((e ← deref fr; or_undefined "no such key" (env_map e !! n)) st')
              | Err x => Err x
              end).
  { intros n Hn. unfold lookup, bindM at 1 2, get_state. rewrite He, Hlo, length_app.
    cbn [length].
    replace (S (length (envs st) + 1 + length (locals st)))
      with (S (S (length (envs st) + length (locals st)))) by lia.
    set (d := S (length (envs st) + length (locals st))).
    change (findframe (S d) ?p n) with
      (e ← deref p;
       match env_map e !! n with
       | Some _ => ret p
       | None => match outer e with
                 | Some o => findframe d o n
                 | None => throw (runtime_error "Unbound variable")
                 end
       end).
    unfold bindM at 1.
    rewrite (surjective_pairing (deref _ st')), deref_state, Hnew.
    unfold new at 1 2. cbn [env_map outer].
    rewrite bindings_other by exact Hn. rewrite lookup_empty.
    rewrite (surjective_pairing (findframe d env n st')), findframe_state.
    destruct (fst (findframe d env n st')); reflexivity. }
  split; [ | split].
  - intros i n v Hn Hv. eapply lookup_here; [exact Hnew | ].
    cbn. eapply bindings_at; eassumption.
  - intros Hroom n r Hn Hr Hok. rewrite (Hstep n Hn).
    unfold lookup, bindM, get_state in Hr. cbn [fst snd] in Hr.
    set (d := S (length (envs st) + length (locals st))) in *.
    assert (Hx : forall q e, fst (deref q st) = Ok e -> fst (deref q st') = Ok e).
    { intros q e. apply bind_extends, Hroom. }
    rewrite (surjective_pairing (findframe d env n st)) in Hr.
    rewrite findframe_state in Hr.
    destruct (fst (findframe d env n st)) as [fr | x] eqn:Hf.
    + rewrite (findframe_extend n st st' Hx d env _ Hf I).
      unfold bindM.
      rewrite (surjective_pairing (deref fr st)) in Hr.
      rewrite (surjective_pairing (deref fr st')).
      rewrite deref_state in *.
      destruct (fst (deref fr st)) as [e | x] eqn:E.
      * rewrite (Hx fr e E). destruct (env_map e !! n); exact Hr.
      * apply deref_error in E as [w ->]. cbn in Hr. subst r. destruct Hok.
    + cbn in Hr. subst r.
      rewrite (findframe_extend n st st' Hx d env _ Hf Hok). reflexivity.
  - intros Hfull j n -> Hj Hn. rewrite (Hstep n Hn).
    cbn [findframe]. unfold bindM.
    rewrite (surjective_pairing (deref (envs_ptr j) st')), deref_state, deref_envs, Hm.
    replace (N.of_nat (length (envs st)) <? envs_capacity (storage st))%N with false
      by (symmetry; apply N.ltb_ge, Hfull).
    replace (j <? length (envs st))%nat with true by (symmetry; apply Nat.ltb_lt, Hj).
    reflexivity.
Qed.

(** [*p] for the address of an element of [procs] taken since the vector last
    moved is that element. *)
Lemma deref_Proc_at i pr st :
  procs st !! i = Some pr ->
  deref_Proc i st
  = (if (i <? procs_moved (storage st))%nat
     then Err (undefined "use of an element of procs after the vector moved")
     else Ok pr, st).
Proof.
  intros H. unfold deref_Proc, bindM, get_state. rewrite H.
  destruct (i <? _)%nat; reflexivity.
Qed.

(** X16: A procedure applied to a number of arguments that is not the number of
    its parameters: [apply] throws the error of [Parser::bind], and all it
    has done by then is to write its trace.  That is for a cell whose
    address of the procedure was taken since [procs] last moved; with an
    older one the call reads through a pointer that dangles. *)
Theorem apply_rejects_a_wrong_number_of_arguments fuel i pr args st :
  procs st !! i = Some pr -> length (params pr) <> length args ->
  exists o,
    apply show_double (S fuel) (Cell_proc i) args st
    = (Err (if (i <? procs_moved (storage st))%nat
            then undefined "use of an element of procs after the vector moved"
            else runtime_error "# of args provided and expected mismatch"),
       set_cout o st).
Proof.
  intros Hp Hl. cbn [apply]. unfold print_all.
  do 5 (unfold bindM at 1; cbn [put modify]).
  unfold bindM at 1. cbn [get_Proc data Cell_proc ret].
  unfold bindM at 1. rewrite (deref_Proc_at i pr) by exact Hp.
  cbn [storage set_cout].
  destruct (i <? _)%nat; [eexists; reflexivity | ].
  unfold bindM at 1. unfold bind.
  apply Nat.eqb_neq in Hl. rewrite Hl. cbn [negb throw].
  eexists. reflexivity.
Qed.

(** X17: [(define name value)], whoever evaluates the value: when the evaluation
    of what follows the name returns [v] and the current frame can be used,
    the [define] returns [v], and a lookup of the name from the current frame
    gives [v] afterwards. *)
Theorem define_binds_the_value (ev : List -> M Cell) env np name c rest st v st1 e :
  kind np = Kind.Name -> data np = DStr name ->
  ev (c :: rest) st = (Ok v, st1) ->
  fst (deref env st1) = Ok e ->
  fst (define ev env (np :: c :: rest) st) = Ok v
  /\ fst (lookup env name (snd (define ev env (np :: c :: rest) st))) = Ok v.
Proof.
  intros K D Hev Hd.
  assert (Ha : exists st2, assign env name v st1 = (Ok tt, st2)).
  { unfold assign, bindM. rewrite (deref_eq _ _ _ Hd). destruct env; eexists; reflexivity. }
  destruct Ha as [st2 Ha].
  assert (E : define ev env (np :: c :: rest) st = (Ok v, st2)).
  { unfold define. rewrite K, D. unfold bindM. rewrite Hev. cbn [get_string ret].
    rewrite Ha. reflexivity. }
  rewrite E. split; [reflexivity | ].
  pose proof (lookup_assigned env name v st1 e Hd) as Hl.
  rewrite Ha in Hl. exact Hl.
Qed.

(** What [procs.push_back(pr)] leaves: one more procedure, and the frames as
    they were. *)
Lemma procs_push_back_state pr st :
  procs (snd (procs_push_back pr st)) = procs st ++ [pr]
  /\ e0 (snd (procs_push_back pr st)) = e0 st
  /\ envs (snd (procs_push_back pr st)) = envs st
  /\ locals (snd (procs_push_back pr st)) = locals st
  /\ envs_moved (storage (snd (procs_push_back pr st))) = envs_moved (storage st).
Proof.
  unfold procs_push_back, modify. cbv beta zeta. cbn [snd].
  destruct (grown _ _ _) as [c m]. repeat split.
Qed.

(** X18: [(define (name params...) (body...))]: the [define] evaluates nothing.
    It appends to [procs] the procedure with these parameters and this body,
    closed over the current frame, returns the cell that points to it, and
    binds the name to that cell in the current frame. *)
Theorem define_makes_a_procedure
  (ev : List -> M Cell) env np name ps body_cell body rest st e :
  kind np = Kind.Expr -> data np = DList (Cell_string name :: ps) ->
  data body_cell = DList body ->
  fst (deref env st) = Ok e ->
  fst (define ev env (np :: body_cell :: rest) st) = Ok (Cell_proc (length (procs st)))
  /\ procs (snd (define ev env (np :: body_cell :: rest) st))
     = procs st ++ [mkProc ps body env]
  /\ fst (lookup env name (snd (define ev env (np :: body_cell :: rest) st)))
     = Ok (Cell_proc (length (procs st))).
Proof.
  intros K D B Hd.
  set (st1 := snd (procs_push_back (mkProc ps body env) st)).
  destruct (procs_push_back_state (mkProc ps body env) st) as (Hp1 & H0 & He & Hlo & Hm).
  fold st1 in Hp1, H0, He, Hlo, Hm.
  assert (Hd1 : fst (deref env st1) = Ok e).
  { rewrite <- Hd. apply deref_frames; assumption. }
  assert (Ha : exists st2, assign env name (Cell_proc (length (procs st))) st1 = (Ok tt, st2)
                           /\ procs st2 = procs st1).
  { unfold assign, bindM. rewrite (deref_eq _ _ _ Hd1).
    destruct env; eexists; split; reflexivity. }
  destruct Ha as (st2 & Ha & Hp). rewrite Hp1 in Hp.
  assert (E : define ev env (np :: body_cell :: rest) st
              = (Ok (Cell_proc (length (procs st))), st2)).
  { unfold define. rewrite K, D, B. unfold new_proc, bindM.
    cbn [get_List ret or_undefined lookup data Cell_string get_string tail
         get_state modify].
    change ((Cell_string name :: ps) !! 0) with (Some (Cell_string name)).
    cbn [or_undefined ret data Cell_string get_string].
    change (procs_push_back (mkProc ps body env) st) with (Ok tt, st1).
    cbv beta iota. cbn [ret]. rewrite Ha. reflexivity. }
  rewrite E. split; [reflexivity | ]. split; [exact Hp | ].
  pose proof (lookup_assigned env name (Cell_proc (length (procs st))) st1 e Hd1) as Hl.
  rewrite Ha in Hl. exact Hl.
Qed.

(** *** The constructor of [Env] from parameters and arguments *)

Lemma Env_bindings_short names ps args m st :
  map data ps = map DStr names -> length args < 2 * length ps ->
  exists why, fst (Env_bindings ps args m st) = Err (undefined why).
Proof.
  revert ps args m. induction names as [ | x names IH]; intros [ | p ps] args m Hp Hl;
    try discriminate.
  - cbn in Hl. lia.
  - cbn in Hp. injection Hp as Hx Hp. cbn [Env_bindings].
    destruct args as [ | v [ | w args]].
    + eexists. reflexivity.
    + unfold bindM. rewrite Hx. eexists. reflexivity.
    + unfold bindM. rewrite Hx. cbn [get_string ret].
      apply IH; [exact Hp | cbn in Hl; lia].
Qed.

Lemma Env_bindings_other names ps args m st n :
  map data ps = map DStr names -> n ∉ names ->
  forall m', fst (Env_bindings ps args m st) = Ok m' -> m' !! n = m !! n.
Proof.
  revert ps args m. induction names as [ | x names IH]; intros [ | p ps] args m Hp Hn m';
    try discriminate.
  - cbn. intros [= <-]. reflexivity.
  - cbn in Hp. injection Hp as Hx Hp. apply not_elem_of_cons in Hn as [Hnx Hn].
    cbn [Env_bindings]. destruct args as [ | v [ | w args]]; try discriminate.
    + unfold bindM. rewrite Hx. discriminate.
    + unfold bindM. rewrite Hx. cbn [get_string ret]. intros H.
      rewrite (IH ps args _ Hp Hn m' H). apply lookup_insert_ne. congruence.
Qed.

Lemma Env_bindings_at names ps args m st :
  map data ps = map DStr names -> NoDup names ->
  forall m' i n, fst (Env_bindings ps args m st) = Ok m' ->
    names !! i = Some n -> m' !! n = args !! (2 * i).
Proof.
  revert ps args m. induction names as [ | x names IH]; intros [ | p ps] args m Hp Hd m' i n;
    try discriminate.
  cbn in Hp. injection Hp as Hx Hp. apply NoDup_cons in Hd as [Hx' Hd].
  cbn [Env_bindings]. destruct args as [ | v [ | w args]]; try discriminate.
  - unfold bindM. rewrite Hx. discriminate.
  - unfold bindM. rewrite Hx. cbn [get_string ret]. intros H.
    destruct i as [ | i].
    + intros [= <-]. rewrite (Env_bindings_other names ps args _ st x Hp Hx' m' H).
      apply lookup_insert_eq.
    + cbn [lookup]. intros Hn. rewrite (IH ps args _ Hp Hd m' i n H Hn).
      replace (2 * S i) with (S (S (2 * i))) by lia. reflexivity.
Qed.

Lemma Env_bindings_long names ps args m st :
  map data ps = map DStr names -> 2 * length ps <= length args ->
  exists m', fst (Env_bindings ps args m st) = Ok m'.
Proof.
  revert ps args m. induction names as [ | x names IH]; intros [ | p ps] args m Hp Hl;
    try discriminate.
  - eexists. reflexivity.
  - cbn in Hp. injection Hp as Hx Hp. cbn [Env_bindings].
    destruct args as [ | v [ | w args]]; cbn in Hl; try lia.
    unfold bindM. rewrite Hx. cbn [get_string ret]. apply IH; [exact Hp | lia].
Qed.

(** X19: The constructor [Env(params, args, o)] moves through the arguments two
    at a time.  Given at least twice as many arguments as parameters it
    binds the parameter at position [i] to the argument at position [2 * i];
    given fewer, as many as there are parameters for instance, it reads or
    moves past the end of the arguments. *)
Theorem Env_of_parameters_takes_every_second_argument names ps args o st :
  map data ps = map DStr names ->
  if (2 * length ps <=? length args)%nat
  then exists e, fst (Env_of ps args o st) = Ok e
         /\ outer e = Some o
         /\ (NoDup names ->
             forall i n, names !! i = Some n -> env_map e !! n = args !! (2 * i))
  else exists why, fst (Env_of ps args o st) = Err (undefined why).
Proof.
  intros Hp. destruct (Nat.leb_spec (2 * length ps) (length args)) as [Hl | Hl].
  - destruct (Env_bindings_long names ps args ∅ st Hp Hl) as [m' Hm].
    exists (mkEnv m' (Some o)). unfold Env_of, bindM.
    destruct (Env_bindings ps args ∅ st) as [[m1 | x] st1] eqn:E; cbn in Hm;
      [ | discriminate].
    injection Hm as ->. split; [reflexivity | split; [reflexivity | ]].
    intros Hd i n Hn. cbn [env_map].
    eapply Env_bindings_at; [exact Hp | exact Hd | rewrite E; reflexivity | exact Hn].
  - destruct (Env_bindings_short names ps args ∅ st Hp Hl) as [why Hw].
    exists why. unfold Env_of, bindM.
    destruct (Env_bindings ps args ∅ st) as [[m1 | x] st1]; cbn in Hw; [discriminate | ].
    cbn. congruence.
Qed.

End Calls.

(** ** Values of the primitives *)

Lemma writes_only_ret {A} (a : A) : writes_only (ret a).
Proof.
  exists (Ok a), "". intros st. rewrite append_empty. destruct st; reflexivity.
Qed.

Lemma writes_only_throw {A} e : writes_only (@throw A e).
Proof.
  exists (Err e), "". intros st. rewrite append_empty. destruct st; reflexivity.
Qed.

Lemma writes_only_put s : writes_only (put s).
Proof. exists (Ok tt), s. intros st. reflexivity. Qed.

Lemma writes_only_bind {A B} (m : M A) (k : A -> M B) :
  writes_only m -> (forall a, writes_only (k a)) -> writes_only (bindM m k).
Proof.
  intros (r & s & Hm) Hk. destruct r as [a | e].
  - destruct (Hk a) as (r' & s' & Hk'). exists r', (s +:+ s'). intros st.
    unfold bindM. rewrite Hm, Hk'. cbn. rewrite append_assoc. reflexivity.
  - exists (Err e), s. intros st. unfold bindM. rewrite Hm. reflexivity.
Qed.

Lemma writes_only_or_undefined {A} why (o : option A) : writes_only (or_undefined why o).
Proof. destruct o; [apply writes_only_ret | apply writes_only_throw]. Qed.

Lemma writes_only_get_string d : writes_only (get_string d).
Proof. destruct d; first [apply writes_only_ret | apply writes_only_throw]. Qed.

Lemma writes_only_get_double d : writes_only (get_double d).
Proof. destruct d; first [apply writes_only_ret | apply writes_only_throw]. Qed.

Lemma writes_only_get_List d : writes_only (get_List d).
Proof. destruct d; first [apply writes_only_ret | apply writes_only_throw]. Qed.

Lemma writes_only_less_visitor v d : writes_only (less_visitor v d).
Proof. destruct d, v; first [apply writes_only_ret | apply writes_only_throw]. Qed.

Lemma writes_only_equal_visitor v d : writes_only (equal_visitor v d).
Proof. destruct d, v; first [apply writes_only_ret | apply writes_only_throw]. Qed.

Lemma writes_only_fold_double op res l : writes_only (fold_double op res l).
Proof.
  revert res. induction l as [ | p l IH]; intros res; cbn [fold_double].
  - apply writes_only_ret.
  - apply writes_only_bind; [apply writes_only_get_double | intros n; apply IH].
Qed.

Lemma writes_only_fold_string res l : writes_only (fold_string res l).
Proof.
  revert res. induction l as [ | p l IH]; intros res; cbn [fold_string].
  - apply writes_only_ret.
  - apply writes_only_bind; [apply writes_only_get_string | intros n; apply IH].
Qed.

(** One step of a proof that a sequence of statements only writes, chosen by
    the form of the statement. *)
Ltac writes_step :=
  lazymatch goal with
  | |- writes_only (ret _) => apply writes_only_ret
  | |- writes_only (throw _) => apply writes_only_throw
  | |- writes_only (put _) => apply writes_only_put
  | |- writes_only (bindM _ _) => apply writes_only_bind; [ | intros ?]
  | |- writes_only (or_undefined _ _) => apply writes_only_or_undefined
  | |- writes_only (fold_double _ _ _) => apply writes_only_fold_double
  | |- writes_only (fold_string _ _) => apply writes_only_fold_string
  | |- writes_only (get_string _) => apply writes_only_get_string
  | |- writes_only (get_double _) => apply writes_only_get_double
  | |- writes_only (get_List _) => apply writes_only_get_List
  | |- writes_only (less_visitor _ _) => apply writes_only_less_visitor
  | |- writes_only (equal_visitor _ _) => apply writes_only_equal_visitor
  | |- writes_only (match ?x with _ => _ end) => destruct x
  | |- writes_only (if ?b then _ else _) => destruct b
  end.

Lemma no_runtime_error_ret {A} (a : A) : no_runtime_error (ret a).
Proof. intros st w. discriminate. Qed.

Lemma no_runtime_error_bad_get {A} : no_runtime_error (@throw A bad_get).
Proof. intros st w. discriminate. Qed.

Lemma no_runtime_error_undefined {A} why : no_runtime_error (@throw A (undefined why)).
Proof. intros st w. discriminate. Qed.

Lemma no_runtime_error_put s : no_runtime_error (put s).
Proof. intros st w. discriminate. Qed.

Lemma no_runtime_error_bind {A B} (m : M A) (k : A -> M B) :
  no_runtime_error m -> (forall a, no_runtime_error (k a)) ->
  no_runtime_error (bindM m k).
Proof.
  intros Hm Hk st w. unfold bindM. specialize (Hm st w).
  destruct (m st) as [[a | e] st1]; [apply Hk | ].
  cbn in *. congruence.
Qed.

Lemma no_runtime_error_or_undefined {A} why (o : option A) :
  no_runtime_error (or_undefined why o).
Proof.
  destruct o; [apply no_runtime_error_ret | apply no_runtime_error_undefined].
Qed.

Lemma no_runtime_error_get_string d : no_runtime_error (get_string d).
Proof. destruct d; first [apply no_runtime_error_ret | apply no_runtime_error_bad_get]. Qed.

Lemma no_runtime_error_get_double d : no_runtime_error (get_double d).
Proof. destruct d; first [apply no_runtime_error_ret | apply no_runtime_error_bad_get]. Qed.

Lemma no_runtime_error_get_List d : no_runtime_error (get_List d).
Proof. destruct d; first [apply no_runtime_error_ret | apply no_runtime_error_bad_get]. Qed.

Lemma no_runtime_error_less_visitor v d : no_runtime_error (less_visitor v d).
Proof.
  destruct d, v; first [apply no_runtime_error_ret | apply no_runtime_error_undefined].
Qed.

Lemma no_runtime_error_equal_visitor v d : no_runtime_error (equal_visitor v d).
Proof.
  destruct d, v; first [apply no_runtime_error_ret | apply no_runtime_error_undefined].
Qed.

Lemma no_runtime_error_fold_double op res l : no_runtime_error (fold_double op res l).
Proof.
  revert res. induction l as [ | p l IH]; intros res; cbn [fold_double].
  - apply no_runtime_error_ret.
  - apply no_runtime_error_bind; [apply no_runtime_error_get_double | intros n; apply IH].
Qed.

Lemma no_runtime_error_fold_string res l : no_runtime_error (fold_string res l).
Proof.
  revert res. induction l as [ | p l IH]; intros res; cbn [fold_string].
  - apply no_runtime_error_ret.
  - apply no_runtime_error_bind; [apply no_runtime_error_get_string | intros n; apply IH].
Qed.

Ltac no_error_step :=
  lazymatch goal with
  | |- no_runtime_error (ret _) => apply no_runtime_error_ret
  | |- no_runtime_error (throw bad_get) => apply no_runtime_error_bad_get
  | |- no_runtime_error (throw (undefined _)) => apply no_runtime_error_undefined
  | |- no_runtime_error (put _) => apply no_runtime_error_put
  | |- no_runtime_error (bindM _ _) => apply no_runtime_error_bind; [ | intros ?]
  | |- no_runtime_error (or_undefined _ _) => apply no_runtime_error_or_undefined
  | |- no_runtime_error (fold_double _ _ _) => apply no_runtime_error_fold_double
  | |- no_runtime_error (fold_string _ _) => apply no_runtime_error_fold_string
  | |- no_runtime_error (get_string _) => apply no_runtime_error_get_string
  | |- no_runtime_error (get_double _) => apply no_runtime_error_get_double
  | |- no_runtime_error (get_List _) => apply no_runtime_error_get_List
  | |- no_runtime_error (less_visitor _ _) => apply no_runtime_error_less_visitor
  | |- no_runtime_error (equal_visitor _ _) => apply no_runtime_error_equal_visitor
  | |- no_runtime_error (match ?x with _ => _ end) => destruct x
  | |- no_runtime_error (if ?b then _ else _) => destruct b
  end.

Section Values.

Variable show_double : float -> string.

(** The trace in front of the [switch] of [apply_prim] has no part in the
    value returned. *)
Ltac past_trace :=
  unfold apply_prim; cbn [kind data];
  repeat (rewrite fst_bind_put; cbv beta);
  unfold print_all; repeat (rewrite fst_bind_put; cbv beta).

Lemma apply_prim_writes_only prim args :
  writes_only (apply_prim show_double prim args).
Proof.
  unfold apply_prim, print_all, arith, at_index.
  do 5 (apply writes_only_bind; [apply writes_only_put | intros _]).
  destruct (kind prim); repeat writes_step.
Qed.

(** X20: What [apply_prim] returns or throws depends on the primitive and on the
    arguments only, not on the state of the interpreter, and all it does to
    the state is to append its trace to the output: no primitive reads or
    changes a variable, a frame or the input. *)
Theorem apply_prim_only_writes_its_trace prim args :
  exists r s, forall st,
    apply_prim show_double prim args st = (r, set_cout (cout st +:+ s) st).
Proof. apply apply_prim_writes_only. Qed.

(** *** Arithmetic and [cat] *)

Lemma fold_double_numbers op res l st :
  fold_double op res (map Cell_double l) st = (Ok (fold_left op l res), st).
Proof.
  revert res. induction l as [ | a l IH]; intros res; [reflexivity | ].
  cbn [map fold_double fold_left]. apply IH.
Qed.

Lemma arith_numbers op a l st :
  arith op (map Cell_double (a :: l)) st = (Ok (Cell_double (fold_left op l a)), st).
Proof.
  unfold arith. cbn [map tail]. unfold bindM at 1. cbn [at_index or_undefined].
  change (at_index (Cell_double a :: map Cell_double l) 0 st) with (@Ok Cell (Cell_double a), st).
  cbv iota beta. unfold bindM at 1. cbn [data Cell_double get_double ret].
  unfold bindM. rewrite fold_double_numbers. reflexivity.
Qed.

(** The four arithmetic primitives on numbers: the first argument, with the
    others added, subtracted, multiplied or divided one after the other. *)
Lemma arith_values dp a l st :
  fst (apply_prim show_double (mkCell Kind.Add dp) (map Cell_double (a :: l)) st)
  = Ok (Cell_double (fold_left PrimFloat.add l a))
  /\ fst (apply_prim show_double (mkCell Kind.Sub dp) (map Cell_double (a :: l)) st)
     = Ok (Cell_double (fold_left PrimFloat.sub l a))
  /\ fst (apply_prim show_double (mkCell Kind.Mul dp) (map Cell_double (a :: l)) st)
     = Ok (Cell_double (fold_left PrimFloat.mul l a))
  /\ fst (apply_prim show_double (mkCell Kind.Div dp) (map Cell_double (a :: l)) st)
     = Ok (Cell_double (fold_left PrimFloat.div l a)).
Proof.
  repeat split; past_trace; rewrite arith_numbers; reflexivity.
Qed.

Lemma fold_double_not_a_number op res l c st :
  In c l -> (forall n, data c <> DNum n) ->
  fst (fold_double op res l st) = Err bad_get.
Proof.
  intros Hin Hc. revert res. induction l as [ | p l IH]; intros res; [destruct Hin | ].
  cbn [fold_double]. unfold bindM.
  destruct (data p) as [s | n | q | k] eqn:D; try reflexivity.
  cbn. destruct Hin as [-> | Hin]; [destruct (Hc n D) | apply IH, Hin].
Qed.

Lemma arith_not_a_number op args c st :
  In c args -> (forall n, data c <> DNum n) ->
  fst (arith op args st) = Err bad_get.
Proof.
  intros Hin Hc. unfold arith.
  destruct args as [ | p l]; [destruct Hin | ].
  unfold bindM at 1. cbn [at_index or_undefined].
  change (at_index (p :: l) 0 st) with (@Ok Cell p, st). cbv iota beta.
  unfold bindM at 1.
  destruct (data p) as [s | n | q | k] eqn:D; try reflexivity.
  cbn [get_double ret tail]. destruct Hin as [-> | Hin]; [destruct (Hc n D) | ].
  unfold bindM.
  pose proof (fold_double_not_a_number op n l c st Hin Hc) as H.
  destruct (fold_double op n l st) as [[r | e] st1]; cbn in H; [discriminate | ].
  cbn. congruence.
Qed.

(** X21: An arithmetic primitive given an argument that holds no number, at any
    position, throws [bad_get], the exception of [boost::get]: there is no
    conversion and no message of the interpreter's own. *)
Theorem arithmetic_rejects_what_is_not_a_number k dp args c st :
  In k [Kind.Add; Kind.Sub; Kind.Mul; Kind.Div] ->
  In c args -> (forall n, data c <> DNum n) ->
  fst (apply_prim show_double (mkCell k dp) args st) = Err bad_get.
Proof.
  intros Hk Hin Hc.
  repeat (destruct Hk as [<- | Hk]); [ | | | | destruct Hk];
    past_trace; eapply arith_not_a_number; eassumption.
Qed.

Lemma concat_cons s l : String.concat "" (s :: l) = s +:+ String.concat "" l.
Proof.
  destruct l as [ | x l]; cbn [String.concat]; [ | reflexivity].
  symmetry. apply append_empty.
Qed.

Lemma fold_string_names res l st :
  fold_string res (map Cell_string l) st = (Ok (res +:+ String.concat "" l), st).
Proof.
  revert res. induction l as [ | a l IH]; intros res.
  - cbn. rewrite append_empty. reflexivity.
  - cbn [map fold_string]. unfold bindM. cbn [data Cell_string get_string ret].
    rewrite IH, concat_cons, append_assoc. reflexivity.
Qed.

(** X22: [cat] applied to names returns the name made of their texts, one after
    the other. *)
Theorem cat_concatenates dp s l st :
  fst (apply_prim show_double (mkCell Kind.Cat dp) (map Cell_string (s :: l)) st)
  = Ok (Cell_string (String.concat "" (s :: l))).
Proof.
  past_trace. cbn [map].
  change (at_index (Cell_string s :: map Cell_string l) 0) with (@ret Cell (Cell_string s)).
  cbn [bindM ret data Cell_string get_string tail].
  unfold bindM. rewrite fold_string_names, concat_cons. reflexivity.
Qed.

(** *** [and], [or] and [!] *)

Lemma find_none_default {A} (P : A -> bool) l d :
  Forall (fun c => P c = false) l -> default d (find P l) = d.
Proof.
  induction 1 as [ | c l Hc _ IH]; [reflexivity | ].
  cbn [find]. rewrite Hc. exact IH.
Qed.

(** X23: [and] and [or] disagree on values that are no truth values: [and] looks
    for a cell of kind [False] and [or] for a cell of kind [True], so on
    arguments none of which is a truth value, numbers or names for instance,
    [and] returns [True] and [or] returns [False]. *)
Theorem and_or_of_values_that_are_not_booleans da do args st :
  Forall (fun c => kind c <> Kind.True /\ kind c <> Kind.False) args ->
  fst (apply_prim show_double (mkCell Kind.And da) args st) = Ok (Cell_kind Kind.True)
  /\ fst (apply_prim show_double (mkCell Kind.Or do) args st) = Ok (Cell_kind Kind.False).
Proof.
  intros H. split; past_trace; cbn [ret fst]; f_equal; apply find_none_default;
    eapply Forall_impl; try exact H; cbn beta; intros c [Ht Hf];
    unfold Kind.eqb; apply bool_decide_eq_false; assumption.
Qed.

Lemma not_value dn a st :
  fst (apply_prim show_double (mkCell Kind.Not dn) [a] st)
  = Ok (Cell_kind (if Kind.eqb (kind a) Kind.False then Kind.True else Kind.False)).
Proof. reflexivity. Qed.

Lemma and_value da args st :
  fst (apply_prim show_double (mkCell Kind.And da) args st)
  = Ok (default (Cell_kind Kind.True)
          (find (fun clause => Kind.eqb (kind clause) Kind.False) args)).
Proof. reflexivity. Qed.

Lemma or_value do args st :
  fst (apply_prim show_double (mkCell Kind.Or do) args st)
  = Ok (default (Cell_kind Kind.False)
          (find (fun clause => Kind.eqb (kind clause) Kind.True) args)).
Proof. reflexivity. Qed.

(** X24: De Morgan's laws for the primitives, [nots] being the negations of
    [args] by the primitive [!].  The negation of [and] is the [or] of the
    negations, for all arguments.  The negation of [or] is the [and] of the
    negations when all arguments are truth values. *)
Theorem de_morgan dn da do args nots st :
  Forall2 (fun a n => fst (apply_prim show_double (mkCell Kind.Not dn) [a] st) = Ok n)
          args nots ->
  (forall r, fst (apply_prim show_double (mkCell Kind.And da) args st) = Ok r ->
     fst (apply_prim show_double (mkCell Kind.Not dn) [r] st)
     = fst (apply_prim show_double (mkCell Kind.Or do) nots st))
  /\ (Forall (fun a => kind a = Kind.True \/ kind a = Kind.False) args ->
      forall r, fst (apply_prim show_double (mkCell Kind.Or do) args st) = Ok r ->
        fst (apply_prim show_double (mkCell Kind.Not dn) [r] st)
        = fst (apply_prim show_double (mkCell Kind.And da) nots st)).
Proof.
  intros H. split.
  - intros r. rewrite and_value, not_value, or_value. intros [= <-]. f_equal.
    induction H as [ | a n args nots Hn _ IH]; [reflexivity | ].
    rewrite not_value in Hn. injection Hn as <-.
    cbn [find]. destruct (Kind.eqb (kind a) Kind.False) eqn:E.
    + cbn. rewrite E. reflexivity.
    + cbn [Cell_kind kind]. change (Kind.eqb Kind.False Kind.True) with false.
      cbv iota. exact IH.
  - intros Hb r. rewrite or_value, not_value, and_value. intros [= <-]. f_equal.
    induction H as [ | a n args nots Hn _ IH]; [reflexivity | ].
    rewrite not_value in Hn. injection Hn as <-.
    apply Forall_cons in Hb as [Ha Hb]. specialize (IH Hb).
    destruct a as [k d]. cbn [kind] in Ha.
    destruct Ha as [-> | ->]; [reflexivity | exact IH].
Qed.

(** The second law fails on a value that is no truth value: the negation of
    [(or 1)] is [True], the [and] of the negation of [1] is [False]. *)
Lemma de_morgan_needs_booleans st :
  fst ((r ← apply_prim show_double (Cell_kind Kind.Or) [Cell_double 1];
        apply_prim show_double (Cell_kind Kind.Not) [r]) st)
  = Ok (Cell_kind Kind.True)
  /\ fst ((n ← apply_prim show_double (Cell_kind Kind.Not) [Cell_double 1];
           apply_prim show_double (Cell_kind Kind.And) [n]) st)
     = Ok (Cell_kind Kind.False).
Proof. split; reflexivity. Qed.

(** *** Numbers against names *)

(** X25: [<], [>] and [=] on a number and a name.  With the number where the
    visitor is constructed from, the name is compared with the empty string
    the visitor holds: a number is less than every name that is not empty,
    and equal to the empty name only.  With the name there, the visitor's
    number was never given a value, and the comparison reads it. *)
Theorem number_against_name d s st :
  fst (apply_prim show_double (Cell_kind Kind.Less) [Cell_double d; Cell_string s] st)
  = Ok (Cell_bool (negb (String.eqb s "")))
  /\ fst (apply_prim show_double (Cell_kind Kind.Greater) [Cell_string s; Cell_double d] st)
     = Ok (Cell_bool (negb (String.eqb s "")))
  /\ fst (apply_prim show_double (Cell_kind Kind.Equal) [Cell_double d; Cell_string s] st)
     = Ok (Cell_bool (String.eqb s ""))
  /\ fst (apply_prim show_double (Cell_kind Kind.Less) [Cell_string s; Cell_double d] st)
     = Err (undefined "num has no value")
  /\ fst (apply_prim show_double (Cell_kind Kind.Greater) [Cell_double d; Cell_string s] st)
     = Err (undefined "num has no value")
  /\ fst (apply_prim show_double (Cell_kind Kind.Equal) [Cell_string s; Cell_double d] st)
     = Err (undefined "num has no value").
Proof.
  repeat split; try reflexivity; destruct s; reflexivity.
Qed.

(** *** The errors of a primitive *)

(** X26: [apply_prim] throws the [runtime_error] of its [default] label for the
    kinds that are no primitives, which are the kinds [eval] and [evlist]
    never call it with, and no [runtime_error] at all for a primitive: an
    argument of the wrong type ends in [bad_get], a missing argument in a
    read past the end of the arguments. *)
Theorem primitives_raise_no_runtime_error prim args st :
  if is_primitive (kind prim)
  then forall w, fst (apply_prim show_double prim args st) <> Err (runtime_error w)
  else fst (apply_prim show_double prim args st)
       = Err (runtime_error "Mismatoh in apply_prim").
Proof.
  destruct (is_primitive (kind prim)) eqn:K.
  - revert st. change (no_runtime_error (apply_prim show_double prim args)).
    unfold apply_prim, print_all, arith, at_index.
    do 5 (apply no_runtime_error_bind; [apply no_runtime_error_put | intros _]).
    destruct (kind prim); try discriminate K; repeat no_error_step.
  - past_trace. destruct (kind prim); try discriminate K; reflexivity.
Qed.

(** *** Arithmetic on literals *)

Lemma returns_writes_only {A} (m : M A) st a :
  writes_only m -> fst (m st) = Ok a -> returns m st a.
Proof.
  intros (r & s & H) E o. rewrite H in E. cbn in E. subst r.
  exists (o +:+ s). rewrite H. reflexivity.
Qed.

(** Numbers in argument position evaluate to themselves. *)
Lemma returns_loop_numbers fuel l res env st :
  returns (evlist_loop show_double (S (length l) + fuel) (map Cell_double l) res env) st
          (res ++ map Cell_double l).
Proof.
  revert res. induction l as [ | a l IH]; intros res.
  - rewrite app_nil_r. apply returns_loop_end.
  - cbn [length map Nat.add]. cbn [evlist_loop kind Cell_double].
    replace (res ++ Cell_double a :: map Cell_double l)
      with ((res ++ [Cell_double a]) ++ map Cell_double l)
      by (rewrite <- app_assoc; reflexivity).
    apply (IH (res ++ [Cell_double a])).
Qed.

Lemma returns_arith k op fuel a l env st :
  is_primitive k = true ->
  (forall dp st', fst (apply_prim show_double (mkCell k dp) (map Cell_double (a :: l)) st')
                  = Ok (Cell_double (fold_left op l a))) ->
  returns (eval show_double (4 + length l + fuel)
             (Cell_kind k :: map Cell_double (a :: l)) env) st
          (Cell_double (fold_left op l a)).
Proof.
  intros Hk H. cbn [Nat.add].
  apply (returns_eval_primitive show_double _ (Cell_kind k) (Cell_double a)
           (map Cell_double l) env st (map Cell_double (a :: l))).
  - exact Hk.
  - apply returns_evlist. apply (returns_loop_numbers fuel (a :: l) []).
  - apply returns_writes_only; [apply apply_prim_writes_only | apply H].
Qed.

(** X27: An arithmetic operator in front of number literals, as in [(- 10 2 3)],
    evaluates, given 4 units of fuel and one more for each number after the
    first, to the first number with the others added, subtracted, multiplied
    or divided from the left.  With one number the value is that number:
    [(- 5)] is 5, and [(/ 5)] is 5. *)
Theorem arithmetic_on_number_literals fuel a l env st :
  fst (eval show_double (4 + length l + fuel)
         (Cell_kind Kind.Add :: map Cell_double (a :: l)) env st)
  = Ok (Cell_double (fold_left PrimFloat.add l a))
  /\ fst (eval show_double (4 + length l + fuel)
            (Cell_kind Kind.Sub :: map Cell_double (a :: l)) env st)
     = Ok (Cell_double (fold_left PrimFloat.sub l a))
  /\ fst (eval show_double (4 + length l + fuel)
            (Cell_kind Kind.Mul :: map Cell_double (a :: l)) env st)
     = Ok (Cell_double (fold_left PrimFloat.mul l a))
  /\ fst (eval show_double (4 + length l + fuel)
            (Cell_kind Kind.Div :: map Cell_double (a :: l)) env st)
     = Ok (Cell_double (fold_left PrimFloat.div l a)).
Proof.
  repeat split; apply returns_fst, returns_arith; try reflexivity;
    intros dp st'; apply (arith_values dp a l st').
Qed.

End Values.

(** ** What an evaluation adds *)

Lemma extends_refl st : extends st st.
Proof.
  split; [reflexivity | split; [lia | split; [ | auto]]].
  exists "". symmetry. apply append_empty.
Qed.

Lemma extends_same st st' :
  procs st' = procs st -> length (envs st') = length (envs st) -> cout st' = cout st ->
  storage st' = storage st ->
  extends st st'.
Proof.
  intros Hp He Hc Hs. unfold extends, marks_within. rewrite Hp, He, Hc, Hs.
  split; [reflexivity | split; [lia | split; [ | auto]]].
  exists "". symmetry. apply append_empty.
Qed.

Lemma extends_trans st1 st2 st3 : extends st1 st2 -> extends st2 st3 -> extends st1 st3.
Proof.
  intros (Hp & He & (s & Hs) & Hw) (Hp' & He' & (s' & Hs') & Hw').
  split; [ | split; [ | split]].
  - etransitivity; eassumption.
  - lia.
  - exists (s +:+ s'). rewrite Hs', Hs. apply append_assoc.
  - auto.
Qed.

Lemma only_adds_ret {A} (a : A) : only_adds (ret a).
Proof. intros st. apply extends_refl. Qed.

Lemma only_adds_throw {A} e : only_adds (@throw A e).
Proof. intros st. apply extends_refl. Qed.

Lemma only_adds_get_state : only_adds get_state.
Proof. intros st. apply extends_refl. Qed.

Lemma only_adds_bind {A B} (m : M A) (k : A -> M B) :
  only_adds m -> (forall a, only_adds (k a)) -> only_adds (bindM m k).
Proof.
  intros Hm Hk st. unfold bindM. specialize (Hm st).
  destruct (m st) as [[a | e] st1]; cbn [snd] in *; [ | exact Hm].
  eapply extends_trans; [exact Hm | apply Hk].
Qed.

Lemma only_adds_writes_only {A} (m : M A) : writes_only m -> only_adds m.
Proof.
  intros (r & s & H) st. rewrite H. unfold extends, marks_within. cbn.
  split; [reflexivity | split; [lia | split; [eauto | auto]]].
Qed.

Lemma only_adds_put s : only_adds (put s).
Proof. apply only_adds_writes_only, writes_only_put. Qed.

Lemma only_adds_reads {A} (m : M A) : (forall st, snd (m st) = st) -> only_adds m.
Proof. intros H st. rewrite H. apply extends_refl. Qed.

Lemma only_adds_lookup p n : only_adds (lookup p n).
Proof. apply only_adds_reads, lookup_state. Qed.

Lemma only_adds_deref p : only_adds (deref p).
Proof. apply only_adds_reads, deref_state. Qed.

Lemma only_adds_or_undefined {A} why (o : option A) : only_adds (or_undefined why o).
Proof. destruct o; [apply only_adds_ret | apply only_adds_throw]. Qed.

Lemma only_adds_get_string d : only_adds (get_string d).
Proof. destruct d; first [apply only_adds_ret | apply only_adds_throw]. Qed.

Lemma only_adds_get_double d : only_adds (get_double d).
Proof. destruct d; first [apply only_adds_ret | apply only_adds_throw]. Qed.

Lemma only_adds_get_Proc d : only_adds (get_Proc d).
Proof. destruct d; first [apply only_adds_ret | apply only_adds_throw]. Qed.

Lemma only_adds_get_List d : only_adds (get_List d).
Proof. destruct d; first [apply only_adds_ret | apply only_adds_throw]. Qed.

(** An assignment replaces a frame; it adds and removes none. *)
Lemma only_adds_store p e : only_adds (store p e).
Proof.
  intros st. destruct p as [ | i | i]; apply extends_same; try reflexivity.
  cbn. apply length_insert.
Qed.

Lemma only_adds_assign p n v : only_adds (assign p n v).
Proof.
  unfold assign. apply only_adds_bind; [apply only_adds_deref | intros e].
  apply only_adds_store.
Qed.

Lemma only_adds_scoped_local {A} o (block : EnvPtr -> M A) :
  (forall p, only_adds (block p)) -> only_adds (scoped_local o block).
Proof.
  intros H st. unfold scoped_local.
  specialize (H (local_ptr (length (locals st)))
                (set_locals (locals st ++ [(mkEnv ∅ (Some o), true)]) st)).
  destruct (block _ _) as [r st2]. cbn [snd] in *.
  destruct H as (Hp & He & Hs & Hw).
  split; [exact Hp | split; [exact He | split; [exact Hs | exact Hw]]].
Qed.

Lemma only_adds_procs_push_back pr : only_adds (procs_push_back pr).
Proof.
  intros st. unfold extends, marks_within, procs_push_back, modify, grown.
  cbv beta zeta. cbn [snd].
  destruct (_ <? _)%N; cbn; rewrite length_app; cbn.
  all: split; [apply prefix_app_r; reflexivity | split; [lia | split; [ | lia]]].
  all: exists ""; symmetry; apply append_empty.
Qed.

Lemma only_adds_envs_push_back e : only_adds (envs_push_back e).
Proof.
  intros st. unfold extends, marks_within, envs_push_back, modify, grown.
  cbv beta zeta. cbn [snd].
  destruct (_ <? _)%N; cbn; rewrite length_app; cbn.
  all: split; [reflexivity | split; [lia | split; [ | lia]]].
  all: exists ""; symmetry; apply append_empty.
Qed.

Lemma only_adds_new_proc pr : only_adds (new_proc pr).
Proof.
  unfold new_proc.
  apply only_adds_bind; [apply only_adds_get_state | intros st].
  apply only_adds_bind; [apply only_adds_procs_push_back | intros _].
  apply only_adds_ret.
Qed.

Lemma only_adds_deref_Proc i : only_adds (deref_Proc i).
Proof.
  apply only_adds_reads. intros st. unfold deref_Proc, bindM, get_state.
  destruct (i <? _)%nat; [reflexivity | ]. destruct (procs st !! i); reflexivity.
Qed.

Lemma only_adds_include_path rest : only_adds (include_path rest).
Proof.
  unfold include_path.
  apply only_adds_bind; [apply only_adds_or_undefined | intros c].
  apply only_adds_get_string.
Qed.

Lemma only_adds_include path : only_adds (include path).
Proof. intros st. apply extends_same; reflexivity. Qed.

Section Growth.

Variable show_double : float -> string.

Lemma only_adds_print c : only_adds (print show_double c).
Proof. apply only_adds_put. Qed.

Lemma only_adds_print_all l : only_adds (print_all show_double l).
Proof. apply only_adds_put. Qed.

Lemma only_adds_bind_loop ps args newenv : only_adds (bind_loop show_double ps args newenv).
Proof.
  revert args newenv. induction ps as [ | p ps IH]; intros [ | q args] newenv;
    cbn [bind_loop]; try apply only_adds_ret.
  apply only_adds_bind; [apply only_adds_put | intros _].
  apply only_adds_bind; [apply only_adds_get_string | intros name].
  apply only_adds_bind; [apply only_adds_put | intros _].
  apply only_adds_bind; [apply only_adds_print | intros _].
  apply only_adds_bind; [apply only_adds_put | intros _].
  apply IH.
Qed.

Lemma only_adds_Parser_bind ps args env : only_adds (bind show_double ps args env).
Proof.
  unfold bind. destruct (negb _); [apply only_adds_throw | ].
  apply only_adds_bind; [apply only_adds_bind_loop | intros newenv].
  apply only_adds_bind; [apply only_adds_get_state | intros st].
  apply only_adds_bind; [apply only_adds_envs_push_back | intros _].
  apply only_adds_ret.
Qed.

Lemma only_adds_apply_prim prim args : only_adds (apply_prim show_double prim args).
Proof. apply only_adds_writes_only, apply_prim_writes_only. Qed.

Lemma only_adds_trace_unevaled tag rest : only_adds (trace_unevaled show_double tag rest).
Proof.
  unfold trace_unevaled.
  do 5 (apply only_adds_bind;
        [first [apply only_adds_put | apply only_adds_print_all] | intros _]).
  apply only_adds_put.
Qed.

Lemma only_adds_trace_args tag args : only_adds (trace_args show_double tag args).
Proof.
  unfold trace_args.
  do 3 (apply only_adds_bind;
        [first [apply only_adds_put | apply only_adds_print_all] | intros _]).
  apply only_adds_put.
Qed.

(** One step of a proof that a sequence of statements only adds, chosen by
    the form of the statement. *)
Ltac adds_step :=
  lazymatch goal with
  | |- only_adds (ret _) => apply only_adds_ret
  | |- only_adds (throw _) => apply only_adds_throw
  | |- only_adds get_state => apply only_adds_get_state
  | |- only_adds (put _) => apply only_adds_put
  | |- only_adds (print _ _) => apply only_adds_print
  | |- only_adds (print_all _ _) => apply only_adds_print_all
  | |- only_adds (at_index _ _) => apply only_adds_or_undefined
  | |- only_adds (or_undefined _ _) => apply only_adds_or_undefined
  | |- only_adds (get_string _) => apply only_adds_get_string
  | |- only_adds (get_double _) => apply only_adds_get_double
  | |- only_adds (get_Proc _) => apply only_adds_get_Proc
  | |- only_adds (get_List _) => apply only_adds_get_List
  | |- only_adds (lookup _ _) => apply only_adds_lookup
  | |- only_adds (assign _ _ _) => apply only_adds_assign
  | |- only_adds (new_proc _) => apply only_adds_new_proc
  | |- only_adds (deref_Proc _) => apply only_adds_deref_Proc
  | |- only_adds (bind _ _ _ _) => apply only_adds_Parser_bind
  | |- only_adds (apply_prim _ _ _) => apply only_adds_apply_prim
  | |- only_adds (trace_unevaled _ _ _) => apply only_adds_trace_unevaled
  | |- only_adds (trace_args _ _ _) => apply only_adds_trace_args
  | |- only_adds (include_path _) => apply only_adds_include_path
  | |- only_adds (include _) => apply only_adds_include
  | |- only_adds (bindM _ _) => apply only_adds_bind; [ | intros ?]
  | |- only_adds (match ?x with _ => _ end) => destruct x
  | |- only_adds (if ?b then _ else _) => destruct b
  end.

Lemma only_adds_cond_loop ev p :
  (forall e, only_adds (ev e)) -> only_adds (cond_loop ev p).
Proof.
  intros Hev. induction p as [ | c rest IH]; cbn [cond_loop]; [apply only_adds_ret | ].
  apply only_adds_bind; [adds_step | intros clause].
  apply only_adds_bind; [adds_step | intros c0].
  destruct (Kind.eqb (kind c0) Kind.Else).
  - destruct rest; [ | apply only_adds_throw].
    apply only_adds_bind; [adds_step | intros c1].
    apply only_adds_bind; [apply Hev | intros v; apply only_adds_ret].
  - apply only_adds_bind; [apply Hev | intros t].
    destruct (truthy t); [ | exact IH].
    apply only_adds_bind; [adds_step | intros c1].
    apply only_adds_bind; [apply Hev | intros v; apply only_adds_ret].
Qed.

Lemma only_adds_let_loop ev localenv localvars :
  (forall e, only_adds (ev e)) -> only_adds (let_loop show_double ev localenv localvars).
Proof.
  intros Hev. induction localvars as [ | binding rest IH]; cbn [let_loop];
    [apply only_adds_ret | ].
  apply only_adds_bind; [adds_step | intros l].
  apply only_adds_bind; [adds_step | intros c0].
  apply only_adds_bind; [adds_step | intros name].
  apply only_adds_bind; [adds_step | intros _].
  apply only_adds_bind; [adds_step | intros c1].
  apply only_adds_bind; [apply Hev | intros val].
  apply only_adds_bind; [adds_step | intros _].
  apply only_adds_bind; [adds_step | intros _].
  apply only_adds_bind; [adds_step | intros _].
  apply only_adds_bind; [adds_step | intros _].
  exact IH.
Qed.

Lemma only_adds_collect_args evl env p args :
  (forall e, only_adds (evl e)) -> only_adds (collect_args evl env p args).
Proof.
  intros Hev. revert args.
  induction p as [p IH] using (induction_ltof1 _ (@length Cell)).
  unfold ltof in IH. intros args.
  destruct p as [ | c rest]; cbn [collect_args]; [apply only_adds_ret | ].
  destruct (kind c);
    try (apply only_adds_bind; [apply Hev | intros addargs; apply only_adds_ret]).
  - apply IH. cbn. lia.
  - apply only_adds_bind; [adds_step | intros n].
    apply only_adds_bind; [adds_step | intros v].
    apply IH. cbn. lia.
  - destruct rest as [ | q rest']; [apply only_adds_throw | ].
    apply IH. cbn. lia.
Qed.

Lemma only_adds_define ev env rest :
  (forall e, only_adds (ev e)) -> only_adds (define ev env rest).
Proof.
  intros Hev. unfold define.
  destruct rest as [ | np [ | body_cell rest]]; try apply only_adds_throw.
  destruct (kind np); try apply only_adds_throw.
  - apply only_adds_bind; [apply Hev | intros v]. repeat adds_step.
  - repeat adds_step.
Qed.

Lemma only_adds_lambda env rest : only_adds (lambda env rest).
Proof.
  unfold lambda. destruct rest as [ | params_cell [ | body_cell rest]];
    try apply only_adds_throw.
  repeat adds_step.
Qed.

Lemma only_adds_let_form (ev : List -> EnvPtr -> M Cell) which env rest :
  (forall e env', only_adds (ev e env')) ->
  only_adds (let_form show_double ev which env rest).
Proof.
  intros Hev. unfold let_form.
  destruct rest as [ | vars_cell [ | body_cell rest]]; try apply only_adds_throw.
  apply only_adds_bind; [adds_step | intros localvars].
  apply only_adds_bind; [adds_step | intros _].
  apply only_adds_scoped_local; intros localenv.
  apply only_adds_bind; [apply only_adds_let_loop; intros e; apply Hev | intros _].
  destruct (Kind.eqb (kind body_cell) Kind.Expr); [ | apply Hev].
  apply only_adds_bind; [adds_step | intros body]. apply Hev.
Qed.

Lemma only_adds_begin (ev : List -> M Cell) (evl : List -> M List) rest :
  (forall e, only_adds (ev e)) -> (forall e, only_adds (evl e)) ->
  only_adds (begin ev evl rest).
Proof.
  intros Hev Hevl. unfold begin.
  destruct rest as [ | c rest]; [apply only_adds_throw | ].
  apply only_adds_bind; [apply Hevl | intros _]. apply Hev.
Qed.

Local Abbreviation only_adds_at := (only_adds_at show_double).

Lemma only_adds_eval_step n : only_adds_at n -> forall expr env,
  only_adds (eval show_double (S n) expr env).
Proof.
  intros (IHeval & IHevlist & IHloop & IHapply) expr env.
  cbn [eval].
  apply only_adds_bind; [adds_step | intros _].
  apply only_adds_bind; [adds_step | intros _].
  destruct expr as [ | p rest]; [apply only_adds_ret | ].
  destruct (kind p) eqn:K; cbn [is_primitive];
    lazymatch type of K with
    | _ = ?k =>
        let b := eval cbv in (is_primitive k) in
        lazymatch b with
        | true =>
            apply only_adds_bind; [adds_step | intros _];
            destruct rest as [ | a rest]; [apply only_adds_throw | ];
            apply only_adds_bind; [adds_step | intros _];
            apply only_adds_bind; [adds_step | intros _];
            apply only_adds_bind; [apply IHevlist | intros args];
            apply only_adds_bind; [adds_step | intros _];
            apply only_adds_bind; [adds_step | intros _];
            adds_step
        | false => idtac
        end
    end;
    try (lazymatch goal with |- only_adds (throw _) => apply only_adds_throw end).
  - (* Include *) repeat adds_step.
  - (* Begin *)
    apply only_adds_bind; [adds_step | intros _].
    apply only_adds_begin; intros e; auto.
  - (* Let *) apply only_adds_let_form. exact IHeval.
  - (* Define *) apply only_adds_define. intros e. apply IHeval.
  - (* Lambda *) apply only_adds_lambda.
  - (* Number *) repeat adds_step.
  - (* Name *)
    apply only_adds_bind; [adds_step | intros name].
    apply only_adds_bind; [adds_step | intros x].
    destruct (negb _); [apply only_adds_ret | ].
    apply only_adds_bind; [adds_step | intros _].
    apply only_adds_bind; [ | intros args; apply IHapply].
    apply only_adds_collect_args. intros e. apply IHevlist.
  - (* Expr *)
    apply only_adds_bind; [adds_step | intros l].
    apply only_adds_bind; [apply IHevlist | intros res].
    repeat adds_step.
  - (* Cond *)
    apply only_adds_bind; [apply only_adds_cond_loop; intros e; apply IHeval | intros r].
    repeat adds_step.
  - (* Quote *) repeat adds_step.
Qed.

Lemma only_adds_evlist_loop_step n : only_adds_at n -> forall p res env,
  only_adds (evlist_loop show_double (S n) p res env).
Proof.
  intros (IHeval & IHevlist & IHloop & IHapply) p res env.
  cbn [evlist_loop].
  destruct p as [ | c rest]; [apply only_adds_ret | ].
  destruct (kind c) eqn:K; cbn [is_primitive];
    lazymatch type of K with
    | _ = ?k =>
        let b := eval cbv in (is_primitive k) in
        lazymatch b with
        | true =>
            destruct rest as [ | a rest]; [apply only_adds_throw | ];
            apply only_adds_bind; [adds_step | intros _];
            apply only_adds_bind; [apply IHevlist | intros args];
            apply only_adds_bind; [adds_step | intros _];
            apply only_adds_bind; [adds_step | intros v; apply only_adds_ret]
        | false => idtac
        end
    end;
    try (lazymatch goal with |- only_adds (throw _) => apply only_adds_throw end).
  - (* Include *) repeat adds_step.
  - (* Begin *)
    apply only_adds_bind; [adds_step | intros _].
    apply only_adds_bind; [ | intros v; apply only_adds_ret].
    apply only_adds_begin; intros e; auto.
  - (* Let *)
    apply only_adds_bind; [ | intros v; apply only_adds_ret].
    apply only_adds_let_form. exact IHeval.
  - (* Define *)
    apply only_adds_bind; [ | intros v; apply only_adds_ret].
    apply only_adds_define. intros e. apply IHeval.
  - (* Lambda *)
    apply only_adds_bind; [apply only_adds_lambda | intros fn]. apply IHloop.
  - (* Number *) apply IHloop.
  - (* Name *)
    apply only_adds_bind; [adds_step | intros name].
    apply only_adds_bind; [adds_step | intros x].
    destruct (negb _); [apply IHloop | ].
    apply only_adds_bind; [adds_step | intros _].
    apply only_adds_bind;
      [apply only_adds_collect_args; intros e; apply IHevlist | intros args].
    apply only_adds_bind; [apply IHapply | intros v; apply only_adds_ret].
  - (* Expr *)
    apply only_adds_bind; [adds_step | intros l].
    apply only_adds_bind; [apply IHevlist | intros r].
    destruct r as [ | r0 [ | r1 r]]; apply IHloop.
  - (* Cond *)
    apply only_adds_bind; [apply only_adds_cond_loop; intros e; apply IHeval | intros r].
    destruct r; [apply only_adds_ret | apply IHloop | apply only_adds_throw].
  - (* Quote *)
    destruct rest as [ | q rest']; [apply only_adds_throw | apply IHloop].
Qed.

Lemma only_adds_apply_step n : only_adds_at n -> forall c args,
  only_adds (apply show_double (S n) c args).
Proof.
  intros (IHeval & IHevlist & IHloop & IHapply) c args.
  cbn [apply].
  do 5 (apply only_adds_bind; [adds_step | intros _]).
  apply only_adds_bind; [adds_step | intros i].
  apply only_adds_bind; [adds_step | intros proc].
  apply only_adds_bind; [adds_step | intros newenv].
  apply only_adds_bind; [adds_step | intros _].
  apply only_adds_bind; [ | intros _; apply IHeval].
  induction (params proc) as [ | cell ps IH]; [apply only_adds_ret | ].
  apply only_adds_bind; [adds_step | intros name].
  apply only_adds_bind; [adds_step | intros _].
  apply only_adds_bind; [adds_step | intros v].
  apply only_adds_bind; [adds_step | intros _].
  apply only_adds_bind; [adds_step | intros _].
  exact IH.
Qed.

Lemma only_adds_all n : only_adds_at n.
Proof.
  induction n as [ | n IH].
  - split; [ | split; [ | split]]; intros; apply only_adds_throw.
  - pose proof (only_adds_evlist_loop_step n IH) as Hloop.
    split; [ | split; [ | split]].
    + apply only_adds_eval_step, IH.
    + intros expr env. cbn [evlist].
      apply only_adds_bind; [adds_step | intros _].
      apply only_adds_bind; [adds_step | intros _].
      apply only_adds_bind; [adds_step | intros _].
      apply IH.
    + exact Hloop.
    + apply only_adds_apply_step, IH.
Qed.

(** X28: An evaluation, whatever it evaluates and however it ends, only adds to
    the table of procedures, to the call frames and to the output: every
    procedure that was in [procs] is there afterwards, at its place and
    unchanged; [envs] holds no fewer frames; and the output starts with what
    was written before. *)
Theorem evaluation_only_adds fuel expr env st :
  procs st `prefix_of` procs (snd (eval show_double fuel expr env st))
  /\ length (envs st) <= length (envs (snd (eval show_double fuel expr env st)))
  /\ exists s, cout (snd (eval show_double fuel expr env st)) = cout st +:+ s.
Proof.
  destruct (only_adds_all fuel) as (H & _).
  destruct (H expr env st) as (Hp & He & Hs & _). auto.
Qed.

(** The marks stay within the vectors, as they are when [alloc_env] has run:
    every state the interpreter reaches has them so. *)
Lemma evaluation_keeps_the_marks_within fuel expr env st :
  marks_within st -> marks_within (snd (eval show_double fuel expr env st)).
Proof.
  destruct (only_adds_all fuel) as (H & _).
  destruct (H expr env st) as (_ & _ & _ & Hw). exact Hw.
Qed.

(** *** The global frame *)

(** X29: Only a [define] evaluated in the global frame changes it: an evaluation
    of an expression that holds no [define], or an evaluation in another
    frame, leaves the global frame as it was, whether it returns or fails. *)
Theorem evaluation_changes_globals_only_by_define fuel expr env st :
  forallb no_define expr = true \/ env <> e0_ptr ->
  e0 (snd (eval show_double fuel expr env st)) = e0 st.
Proof.
  intros H.
  apply (keeps_eval e0 Logic.False); try reflexivity; try contradiction.
  unfold quiet. tauto.
Qed.

(** X30: The call of a procedure never changes the global frame: the body runs in
    the frame [Parser::bind] makes for the call, and a [define] in the body
    binds its name there. *)
Theorem a_call_leaves_the_globals fuel c args st :
  e0 (snd (apply show_double fuel c args st)) = e0 st.
Proof.
  apply (keeps_all e0 Logic.False); try reflexivity; contradiction.
Qed.

End Growth.

(** ** Instances of the further properties *)

Lemma get_skips_white_space_witness :
  forallb isspace [" "; "010"; "009"]%char = true
  /\ get digits_read_double
       (set_cs (set_ip ([" "; "010"; "009"]%char ++ list_ascii_of_string "(a)") (cs fresh))
          fresh)
     = get digits_read_double
         (set_cs (set_ip (list_ascii_of_string "(a)") (cs fresh)) fresh)
  /\ get digits_read_double (set_cs (set_ip [" "; "010"; "009"]%char (cs fresh)) fresh)
     = (Ok (Cell_kind Kind.End),
        set_cs (mkStream [] (old (cs fresh)) (Cell_kind Kind.End)) fresh).
Proof.
  split; [reflexivity | ].
  exact (get_skips_white_space digits_read_double [" "; "010"; "009"]%char
           (list_ascii_of_string "(a)") fresh eq_refl).
Defined.

Lemma get_reads_a_name_and_leaves_the_parentheses_witness :
  plain_name "foo" = true
  /\ word_end (list_ascii_of_string " x") = true
  /\ ip (cs (initial "foo)) x"))
     = list_ascii_of_string "foo" ++ replicate 2 ")"%char ++ list_ascii_of_string " x"
  /\ get digits_read_double (initial "foo)) x")
     = (Ok (Cell_string "foo"),
        set_cs (mkStream (replicate 2 ")"%char ++ list_ascii_of_string " x")
                  (old (cs (initial "foo)) x"))) (Cell_string "foo"))
          (initial "foo)) x")).
Proof.
  assert (Hp : plain_name "foo" = true) by (vm_compute; reflexivity).
  split; [exact Hp | ]. split; [reflexivity | ]. split; [reflexivity | ].
  exact (get_reads_a_name_and_leaves_the_parentheses digits_read_double "foo" 2
           (list_ascii_of_string " x") (initial "foo)) x") Hp eq_refl eq_refl).
Defined.

Lemma get_reads_the_keywords_witness :
  keywords !! "car" = Some Kind.Car
  /\ "car" <> "begin"
  /\ word_end (list_ascii_of_string " l)") = true
  /\ get digits_read_double (initial "car l)")
     = (Ok (mkCell Kind.Car (data (ct (cs (initial "car l)"))))),
        set_cs (mkStream (replicate 0 ")"%char ++ list_ascii_of_string " l)")
                  (old (cs (initial "car l)")))
                  (mkCell Kind.Car (data (ct (cs (initial "car l)"))))))
          (initial "car l)")).
Proof.
  assert (Hk : keywords !! "car" = Some Kind.Car) by (vm_compute; reflexivity).
  assert (Hb : "car" <> "begin") by discriminate.
  split; [exact Hk | ]. split; [exact Hb | ]. split; [reflexivity | ].
  exact (get_reads_the_keywords digits_read_double "car" Kind.Car 0
           (list_ascii_of_string " l)") (initial "car l)") Hk Hb eq_refl eq_refl).
Defined.

#[local] Set Warnings "-abstract-large-number".

Lemma a_comment_ends_with_its_line_witness :
  Forall (fun c => c <> "010"%char) (list_ascii_of_string " note")
  /\ length (list_ascii_of_string " note") < 9001
  /\ expr_loop digits_read_double 3 [] (initial ("; note" +:+ endl +:+ "a)"))
     = expr_loop digits_read_double 2 []
         (set_cout ((cout (initial ("; note" +:+ endl +:+ "a)"))
                     +:+ "Comment encountered" +:+ endl) +:+ "Ignoring line" +:+ endl)
            (set_cs (mkStream (list_ascii_of_string "a)")
                       (old (cs (initial ("; note" +:+ endl +:+ "a)"))))
                       (Cell_kind Kind.Comment))
               (initial ("; note" +:+ endl +:+ "a)")))).
Proof.
  assert (Ht : Forall (fun c => c <> "010"%char) (list_ascii_of_string " note"))
    by (repeat constructor; discriminate).
  assert (Hn : length (list_ascii_of_string " note") < 9001)
    by (apply Nat.ltb_lt; vm_compute; reflexivity).
  split; [exact Ht | ]. split; [exact Hn | ].
  exact (proj1 (a_comment_ends_with_its_line digits_read_double 2 [] []
                  (list_ascii_of_string " note") (list_ascii_of_string "a)")
                  (initial ("; note" +:+ endl +:+ "a)")) eq_refl Ht)
           Hn eq_refl).
Defined.

Lemma print_shows_the_kind_of_the_first_element_only_witness :
  map data [Cell_bool false] = map data [Cell_bool true]
  /\ print_string digits_show_double (Cell_list [Cell_bool true; Cell_bool false])
     = print_string digits_show_double (Cell_list [Cell_bool true; Cell_bool true]).
Proof.
  split; [reflexivity | ].
  exact (print_shows_the_kind_of_the_first_element_only digits_show_double
           (Cell_bool true) [Cell_bool false] [Cell_bool true] eq_refl).
Defined.

Lemma expr_reads_back_what_print_writes_witness :
  forallb plain [Cell_string "f"; Cell_list [Cell_string "x"; Cell_list []];
                 Cell_string "y"] = true
  /\ ip (cs (initial "(f (x ()) y) (g)"))
     = list_ascii_of_string
         (print_string digits_show_double
            (Cell_list [Cell_string "f"; Cell_list [Cell_string "x"; Cell_list []];
                        Cell_string "y"]))
       ++ list_ascii_of_string "(g)"
  /\ expr digits_read_double 6 true (initial "(f (x ()) y) (g)")
     = (Ok [Cell_string "f"; Cell_list [Cell_string "x"; Cell_list []]; Cell_string "y"],
        set_cs (mkStream (" "%char :: list_ascii_of_string "(g)")
                  (old (cs (initial "(f (x ()) y) (g)"))) (Cell_kind Kind.Rp))
          (initial "(f (x ()) y) (g)")).
Proof.
  assert (Hp : forallb plain [Cell_string "f"; Cell_list [Cell_string "x"; Cell_list []];
                              Cell_string "y"] = true) by (vm_compute; reflexivity).
  split; [exact Hp | ]. split; [reflexivity | ].
  exact (expr_reads_back_what_print_writes digits_show_double digits_read_double 6
           [Cell_string "f"; Cell_list [Cell_string "x"; Cell_list []]; Cell_string "y"]
           (list_ascii_of_string "(g)") (initial "(f (x ()) y) (g)")
           Hp ltac:(cbn; lia) eq_refl).
Defined.

Lemma a_missing_parenthesis_is_an_error_in_a_nested_list_only_witness :
  forallb plain [Cell_string "a"; Cell_list [Cell_string "b"]] = true
  /\ fst (expr digits_read_double 5 true (initial "(a (b)")) 
     = Ok [Cell_string "a"; Cell_list [Cell_string "b"]]
  /\ fst (expr digits_read_double 5 true (initial "((a (b)"))
     = Err (runtime_error "')' expected").
Proof.
  assert (Hp : forallb plain [Cell_string "a"; Cell_list [Cell_string "b"]] = true)
    by (vm_compute; reflexivity).
  split; [exact Hp | ]. split.
  - exact (proj1 (a_missing_parenthesis_is_an_error_in_a_nested_list_only
                    digits_show_double digits_read_double 5
                    [Cell_string "a"; Cell_list [Cell_string "b"]] (initial "(a (b)")
                    Hp ltac:(cbn; lia)) eq_refl).
  - exact (proj2 (a_missing_parenthesis_is_an_error_in_a_nested_list_only
                    digits_show_double digits_read_double 5
                    [Cell_string "a"; Cell_list [Cell_string "b"]] (initial "((a (b)")
                    Hp ltac:(cbn; lia)) eq_refl).
Defined.

Lemma lookup_after_assign_witness :
  fst (deref e0_ptr fresh) = Ok (e0 fresh)
  /\ fst (assign e0_ptr "x" (Cell_string "a") fresh) = Ok tt
  /\ fst (lookup e0_ptr "x" (snd (assign e0_ptr "x" (Cell_string "a") fresh)))
     = Ok (Cell_string "a").
Proof.
  split; [reflexivity | ].
  exact (lookup_after_assign e0_ptr "x" (Cell_string "a") fresh (e0 fresh) eq_refl).
Defined.

Lemma assign_leaves_other_names_witness :
  "x" <> "y"
  /\ fst (lookup e0_ptr "y"
            (snd (assign e0_ptr "x" (Cell_string "a")
                    (snd (assign e0_ptr "y" (Cell_string "b") fresh)))))
     = fst (lookup e0_ptr "y" (snd (assign e0_ptr "y" (Cell_string "b") fresh))).
Proof.
  assert (H : "x" <> "y") by discriminate.
  split; [exact H | ].
  exact (assign_leaves_other_names e0_ptr e0_ptr "x" "y" (Cell_string "a")
           (snd (assign e0_ptr "y" (Cell_string "b") fresh)) H).
Defined.

Lemma lookup_in_the_global_frame_witness :
  outer (e0 (initial "")) = None
  /\ fst (lookup e0_ptr "x" (initial ""))
     = match global (initial "") "x" with
       | Some v => Ok v
       | None => Err (runtime_error "Unbound variable")
       end.
Proof.
  split; [reflexivity | ].
  exact (lookup_in_the_global_frame "x" (initial "") eq_refl).
Defined.

Lemma bind_makes_the_call_frame_witness :
  map data [Cell_string "x"; Cell_string "y"] = map DStr ["x"; "y"]
  /\ NoDup ["x"; "y"]
  /\ envs_moved (storage (initial "")) <= length (envs (initial ""))
  /\ envs_moved (storage crowded) <= length (envs crowded)
  /\ (exists st',
        bind digits_show_double [Cell_string "x"; Cell_string "y"]
          [Cell_string "a"; Cell_string "b"] (envs_ptr 0) (initial "")
        = (Ok (envs_ptr 1), st')
        /\ fst (lookup (envs_ptr 1) "y" st') = Ok (Cell_string "b")
        /\ fst (lookup (envs_ptr 1) "z" st') = Err (runtime_error "Unbound variable"))
  /\ (exists st',
        bind digits_show_double [Cell_string "x"; Cell_string "y"]
          [Cell_string "a"; Cell_string "b"] (envs_ptr 1) crowded
        = (Ok (envs_ptr (length (envs crowded))), st')
        /\ fst (lookup (envs_ptr (length (envs crowded))) "y" st')
           = Ok (Cell_string "b")
        /\ fst (lookup (envs_ptr (length (envs crowded))) "z" st')
           = Err (undefined "use of an element of envs after the vector moved")).
Proof.
  assert (Hd : NoDup ["x"; "y"]).
  { apply NoDup_cons. split; [ | apply NoDup_singleton].
    intros H. apply list_elem_of_singleton in H. discriminate H. }
  assert (Hz : "z" ∉ ["x"; "y"]).
  { intros H. apply elem_of_cons in H as [H | H]; [discriminate H | ].
    apply list_elem_of_singleton in H. discriminate H. }
  assert (Hwf : envs_moved (storage (initial "")) <= length (envs (initial "")))
    by apply Nat.le_0_l.
  assert (Hwf' : envs_moved (storage crowded) <= length (envs crowded))
    by apply Nat.le_0_l.
  assert (Hlen : length (envs crowded) = S (N.to_nat (max_capacity * 4 - 1))).
  { unfold crowded. cbn [envs set_envs length]. rewrite length_replicate. reflexivity. }
  assert (Hfull' : (envs_capacity (storage crowded) <= N.of_nat (length (envs crowded)))%N).
  { change (envs_capacity (storage crowded)) with (max_capacity * 4)%N.
    rewrite Hlen. unfold max_capacity. lia. }
  assert (H1 : 1 < length (envs crowded)).
  { rewrite Hlen. unfold max_capacity. lia. }
  split; [reflexivity | ]. split; [exact Hd | ]. split; [exact Hwf | ].
  split; [exact Hwf' | ]. split.
  - destruct (bind_makes_the_call_frame digits_show_double ["x"; "y"]
                [Cell_string "x"; Cell_string "y"] [Cell_string "a"; Cell_string "b"]
                (envs_ptr 0) (initial "") eq_refl eq_refl Hd Hwf)
      as (st' & Hb & _ & _ & _ & Hpar & Hroom & _).
    exists st'. split; [exact Hb | ].
    split; [exact (Hpar 1 "y" (Cell_string "b") eq_refl eq_refl) | ].
    exact (Hroom eq_refl "z" _ Hz eq_refl I).
  - destruct (bind_makes_the_call_frame digits_show_double ["x"; "y"]
                [Cell_string "x"; Cell_string "y"] [Cell_string "a"; Cell_string "b"]
                (envs_ptr 1) crowded eq_refl eq_refl Hd Hwf')
      as (st' & Hb & _ & _ & _ & Hpar & _ & Hfull).
    exists st'. split; [exact Hb | ].
    split; [exact (Hpar 1 "y" (Cell_string "b") eq_refl eq_refl) | ].
    exact (Hfull Hfull' 1 "z" eq_refl H1 Hz).
Defined.

Lemma apply_rejects_a_wrong_number_of_arguments_witness :
  procs (set_procs [mkProc [Cell_string "x"] [Cell_string "x"] e0_ptr] (initial "")) !! 0
  = Some (mkProc [Cell_string "x"] [Cell_string "x"] e0_ptr)
  /\ length (params (mkProc [Cell_string "x"] [Cell_string "x"] e0_ptr))
     <> length (@nil Cell)
  /\ exists o,
       apply digits_show_double 1 (Cell_proc 0) []
         (set_procs [mkProc [Cell_string "x"] [Cell_string "x"] e0_ptr] (initial ""))
       = (Err (runtime_error "# of args provided and expected mismatch"),
          set_cout o
            (set_procs [mkProc [Cell_string "x"] [Cell_string "x"] e0_ptr] (initial ""))).
Proof.
  assert (Hl : length (params (mkProc [Cell_string "x"] [Cell_string "x"] e0_ptr))
               <> length (@nil Cell)) by discriminate.
  split; [reflexivity | ]. split; [exact Hl | ].
  exact (apply_rejects_a_wrong_number_of_arguments digits_show_double 0 0
           (mkProc [Cell_string "x"] [Cell_string "x"] e0_ptr) []
           (set_procs [mkProc [Cell_string "x"] [Cell_string "x"] e0_ptr] (initial ""))
           eq_refl Hl).
Defined.

Lemma define_binds_the_value_witness :
  eval digits_show_double 3 [Cell_kind Kind.Quote; Cell_string "a"] e0_ptr fresh
  = (Ok (Cell_string "a"),
     snd (eval digits_show_double 3 [Cell_kind Kind.Quote; Cell_string "a"] e0_ptr fresh))
  /\ fst (define (fun e => eval digits_show_double 3 e e0_ptr) e0_ptr
            [Cell_string "x"; Cell_kind Kind.Quote; Cell_string "a"] fresh)
     = Ok (Cell_string "a")
  /\ fst (lookup e0_ptr "x"
            (snd (define (fun e => eval digits_show_double 3 e e0_ptr) e0_ptr
                    [Cell_string "x"; Cell_kind Kind.Quote; Cell_string "a"] fresh)))
     = Ok (Cell_string "a").
Proof.
  assert (H : eval digits_show_double 3 [Cell_kind Kind.Quote; Cell_string "a"] e0_ptr fresh
              = (Ok (Cell_string "a"),
                 snd (eval digits_show_double 3 [Cell_kind Kind.Quote; Cell_string "a"]
                        e0_ptr fresh)))
    by (vm_compute; reflexivity).
  split; [exact H | ].
  exact (define_binds_the_value (fun e => eval digits_show_double 3 e e0_ptr) e0_ptr
           (Cell_string "x") "x" (Cell_kind Kind.Quote) [Cell_string "a"] fresh
           (Cell_string "a") _ (e0 fresh) eq_refl eq_refl H eq_refl).
Defined.

Lemma define_makes_a_procedure_witness :
  fst (define (fun _ => throw out_of_fuel) e0_ptr
         [Cell_list [Cell_string "sq"; Cell_string "x"];
          Cell_list [Cell_kind Kind.Mul; Cell_string "x"; Cell_string "x"]] fresh)
  = Ok (Cell_proc (length (procs fresh)))
  /\ procs (snd (define (fun _ => throw out_of_fuel) e0_ptr
                   [Cell_list [Cell_string "sq"; Cell_string "x"];
                    Cell_list [Cell_kind Kind.Mul; Cell_string "x"; Cell_string "x"]] fresh))
     = procs fresh
       ++ [mkProc [Cell_string "x"] [Cell_kind Kind.Mul; Cell_string "x"; Cell_string "x"]
             e0_ptr]
  /\ fst (lookup e0_ptr "sq"
            (snd (define (fun _ => throw out_of_fuel) e0_ptr
                    [Cell_list [Cell_string "sq"; Cell_string "x"];
                     Cell_list [Cell_kind Kind.Mul; Cell_string "x"; Cell_string "x"]]
                    fresh)))
     = Ok (Cell_proc (length (procs fresh))).
Proof.
  exact (define_makes_a_procedure (fun _ => throw out_of_fuel) e0_ptr
           (Cell_list [Cell_string "sq"; Cell_string "x"]) "sq" [Cell_string "x"]
           (Cell_list [Cell_kind Kind.Mul; Cell_string "x"; Cell_string "x"])
           [Cell_kind Kind.Mul; Cell_string "x"; Cell_string "x"] [] fresh (e0 fresh)
           eq_refl eq_refl eq_refl eq_refl).
Defined.

Lemma Env_of_parameters_takes_every_second_argument_witness :
  (exists why,
      fst (Env_of [Cell_string "x"; Cell_string "y"] [Cell_string "a"; Cell_string "b"]
             e0_ptr fresh) = Err (undefined why))
  /\ exists e,
       fst (Env_of [Cell_string "x"; Cell_string "y"]
              [Cell_string "a"; Cell_string "b"; Cell_string "c"; Cell_string "d"]
              e0_ptr fresh) = Ok e
       /\ outer e = Some e0_ptr
       /\ (NoDup ["x"; "y"] ->
           forall i n, ["x"; "y"] !! i = Some n ->
             env_map e !! n
             = [Cell_string "a"; Cell_string "b"; Cell_string "c"; Cell_string "d"]
               !! (2 * i)).
Proof.
  split.
  - exact (Env_of_parameters_takes_every_second_argument ["x"; "y"]
             [Cell_string "x"; Cell_string "y"] [Cell_string "a"; Cell_string "b"]
             e0_ptr fresh eq_refl).
  - exact (Env_of_parameters_takes_every_second_argument ["x"; "y"]
             [Cell_string "x"; Cell_string "y"]
             [Cell_string "a"; Cell_string "b"; Cell_string "c"; Cell_string "d"]
             e0_ptr fresh eq_refl).
Defined.

Lemma arithmetic_rejects_what_is_not_a_number_witness :
  In Kind.Add [Kind.Add; Kind.Sub; Kind.Mul; Kind.Div]
  /\ In (Cell_string "a") [Cell_double 1; Cell_string "a"]
  /\ fst (apply_prim digits_show_double (Cell_kind Kind.Add)
            [Cell_double 1; Cell_string "a"] fresh) = Err bad_get.
Proof.
  assert (Hk : In Kind.Add [Kind.Add; Kind.Sub; Kind.Mul; Kind.Div]) by (left; reflexivity).
  assert (Hc : In (Cell_string "a") [Cell_double 1; Cell_string "a"])
    by (right; left; reflexivity).
  split; [exact Hk | ]. split; [exact Hc | ].
  exact (arithmetic_rejects_what_is_not_a_number digits_show_double Kind.Add (DStr "")
           [Cell_double 1; Cell_string "a"] (Cell_string "a") fresh Hk Hc
           ltac:(discriminate)).
Defined.

Lemma and_or_of_values_that_are_not_booleans_witness :
  Forall (fun c => kind c <> Kind.True /\ kind c <> Kind.False)
         [Cell_double 1; Cell_string "a"]
  /\ fst (apply_prim digits_show_double (Cell_kind Kind.And)
            [Cell_double 1; Cell_string "a"] fresh) = Ok (Cell_kind Kind.True)
  /\ fst (apply_prim digits_show_double (Cell_kind Kind.Or)
            [Cell_double 1; Cell_string "a"] fresh) = Ok (Cell_kind Kind.False).
Proof.
  assert (H : Forall (fun c => kind c <> Kind.True /\ kind c <> Kind.False)
                     [Cell_double 1; Cell_string "a"])
    by (repeat constructor; discriminate).
  split; [exact H | ].
  exact (and_or_of_values_that_are_not_booleans digits_show_double (DStr "") (DStr "")
           [Cell_double 1; Cell_string "a"] fresh H).
Defined.

Lemma de_morgan_witness :
  Forall2 (fun a n => fst (apply_prim digits_show_double (Cell_kind Kind.Not) [a] fresh)
                      = Ok n)
          [Cell_bool true; Cell_bool false] [Cell_bool false; Cell_bool true]
  /\ fst (apply_prim digits_show_double (Cell_kind Kind.And)
            [Cell_bool true; Cell_bool false] fresh) = Ok (Cell_bool false)
  /\ fst (apply_prim digits_show_double (Cell_kind Kind.Not) [Cell_bool false] fresh)
     = fst (apply_prim digits_show_double (Cell_kind Kind.Or)
              [Cell_bool false; Cell_bool true] fresh).
Proof.
  assert (H : Forall2 (fun a n =>
                         fst (apply_prim digits_show_double (Cell_kind Kind.Not) [a] fresh)
                         = Ok n)
                      [Cell_bool true; Cell_bool false] [Cell_bool false; Cell_bool true])
    by (repeat constructor).
  assert (Ha : fst (apply_prim digits_show_double (Cell_kind Kind.And)
                      [Cell_bool true; Cell_bool false] fresh) = Ok (Cell_bool false))
    by reflexivity.
  split; [exact H | ]. split; [exact Ha | ].
  exact (proj1 (de_morgan digits_show_double (DStr "") (DStr "") (DStr "")
                  [Cell_bool true; Cell_bool false] [Cell_bool false; Cell_bool true]
                  fresh H) (Cell_bool false) Ha).
Defined.

Lemma evaluation_changes_globals_only_by_define_witness :
  forallb no_define [Cell_kind Kind.List; Cell_kind Kind.Quote; Cell_string "a"] = true
  /\ e0 (snd (eval digits_show_double 9
                [Cell_kind Kind.List; Cell_kind Kind.Quote; Cell_string "a"] e0_ptr
                (snd (run digits_show_double digits_read_double 9 "(define x 'b)"))))
     = e0 (snd (run digits_show_double digits_read_double 9 "(define x 'b)")).
Proof.
  split; [reflexivity | ].
  exact (evaluation_changes_globals_only_by_define digits_show_double 9
           [Cell_kind Kind.List; Cell_kind Kind.Quote; Cell_string "a"] e0_ptr
           (snd (run digits_show_double digits_read_double 9 "(define x 'b)"))
           (or_introl eq_refl)).
Defined.
